(** * index_concepts.py: the LaTeX concept indexer

    A shallow embedding of [src/index_concepts.py] and the properties of
    its environment tracker, match validator, throttle and line rewriter.

    Python values are modelled as follows.
    - [str] is [list ascii]; a character is a code point below 256, so the
      model covers Latin-1 text.  [\w] and [\W] follow Python's Unicode
      tables on that range.
    - [int] is [Z]; indices may be negative and wrap as in Python.
    - [defaultdict] is a [gmap] read through its default; reading a missing
      key stores the default, as [defaultdict.__getitem__] does.
    - [IndexError] is the only exception the annotation loop can raise; it
      is the [IndexError] constructor of [result]. *)

From Stdlib Require Import ZArith Ascii String List Lia Bool.
From stdpp Require Import gmap strings list fin_maps.

Local Open Scope Z_scope.

Abbreviation pystr := (list ascii) (only parsing).

Definition lit (s : string) : pystr := list_ascii_of_string s.

(** ** Python primitives *)

Module Py.

Inductive result (A : Type) : Type :=
| Ok (a : A)
| IndexError.
Arguments Ok {A} a.
Arguments IndexError {A}.

Definition bind {A B} (r : result A) (k : A → result B) : result B :=
  match r with
  | Ok a => k a
  | IndexError => IndexError
  end.

Definition len {A} (s : list A) : Z := Z.of_nat (length s).

(** [s[i]]: a negative index counts from the end; out of range raises. *)
Definition index {A} (s : list A) (i : Z) : option A :=
  let j := if i <? 0 then i + len s else i in
  if (0 <=? j) && (j <? len s) then s !! Z.to_nat j else None.

(** A slice bound: negative bounds count from the end, then both are
    clamped to [0, len]. *)
Definition bound (n i : Z) : Z :=
  if i <? 0 then Z.max 0 (i + n) else Z.min i n.

(** [s[lo:hi]], an absent bound written [None]. *)
Definition slice {A} (s : list A) (lo hi : option Z) : list A :=
  let n := len s in
  let a := match lo with None => 0 | Some i => bound n i end in
  let b := match hi with None => n | Some i => bound n i end in
  take (Z.to_nat (b - a)) (drop (Z.to_nat a) s).

(** [s.count(c)] for a one-character [c]. *)
Definition count (c : ascii) (s : pystr) : Z :=
  Z.of_nat (count_occ ascii_dec s c).

Fixpoint startswith (p s : pystr) : bool :=
  match p, s with
  | [], _ => true
  | _ :: _, [] => false
  | a :: p', b :: s' => bool_decide (a = b) && startswith p' s'
  end.

(** [needle in hay] on strings: substring search. *)
Fixpoint contains (needle hay : pystr) : bool :=
  match hay with
  | [] => startswith needle []
  | _ :: hay' => startswith needle hay || contains needle hay'
  end.

(** [d[k]] on a [defaultdict] whose factory returns [dflt]: the value
    read and the dictionary afterwards. *)
Definition dd_get {V} (dflt : V) (d : gmap (list ascii) V) (k : pystr)
  : V * gmap (list ascii) V :=
  match d !! k with
  | Some v => (v, d)
  | None => (dflt, <[k := dflt]> d)
  end.

(** The value a read of [d[k]] yields. *)
Definition dd_val {V} (dflt : V) (d : gmap (list ascii) V) (k : pystr) : V :=
  default dflt (d !! k).

(** [d[k] += n] on a [defaultdict] of integers with default [dflt]. *)
Definition dd_add (dflt : Z) (d : gmap (list ascii) Z) (k : pystr) (n : Z)
  : gmap (list ascii) Z :=
  <[k := dd_val dflt d k + n]> d.

End Py.

Import Py.

(** ** Regular expressions of the source *)

Module Re.

Definition newline : ascii := "010"%char.
Definition backslash : ascii := "\"%char.
Definition close_brace : ascii := "}"%char.

(** [\w] on code points below 256 (Python 3 [str] patterns):
    [Py_UNICODE_ISALNUM] or underscore. *)
Definition is_word_char (c : ascii) : bool :=
  let n := N_of_ascii c in
  (((48 <=? n) && (n <=? 57)) || ((65 <=? n) && (n <=? 90)) || (n =? 95)
   || ((97 <=? n) && (n <=? 122))
   || (n =? 170) || (n =? 178) || (n =? 179) || (n =? 181) || (n =? 185)
   || (n =? 186) || ((188 <=? n) && (n <=? 190))
   || ((192 <=? n) && (n <=? 214)) || ((216 <=? n) && (n <=? 246))
   || ((248 <=? n) && (n <=? 255)))%N.

(** [re.match(r'\W', c)] on a one-character string succeeds. *)
Definition non_word (c : ascii) : bool := negb (is_word_char c).

(** [[a-zA-Z]] *)
Definition is_letter (c : ascii) : bool :=
  let n := N_of_ascii c in
  (((65 <=? n) && (n <=? 90)) || ((97 <=? n) && (n <=? 122)))%N.

(** [(.*?)}]: the lazy group tries the closing brace first and extends by
    one character other than a newline when that fails. *)
Fixpoint lazy_group (s : pystr) : option pystr :=
  match s with
  | [] => None
  | c :: s' =>
      if bool_decide (c = close_brace) then Some []
      else if bool_decide (c = newline) then None
      else cons c <$> lazy_group s'
  end.

Fixpoint strip_prefix (p s : pystr) : option pystr :=
  match p, s with
  | [], _ => Some s
  | _ :: _, [] => None
  | a :: p', b :: s' => if bool_decide (a = b) then strip_prefix p' s' else None
  end.

(** The pattern after the leading [.*]: the keyword, the lazy group and
    the closing brace; the trailing [.*] always succeeds. *)
Definition delimiter_here (kw s : pystr) : option pystr :=
  strip_prefix kw s ≫= lazy_group.

(** [re.match(r'.*KW(.*?)}.*', s)] and its [group(1)].  The leading [.*]
    is greedy: it first consumes one more character (never a newline) and
    only when the rest of the pattern fails there does it try the rest at
    the current position. *)
Fixpoint delimiter (kw s : pystr) : option pystr :=
  match s with
  | [] => delimiter_here kw []
  | c :: s' =>
      if bool_decide (c = newline) then delimiter_here kw s
      else match delimiter kw s' with
           | Some g => Some g
           | None => delimiter_here kw s
           end
  end.

(** [re.match(r'^[a-zA-Z]*?\\.*', s) is not None] *)
Fixpoint command_tail (s : pystr) : bool :=
  match s with
  | [] => false
  | c :: s' =>
      if bool_decide (c = backslash) then true
      else if is_letter c then command_tail s'
      else false
  end.

End Re.

(** ** Constants *)

Definition DISTANCE : Z := 200.

Definition THESIS_STOPWORDS : gset (list ascii) :=
  list_to_set
    [ lit "entity"; lit "information"; lit "document"; lit "model";
      lit "hypergraph-of-entity"; lit "node"; lit "entity-oriented search";
      lit "hypergraph"; lit "ranking"; lit "term" ].

(** ** Functions *)

Definition begin_kw : pystr := lit "\begin{".
Definition end_kw : pystr := lit "\end{".

Definition check_begin (line : pystr) (count_env : gmap (list ascii) Z)
    (allowed_env : list pystr) : gmap (list ascii) Z :=
  match Re.delimiter begin_kw line with
  | Some g => if bool_decide (g ∈ allowed_env) then count_env
              else dd_add 0 count_env g 1
  | None => count_env
  end.

Definition check_end (line : pystr) (count_env : gmap (list ascii) Z)
    (allowed_env : list pystr) : gmap (list ascii) Z :=
  match Re.delimiter end_kw line with
  | Some g => if bool_decide (g ∈ allowed_env) then count_env
              else dd_add 0 count_env g (-1)
  | None => count_env
  end.

Definition is_inside_env (count_env : gmap (list ascii) Z) : bool :=
  existsb (λ kv, 0 <? kv.2) (map_to_list count_env).

Definition is_inside_command (line : pystr) (start_index end_index : Z)
    (open_char close_char : ascii) : bool :=
  let before_match := slice line None (Some start_index) in
  let after_match := slice line (Some (end_index + 1)) None in
  let before_count := count open_char before_match - count close_char before_match in
  let after_count := count open_char after_match - count close_char after_match in
  (0 <? before_count) && (after_count <? 0).

Definition is_part_of_command (line : pystr) (end_index : Z) : bool :=
  let rev_line := rev line in
  Re.command_tail (slice rev_line (Some (- end_index)) None).

Definition is_invalid_concept (concept : pystr) : bool :=
  contains (lit "/") concept || contains (lit "et al") concept.

(** The values argparse admits for [--method]. *)
Inductive method := dist | stop.

Global Instance method_eq_dec : EqDecision method.
Proof. solve_decision. Defined.

Definition can_annotate (methods : option (list method))
    (last_line_nr current_line_nr : Z) (concept : pystr) : bool :=
  match methods with
  | None => true
  | Some ms =>
      let cond := true in
      let cond :=
        if bool_decide (dist ∈ ms)
        then cond && ((last_line_nr =? -1) || (last_line_nr + DISTANCE <? current_line_nr))
        else cond in
      let cond :=
        if bool_decide (stop ∈ ms)
        then cond && bool_decide (concept ∉ THESIS_STOPWORDS)
        else cond in
      cond
  end.

(** ** Statistics and the state of the annotation loop *)

(** [stats]: the integer entries of the [defaultdict] and the nested
    [defaultdict] stored under ['annotation distribution']. *)
Record stats_t := mk_stats {
  counters : gmap (list ascii) Z;
  annotation_distribution : gmap (list ascii) Z
}.

Definition bump (name : string) (st : stats_t) : stats_t :=
  mk_stats (dd_add 0 (counters st) (lit name) 1) (annotation_distribution st).

(** What the loop over the matches of one line reads and writes: the line
    being rewritten, [total_annotation_length], [stats] and [last_line]. *)
Record loop_state := mk_loop {
  line_of : pystr;
  total_annotation_length : Z;
  stats_of : stats_t;
  last_line_of : gmap (list ascii) Z
}.

(** One tuple yielded by the matcher: [(end_index, (match, concept))]. *)
Abbreviation match_t := (Z * (list ascii * list ascii))%type (only parsing).

Definition annotation (concept : pystr) : pystr :=
  lit "\index{" ++ concept ++ lit "}".

(** The condition of the first [if] of the loop body. *)
Definition invalid_match (line : pystr) (start_index end_index : Z)
    (concept : pystr) : bool :=
  is_invalid_concept concept
  || is_inside_command line start_index end_index "{" "}"
  || is_inside_command line start_index end_index "[" "]"
  || is_part_of_command line end_index.

(** [re.match(r'\W', line[end_index+1]) and
     re.match(r'\W', line[end_index-len(match)])]: the second character is
    read only when the first one is not a word character. *)
Definition word_boundaries (line : pystr) (end_index : Z) (mtch : pystr)
  : result bool :=
  match index line (end_index + 1) with
  | None => IndexError
  | Some after =>
      if Re.non_word after then
        match index line (end_index - len mtch) with
        | None => IndexError
        | Some before => Ok (Re.non_word before)
        end
      else Ok false
  end.

(** [line[0:end_index+1] + annotation + line[end_index+1:]] *)
Definition insert_annotation (line : pystr) (end_index : Z) (concept : pystr)
  : pystr :=
  slice line (Some 0) (Some (end_index + 1)) ++ annotation concept
    ++ slice line (Some (end_index + 1)) None.

(** The body of the loop over the matches, from the line after
    [end_index += total_annotation_length]: [end_index] is the corrected
    offset. *)
Definition annotate_at (methods : option (list method)) (line_nr : Z)
    (s : loop_state) (end_index : Z) (mtch concept : pystr) : result loop_state :=
  let line := line_of s in
  let start_index := end_index - len mtch + 1 in
  if invalid_match line start_index end_index concept then
    Ok (mk_loop line (total_annotation_length s)
          (bump "invalid matches" (stats_of s)) (last_line_of s))
  else
    let '(concept_freq, distribution) :=
      dd_get 0 (annotation_distribution (stats_of s)) concept in
    let stats := mk_stats (counters (stats_of s)) distribution in
    bind (word_boundaries line end_index mtch) (λ boundaries,
      if boundaries then
        let '(last_line_nr, last_line) := dd_get (-1) (last_line_of s) concept in
        if can_annotate methods last_line_nr line_nr concept then
          let stats := bump "indexed matches" stats in
          let stats :=
            mk_stats (counters stats)
              (dd_add 0 (annotation_distribution stats) concept 1) in
          Ok (mk_loop (insert_annotation line end_index concept)
                (total_annotation_length s + len (annotation concept))
                stats (<[concept := line_nr]> last_line))
        else Ok (mk_loop line (total_annotation_length s) stats last_line)
      else Ok (mk_loop line (total_annotation_length s) stats (last_line_of s))).

(** One iteration: the matcher's [end_index] is corrected first. *)
Definition annotate_step (methods : option (list method)) (line_nr : Z)
    (s : loop_state) (m : match_t) : result loop_state :=
  let '(end_index, (mtch, concept)) := m in
  let end_index := end_index + total_annotation_length s in
  annotate_at methods line_nr s end_index mtch concept.

(** [for end_index, (match, concept) in matcher.iter_long(line): ...]; the
    iterator runs over the line as it was before the loop. *)
Fixpoint annotate_loop (methods : option (list method)) (line_nr : Z)
    (ms : list match_t) (s : loop_state) : result loop_state :=
  match ms with
  | [] => Ok s
  | m :: ms' => bind (annotate_step methods line_nr s m) (annotate_loop methods line_nr ms')
  end.

(** ** Files and the run *)

(** What the loop over the lines of one file reads and writes; [written]
    is the content of the temporary file, one entry per [write]. *)
Record file_state := mk_file {
  count_env : gmap (list ascii) Z;
  last_line : gmap (list ascii) Z;
  stats : stats_t;
  written : list (list ascii)
}.

Section Run.

(** [args.allowed_env], [args.method] and [matcher.iter_long]. *)
Variable allowed_env : list (list ascii).
Variable methods : option (list method).
Variable iter_long : list ascii → list match_t.

Definition process_line (line_nr : Z) (line : pystr) (f : file_state)
  : result file_state :=
  let count_env := check_begin line (count_env f) allowed_env in
  let count_env := check_end line count_env allowed_env in
  if is_inside_env count_env then
    Ok (mk_file count_env (last_line f)
          (bump "environment blocks skipped" (stats f))
          (written f ++ [line]))
  else
    bind (annotate_loop methods line_nr (iter_long line)
            (mk_loop line 0 (stats f) (last_line f)))
      (λ s, Ok (mk_file count_env (last_line_of s) (stats_of s)
                  (written f ++ [line_of s]))).

(** [for line_nr, line in enumerate(tex_f): ...] from [line_nr] on. *)
Fixpoint process_lines (line_nr : Z) (lines : list pystr) (f : file_state)
  : result file_state :=
  match lines with
  | [] => Ok f
  | line :: lines' =>
      bind (process_line line_nr line f) (process_lines (line_nr + 1) lines')
  end.

(** One iteration of the loop over the paths: the file's lines in, the
    rewritten lines and the statistics out. *)
Definition process_file (lines : list pystr) (st : stats_t)
  : result (list pystr * stats_t) :=
  let st := bump "edited files" st in
  let last_line := ∅ in
  let count_env := ∅ in
  bind (process_lines 0 lines (mk_file count_env last_line st []))
    (λ f, Ok (written f, stats f)).

(** The loop over the paths. *)
Fixpoint process_files (files : list (list pystr)) (st : stats_t)
  : result (list (list pystr) * stats_t) :=
  match files with
  | [] => Ok ([], st)
  | lines :: files' =>
      bind (process_file lines st) (λ '(out, st),
      bind (process_files files' st) (λ '(outs, st),
      Ok (out :: outs, st)))
  end.

End Run.

(** ** A reference matcher *)

(** Modelled from the spec: the multi-pattern matcher ([ahocorasick], an
    external library).  For each end position, left to right, the longest
    registered surface form ending there is reported with its concept. *)
Definition ends_at (line mtch : pystr) (e : Z) : bool :=
  bool_decide (mtch ≠ []) && (0 <=? e - len mtch + 1)
  && bool_decide (slice line (Some (e - len mtch + 1)) (Some (e + 1)) = mtch).

Definition longest_at (table : list (pystr * pystr)) (line : pystr) (e : Z)
  : option (pystr * pystr) :=
  foldl (λ best row,
           if ends_at line row.1 e then
             match best with
             | Some b => if len b.1 <=? len row.1 then Some row else best
             | None => Some row
             end
           else best) None table.

Definition reference_matcher (table : list (pystr * pystr)) (line : pystr)
  : list match_t :=
  omap (λ e, pair (Z.of_nat e) <$> longest_at table line (Z.of_nat e))
       (seq 0 (length line)).

Definition stats0 : stats_t := mk_stats ∅ ∅.

(** The tracker as the specification words it: the first delimiter of the
    line, that is, the leftmost offset at which the keyword, a name and a
    closing brace follow. *)
Fixpoint first_delimiter (kw s : pystr) : option pystr :=
  match s with
  | [] => Re.delimiter_here kw []
  | c :: s' =>
      match Re.delimiter_here kw s with
      | Some g => Some g
      | None => if bool_decide (c = Re.newline) then None else first_delimiter kw s'
      end
  end.

(** The matches of a line that the loop annotates, in order: the end offset
    the matcher reported and the marker inserted.  An iteration annotates
    exactly when it makes [total_annotation_length] grow. *)
Fixpoint annotated_matches (methods : option (list method)) (line_nr : Z)
    (ms : list match_t) (s : loop_state) : list (Z * list ascii) :=
  match ms with
  | [] => []
  | m :: ms' =>
      match annotate_step methods line_nr s m with
      | Ok s' =>
          (if total_annotation_length s' =? total_annotation_length s then []
           else [(m.1, annotation m.2.2)])
          ++ annotated_matches methods line_nr ms' s'
      | IndexError => []
      end
  end.

(** The reconstruction the specification describes: the spans of the
    original text between the ends of the annotated matches, each followed
    by its marker.  [rest] is the original line from offset [from] on. *)
Fixpoint interleave (from : Z) (rest : pystr) (acc : list (Z * list ascii))
  : pystr :=
  match acc with
  | [] => rest
  | (e, marker) :: acc' =>
      let n := Z.to_nat (e + 1 - from) in
      take n rest ++ marker ++ interleave (e + 1) (drop n rest) acc'
  end.

(** The cumulative length of the markers. *)
Fixpoint markers_length (acc : list (Z * list ascii)) : Z :=
  match acc with
  | [] => 0
  | (_, marker) :: acc' => len marker + markers_length acc'
  end.

(** What the loop needs of the matcher on a line of [n] characters: the
    matches come in increasing order of end offset, from [lo] on; each one
    starts in the line and is followed by a character. *)
Fixpoint well_placed (n lo : Z) (ms : list match_t) : Prop :=
  match ms with
  | [] => True
  | (e, (mtch, _)) :: ms' =>
      lo ≤ e ∧ e + 1 < n ∧ 0 ≤ e - len mtch + 1 ∧ well_placed n (e + 1) ms'
  end.

(** The lower bound for the end offsets that follow [ms]. *)
Fixpoint next_lo (lo : Z) (ms : list match_t) : Z :=
  match ms with
  | [] => lo
  | m :: ms' => next_lo (m.1 + 1) ms'
  end.

(** The lines a run writes for one file, when it returns. *)
Definition output_of (r : result (list pystr * stats_t)) : option (list pystr) :=
  match r with
  | Ok (out, _) => Some out
  | IndexError => None
  end.

(** A line of a fixture: the text and its terminating newline. *)
Definition ln (s : string) : pystr := lit s ++ [Re.newline].

(** A file that mentions a concept on line 10 and again [gap] lines below
    the line after it; the other lines are empty. *)
Definition blank : pystr := ln "".
Definition mention : pystr := ln "a graph b".
Definition mention_indexed : pystr := ln "a graph\index{graph} b".

Definition two_mentions (gap : nat) (second : pystr) (first : pystr) : list pystr :=
  replicate 10 blank ++ [first] ++ replicate gap blank ++ [second].

(** The two-line fixture of the stopword policy. *)
Definition hypergraph_fixture : list pystr :=
  [ ln "The hypergraph model is useful."; ln "We extend the hypergraph further." ].

(** * extract_concepts.py: the concept extractor

    The rankers (NLTK, RAKE, YAKE), [detex] and the terminal are outside
    the program: what they return is an argument of the functions below.
    A weight is a value of a type [W]; [weight > 1] is a test on it. *)

(** ** Python primitives of the extractor *)

(** [sep.join(parts)] *)
Fixpoint join (sep : pystr) (parts : list pystr) : pystr :=
  match parts with
  | [] => []
  | [part] => part
  | part :: parts' => part ++ sep ++ join sep parts'
  end.

(** [s.split(sep)] for a one-character [sep]: the pieces between the
    separators, empty pieces included. *)
Fixpoint split (sep : ascii) (s : pystr) : list pystr :=
  match s with
  | [] => [[]]
  | c :: s' =>
      if bool_decide (c = sep) then [] :: split sep s'
      else match split sep s' with
           | piece :: pieces => (c :: piece) :: pieces
           | [] => [[c]]
           end
  end.

(** ** The text handed to the rankers *)

(** The loop over the lines of [detex]: lines are dropped until the line
    that is the title [from_title]; the loop stops at the line that is the
    title [to_title]; the lines kept are appended to [text]. *)
Fixpoint select_text (from_title to_title : pystr) (ignore : bool)
    (text : pystr) (lines : list pystr) : pystr :=
  match lines with
  | [] => text
  | line :: lines' =>
      let ignore :=
        if bool_decide (line = from_title ++ [Re.newline]) then false
        else ignore in
      if bool_decide (line = to_title ++ [Re.newline]) then text
      else if ignore then select_text from_title to_title ignore text lines'
      else select_text from_title to_title ignore (text ++ line) lines'
  end.

(** [re.sub(r'\n{2,}', '\n\n', text)]: scanning from the left, where two
    newlines follow each other the whole run of newlines is replaced by two;
    [in_run] says that the scan is inside a run whose replacement has been
    written. *)
Fixpoint squeeze_newlines (in_run : bool) (s : pystr) : pystr :=
  match s with
  | [] => []
  | c :: s' =>
      if bool_decide (c = Re.newline) then
        if in_run then squeeze_newlines true s'
        else match s' with
             | c' :: _ =>
                 if bool_decide (c' = Re.newline)
                 then Re.newline :: Re.newline :: squeeze_newlines true s'
                 else Re.newline :: squeeze_newlines false s'
             | [] => [Re.newline]
             end
      else c :: squeeze_newlines false s'
  end.

Definition open_bracket : ascii := "["%char.
Definition close_bracket : ascii := "]"%char.

(** Whether [.*?\]] matches at the start of [s]: a closing bracket comes
    before the next newline. *)
Fixpoint has_closing (s : pystr) : bool :=
  match s with
  | [] => false
  | c :: s' =>
      if bool_decide (c = close_bracket) then true
      else if bool_decide (c = Re.newline) then false
      else has_closing s'
  end.

(** [re.sub(r'\[.*?\]', '', text)]: scanning from the left, an opening
    bracket that has a closing bracket before the next newline is removed
    with everything up to the first such closing bracket; [inside] says that
    the scan is inside a span being removed. *)
Fixpoint strip_brackets (inside : bool) (s : pystr) : pystr :=
  match s with
  | [] => []
  | c :: s' =>
      if inside then
        if bool_decide (c = close_bracket) then strip_brackets false s'
        else strip_brackets true s'
      else if bool_decide (c = open_bracket) && has_closing s'
      then strip_brackets true s'
      else c :: strip_brackets false s'
  end.

(** The text of the sections from [from_title] to [to_title], as the
    rankers receive it. *)
Definition prepare_text (from_title to_title : pystr) (lines : list pystr)
  : pystr :=
  let text := select_text from_title to_title true [] lines in
  let text := squeeze_newlines false text in
  strip_brackets false text.

(** ** The rankers' results *)

(** An item of the chunked sentence: a tree with the tokens of its leaves,
    or anything else. *)
Inductive chunk :=
| Tree (leaves : list (list ascii))
| Other.

(** The loop of [get_continuous_chunks] over the items, on the pair
    [(continuous_chunk, current_chunk)]. *)
Fixpoint chunks_loop (chunked : list chunk)
    (continuous_chunk current_chunk : list pystr) : list pystr * list pystr :=
  match chunked with
  | [] => (continuous_chunk, current_chunk)
  | Tree leaves :: chunked' =>
      chunks_loop chunked' continuous_chunk
        (current_chunk ++ [join (lit " ") leaves])
  | Other :: chunked' =>
      match current_chunk with
      | _ :: _ =>
          let named_entity := join (lit " ") current_chunk in
          if bool_decide (named_entity ∉ continuous_chunk)
          then chunks_loop chunked' (continuous_chunk ++ [named_entity]) []
          else chunks_loop chunked' continuous_chunk current_chunk
      | [] => chunks_loop chunked' continuous_chunk current_chunk
      end
  end.

Definition get_continuous_chunks (chunked : list chunk) : list pystr :=
  let '(continuous_chunk, current_chunk) := chunks_loop chunked [] [] in
  match continuous_chunk with
  | _ :: _ =>
      let named_entity := join (lit " ") current_chunk in
      if bool_decide (named_entity ∉ continuous_chunk)
      then continuous_chunk ++ [named_entity]
      else continuous_chunk
  | [] => continuous_chunk
  end.

Section Weights.

(** The type of the weights and the test [weight > 1]. *)
Variable W : Type.
Variable above_one : W → bool.

(** The generator of [rake_extract_concepts] over what RAKE returned, from
    the value [count] on. *)
Fixpoint rake_loop (concepts : list (pystr * W)) (exclude : gset (list ascii))
    (number count : Z) : list (pystr * W) :=
  match concepts with
  | [] => []
  | (keyword, weight) :: concepts' =>
      let rest := rake_loop concepts' exclude number (count + 1) in
      if above_one weight && (count <? number)
         && bool_decide (keyword ∉ exclude)
      then (keyword, weight) :: rest
      else rest
  end.

Definition rake_extract_concepts (concepts : list (pystr * W))
    (exclude : gset (list ascii)) (number : Z) : list (pystr * W) :=
  rake_loop concepts exclude number 0.

(** The generator of [yake_extract_concepts] over what YAKE returned. *)
Fixpoint yake_extract_concepts (concepts : list (pystr * W))
    (exclude : gset (list ascii)) : list (pystr * W) :=
  match concepts with
  | [] => []
  | (keyword, weight) :: concepts' =>
      if bool_decide (keyword ∉ exclude)
      then (keyword, weight) :: yake_extract_concepts concepts' exclude
      else yake_extract_concepts concepts' exclude
  end.

(** ** Writing the concept table *)

(** A row of the CSV file. *)
Inductive row :=
| Header
| Row (concept mtch : list ascii) (weight : W).

(** [input()] on a terminal whose remaining lines are a list: the end of
    the input raises. *)
Inductive asked (A : Type) :=
| Answered (a : A)
| EOFError.
Arguments Answered {A} a.
Arguments EOFError {A}.

(** What the loop over the concepts reads and writes: [args.select],
    [added], the rows written and the lines of input left. *)
Record table_state := mk_table {
  select : bool;
  added : gset (list ascii);
  rows : list row;
  inputs : list (list ascii)
}.

(** [for match in matches: csv.writerow([concept, match, weight])] *)
Definition write_rows (concept : pystr) (matches : list pystr) (weight : W)
    (out : list row) : list row :=
  out ++ map (λ m, Row concept m weight) matches.

(** The [while True] loop that asks what to do with one concept. *)
Fixpoint ask (answers : list pystr) (concept : pystr) (matches : list pystr)
    (weight : W) (added : gset (list ascii)) (out : list row)
  : asked table_state :=
  match answers with
  | [] => EOFError
  | ans :: answers' =>
      if bool_decide (ans = lit "a") then
        Answered (mk_table false added out answers')
      else if bool_decide (ans = lit "d") then
        Answered (mk_table true added out answers')
      else if bool_decide (ans = lit "e") then
        match answers' with
        | [] => EOFError
        | concept' :: answers'' => ask answers'' concept' matches weight added out
        end
      else if bool_decide (ans = lit "w") then
        match answers' with
        | [] => EOFError
        | edited :: answers'' =>
            ask answers'' concept (split ","%char edited) weight added out
        end
      else if bool_decide (ans = lit "k") || bool_decide (ans = [])
      then
        if bool_decide (concept ∈ added) then
          Answered (mk_table true added out answers')
        else
          Answered (mk_table true ({[concept]} ∪ added)
                      (write_rows concept matches weight out) answers')
      else ask answers' concept matches weight added out
  end.

(** The loop over the concepts. *)
Fixpoint write_concepts (concepts : list (pystr * W)) (t : table_state)
  : asked table_state :=
  match concepts with
  | [] => Answered t
  | (concept, weight) :: concepts' =>
      if bool_decide (concept ∈ added t) then write_concepts concepts' t
      else
        let matches := [concept] in
        if select t then
          match ask (inputs t) concept matches weight (added t) (rows t) with
          | Answered t' => write_concepts concepts' t'
          | EOFError => EOFError
          end
        else
          write_concepts concepts'
            (mk_table (select t) (added t)
               (write_rows concept matches weight (rows t)) (inputs t))
  end.

(** The table written for the concepts: the header, then the loop with
    nothing added yet. *)
Definition write_table (concepts : list (pystr * W)) (select_arg : bool)
    (answers : list pystr) : asked table_state :=
  write_concepts concepts (mk_table select_arg ∅ [Header] answers).

End Weights.

Arguments Answered {A} a.
Arguments EOFError {A}.
Arguments Header {W}.
Arguments Row {W} concept mtch weight.
Arguments mk_table {W} select added rows inputs.
Arguments select {W} t.
Arguments added {W} t.
Arguments rows {W} t.
Arguments inputs {W} t.
Arguments rake_extract_concepts {W} above_one concepts exclude number.
Arguments rake_loop {W} above_one concepts exclude number count.
Arguments yake_extract_concepts {W} concepts exclude.
Arguments write_rows {W} concept matches weight out.
Arguments ask {W} answers concept matches weight added out.
Arguments write_concepts {W} concepts t.
Arguments write_table {W} concepts select_arg answers.

(** ** Predicates of the statements *)

(** The rows of a list of batches; a batch is an index entry with its
    matches and its weight. *)
Definition rows_of {W : Type} (batches : list (list ascii * list (list ascii) * W))
  : list (row W) :=
  flat_map (λ b, map (λ m, Row b.1.1 m b.2) b.1.2) batches.

(** The concepts that are not in [seen] and come first under their name. *)
Fixpoint keep_first {W : Type} (seen : gset (list ascii))
    (concepts : list (list ascii * W)) : list (list ascii * W) :=
  match concepts with
  | [] => []
  | (concept, weight) :: concepts' =>
      if bool_decide (concept ∈ seen) then keep_first seen concepts'
      else (concept, weight) :: keep_first ({[concept]} ∪ seen) concepts'
  end.

(** An answer that keeps the concept: [k] or the empty line. *)
Definition keeps (ans : pystr) : Prop := ans = lit "k" ∨ ans = [].

(** A chunked sentence made of runs of trees, each run followed by one
    item or more that are not trees. *)
Definition sentence_of (runs : list (list (list (list ascii)) * nat))
  : list chunk :=
  flat_map (λ rg, map Tree rg.1 ++ replicate (S rg.2) Other) runs.

(** The name of a run of trees: the tokens of each tree, then the trees,
    joined by spaces. *)
Definition run_name (run : list (list (list ascii))) : pystr :=
  join (lit " ") (map (join (lit " ")) run).

(** No run of more than two newlines, in a text that follows [k]
    newlines. *)
Fixpoint short_runs (k : nat) (s : pystr) : Prop :=
  match s with
  | [] => True
  | c :: s' =>
      if bool_decide (c = Re.newline) then (k < 2)%nat ∧ short_runs (S k) s'
      else short_runs 0 s'
  end.

(** No value of the state changes: the line, the accumulated length, the
    integer statistics, and what every key of the frequency distribution
    and of [last_line] reads as. *)
Definition same_values (s s' : loop_state) : Prop :=
  line_of s' = line_of s
  ∧ total_annotation_length s' = total_annotation_length s
  ∧ counters (stats_of s') = counters (stats_of s)
  ∧ (∀ k, dd_val 0 (annotation_distribution (stats_of s')) k
          = dd_val 0 (annotation_distribution (stats_of s)) k)
  ∧ (∀ k, dd_val (-1) (last_line_of s') k = dd_val (-1) (last_line_of s) k).

(** The keyword starts at offset [length pre] of the line, after no
    newline, and its brace is closed before the next newline. *)
Definition closed_delimiter_at (kw line pre : pystr) : Prop :=
  ∃ g post, line = pre ++ kw ++ g ++ (Re.close_brace :: post)
            ∧ (Re.newline ∉ pre) ∧ (Re.newline ∉ g).

(** Two loop states that differ at most in their statistics. *)
Definition same_text (s1 s2 : loop_state) : Prop :=
  line_of s1 = line_of s2
  ∧ total_annotation_length s1 = total_annotation_length s2
  ∧ last_line_of s1 = last_line_of s2.

Definition same_result {A} (R : A → A → Prop) (r1 r2 : result A) : Prop :=
  match r1, r2 with
  | Ok a1, Ok a2 => R a1 a2
  | IndexError, IndexError => True
  | _, _ => False
  end.

(** Two file states that differ at most in their statistics. *)
Definition same_file (f1 f2 : file_state) : Prop :=
  count_env f1 = count_env f2 ∧ last_line f1 = last_line f2
  ∧ written f1 = written f2.

(** No integer statistic and no frequency is lower in [st'] than in [st],
    and the count of edited files is the same. *)
Definition grown (st st' : stats_t) : Prop :=
  (∀ name, dd_val 0 (counters st) name ≤ dd_val 0 (counters st') name)
  ∧ (∀ c, dd_val 0 (annotation_distribution st) c
          ≤ dd_val 0 (annotation_distribution st') c)
  ∧ dd_val 0 (counters st') (lit "edited files")
    = dd_val 0 (counters st) (lit "edited files").

(** The ends of [acc] increase, the first is at least [from - 1] and the
    last at most [upto]. *)
Fixpoint ordered (from : Z) (acc : list (Z * list ascii)) (upto : Z) : Prop :=
  match acc with
  | [] => True
  | (e, _) :: acc' => from ≤ e + 1 ∧ e ≤ upto ∧ ordered (e + 1) acc' upto
  end.

(** The state of the loop after the annotations [acc]: the line is the
    reconstruction and [total_annotation_length] is the length of the
    markers in it. *)
Definition rebuilt (line : pystr) (s : loop_state) (acc : list (Z * list ascii)) : Prop :=
  line_of s = interleave 0 line acc
  ∧ total_annotation_length s = markers_length acc
  ∧ len (line_of s) = len line + total_annotation_length s.

(** The sum of the frequencies of the distribution. *)
Definition total_frequency (d : gmap (list ascii) Z) : Z :=
  map_fold (λ _ v acc, v + acc) 0 d.

(** ** The annotation loop as the specification words it *)

(** The character after the match and the one before it, both read at a
    corrected offset of the current text, are non-word characters. *)
Definition both_boundaries (current : pystr) (corrected : Z) (mtch : pystr)
  : bool :=
  match index current (corrected + 1), index current (corrected - len mtch) with
  | Some after, Some before => Re.non_word after && Re.non_word before
  | _, _ => false
  end.

(** A match is accepted at a corrected offset of the current text: the
    validator, the boundary check and the throttle all pass there. *)
Definition accepted_at (methods : option (list method)) (line_nr : Z)
    (current : pystr) (corrected : Z) (mtch concept : pystr) (last_line_nr : Z)
  : bool :=
  negb (invalid_match current (corrected - len mtch + 1) corrected concept)
  && both_boundaries current corrected mtch
  && can_annotate methods last_line_nr line_nr concept.

(** The annotations of a line as the specification words them, with no
    reference to the loop of the source.  [acc] holds the markers inserted
    so far on the line, each with the end offset the matcher reported for
    it, and [last] the last-annotated line of each concept.  The current
    text is the original line with the markers of [acc] in place; the end
    offset the matcher reports is corrected by the cumulative length of
    those markers, and the match is validated, checked for its boundaries
    and, when accepted, annotated at the corrected offset. *)
Fixpoint spec_annotations (methods : option (list method)) (line_nr : Z)
    (line : pystr) (ms : list match_t) (acc : list (Z * list ascii))
    (last : gmap (list ascii) Z) : list (Z * list ascii) :=
  match ms with
  | [] => acc
  | (e, (mtch, concept)) :: ms' =>
      let current := interleave 0 line acc in
      let corrected := e + markers_length acc in
      if accepted_at methods line_nr current corrected mtch concept
           (dd_val (-1) last concept)
      then spec_annotations methods line_nr line ms'
             (acc ++ [(e, annotation concept)]) (<[concept := line_nr]> last)
      else spec_annotations methods line_nr line ms' acc last
  end.

(** ** Markers inserted in a text *)

(** [line'] is [line] with markers inserted one after the other, each one
    the marker of a concept that satisfies [P]. *)
Inductive marked (P : list ascii → Prop) : list ascii → list ascii → Prop :=
| marked_none line : marked P line line
| marked_one pre post concept line' :
    P concept →
    marked P (pre ++ annotation concept ++ post) line' →
    marked P (pre ++ post) line'.

(** ** What a run counts *)

(** What the statistics count: a file that is opened, a line that is
    copied because an environment excludes it, a match the validator
    rejects, a match that is annotated with its concept. *)
Inductive event :=
| Edited
| Skipped
| Invalid
| Indexed (concept : list ascii).

Global Instance event_eq_dec : EqDecision event.
Proof. solve_decision. Defined.

(** The integer statistic that counts an event. *)
Definition counter_of (ev : event) : pystr :=
  match ev with
  | Edited => lit "edited files"
  | Skipped => lit "environment blocks skipped"
  | Invalid => lit "invalid matches"
  | Indexed _ => lit "indexed matches"
  end.

(** How many events of a log an integer statistic counts, and how many
    annotations of a concept the log holds. *)
Definition tally (evs : list event) (name : pystr) : Z :=
  len (filter (λ ev, counter_of ev = name) evs).

Definition frequency (evs : list event) (concept : pystr) : Z :=
  len (filter (λ ev, ev = Indexed concept) evs).

(** The event of one iteration of the loop over the matches, decided from
    the text, the accumulated length and the last-annotated lines the
    iteration starts with; the statistics play no part. *)
Definition step_events (methods : option (list method)) (line_nr : Z)
    (s : loop_state) (m : match_t) : list event :=
  let '(e, (mtch, concept)) := m in
  let corrected := e + total_annotation_length s in
  if invalid_match (line_of s) (corrected - len mtch + 1) corrected concept
  then [Invalid]
  else if both_boundaries (line_of s) corrected mtch
          && can_annotate methods (dd_val (-1) (last_line_of s) concept)
               line_nr concept
       then [Indexed concept]
       else [].

(** The events of the loop over the matches of a line, of a line, of the
    lines of a file from [line_nr] on. *)
Fixpoint loop_events (methods : option (list method)) (line_nr : Z)
    (ms : list match_t) (s : loop_state) : list event :=
  match ms with
  | [] => []
  | m :: ms' =>
      step_events methods line_nr s m
      ++ match annotate_step methods line_nr s m with
         | Ok s' => loop_events methods line_nr ms' s'
         | IndexError => []
         end
  end.

Definition line_events (allowed_env : list (list ascii))
    (methods : option (list method)) (iter_long : list ascii → list match_t)
    (line_nr : Z) (line : pystr) (f : file_state) : list event :=
  if is_inside_env
       (check_end line (check_begin line (count_env f) allowed_env) allowed_env)
  then [Skipped]
  else loop_events methods line_nr (iter_long line)
         (mk_loop line 0 (stats f) (last_line f)).

Fixpoint lines_events (allowed_env : list (list ascii))
    (methods : option (list method)) (iter_long : list ascii → list match_t)
    (line_nr : Z) (lines : list pystr) (f : file_state) : list event :=
  match lines with
  | [] => []
  | line :: lines' =>
      line_events allowed_env methods iter_long line_nr line f
      ++ match process_line allowed_env methods iter_long line_nr line f with
         | Ok f' => lines_events allowed_env methods iter_long (line_nr + 1) lines' f'
         | IndexError => []
         end
  end.

(** The events of a file processed on its own, with empty statistics. *)
Definition file_events (allowed_env : list (list ascii))
    (methods : option (list method)) (iter_long : list ascii → list match_t)
    (lines : list pystr) : list event :=
  Edited :: lines_events allowed_env methods iter_long 0 lines
              (mk_file ∅ ∅ stats0 []).

(** ** The functions on small inputs *)

Example delimiter_two_on_a_line :
  Re.delimiter begin_kw (ln "\begin{a}\begin{b}") = Some (lit "b")
  ∧ Re.delimiter begin_kw (ln "\begin{a}\begin{b") = Some (lit "a")
  ∧ Re.delimiter end_kw (ln "text \end{figure} more") = Some (lit "figure")
  ∧ Re.delimiter begin_kw (ln "no delimiter") = None.
Proof. repeat split; reflexivity. Qed.

Example index_wraps :
  index (lit "abc") (-1) = Some "c"%char
  ∧ index (lit "abc") 3 = None
  ∧ index (lit "abc") (-4) = None
  ∧ slice (lit "abcdef") (Some (-2)) None = lit "ef"
  ∧ slice (lit "abcdef") None (Some 2) = lit "ab".
Proof. repeat split; reflexivity. Qed.

Example validator_on_a_command :
  is_part_of_command (ln "see \graph here") 9 = true
  ∧ is_part_of_command (ln "see graph here") 8 = false
  ∧ is_inside_command (ln "\textbf{a graph} b") 10 14 "{" "}" = true
  ∧ is_invalid_concept (lit "Smith et al") = true
  ∧ is_invalid_concept (lit "graph") = false.
Proof. repeat split; reflexivity. Qed.

Example run_on_one_line :
  process_file [lit "sloppypar"] None
    (reference_matcher [(lit "graph", lit "graph"); (lit "node", lit "vertex")])
    [ln "a graph has a node."] stats0
  = Ok ([ln "a graph\index{graph} has a node\index{vertex}."],
        mk_stats {[ lit "edited files" := 1; lit "indexed matches" := 2 ]}
                 {[ lit "graph" := 1; lit "vertex" := 1 ]}).
Proof. vm_compute. reflexivity. Qed.

(** ** Slices and indices in range *)

Section SliceFacts.

Context {A : Type}.
Implicit Types s : list A.

Lemma len_nonneg s : 0 ≤ len s.
Proof. unfold len. lia. Qed.

Lemma len_app s t : len (s ++ t) = len s + len t.
Proof. unfold len. rewrite length_app. lia. Qed.

Lemma slice_to s k : 0 ≤ k → slice s None (Some k) = take (Z.to_nat k) s.
Proof.
  intros Hk. unfold slice, bound, len.
  rewrite (proj2 (Z.ltb_ge k 0) Hk), Z.sub_0_r. simpl.
  destruct (Z.le_gt_cases k (Z.of_nat (length s))) as [H|H].
  - by rewrite Z.min_l.
  - rewrite Z.min_r by lia. rewrite Nat2Z.id.
    rewrite !firstn_all2; try done. lia.
Qed.

Lemma slice_0_to s k : 0 ≤ k → slice s (Some 0) (Some k) = take (Z.to_nat k) s.
Proof.
  intros Hk. rewrite <- (slice_to s k Hk). unfold slice, bound.
  change (0 <? 0) with false. cbv iota.
  by rewrite (Z.min_l 0 (len s)) by apply len_nonneg.
Qed.

Lemma slice_from s k : 0 ≤ k → slice s (Some k) None = drop (Z.to_nat k) s.
Proof.
  intros Hk. unfold slice, bound, len.
  rewrite (proj2 (Z.ltb_ge k 0) Hk).
  destruct (Z.le_gt_cases k (Z.of_nat (length s))) as [H|H].
  - rewrite Z.min_l by done. apply firstn_all2. rewrite length_skipn. lia.
  - rewrite Z.min_r by lia. rewrite Z.sub_diag. simpl.
    rewrite Nat2Z.id. symmetry. apply skipn_all2. lia.
Qed.

Lemma index_nonneg s i : 0 ≤ i → index s i = s !! Z.to_nat i.
Proof.
  intros Hi. unfold index, len.
  rewrite (proj2 (Z.ltb_ge i 0) Hi), (proj2 (Z.leb_le 0 i) Hi). simpl.
  destruct (Z.ltb_spec i (Z.of_nat (length s))); [done |].
  symmetry. apply lookup_ge_None. lia.
Qed.

Lemma index_in_range s i : 0 ≤ i < len s → is_Some (index s i).
Proof.
  intros [H0 H1]. rewrite index_nonneg by done.
  apply lookup_lt_is_Some. unfold len in H1. lia.
Qed.

Lemma index_past_end s i : len s ≤ i → index s i = None.
Proof.
  intros Hi. pose proof (len_nonneg s).
  rewrite index_nonneg by lia. apply lookup_ge_None. unfold len in Hi. lia.
Qed.

(** [s[-1]] is the last character. *)
Lemma index_minus_one s : index s (-1) = last s.
Proof.
  unfold index, len. simpl.
  destruct s as [|a s] using rev_ind; [done |].
  rewrite length_app, last_snoc. simpl.
  replace (-1 + Z.of_nat (length s + 1)%nat) with (Z.of_nat (length s)) by lia.
  rewrite (proj2 (Z.leb_le 0 _)) by lia.
  rewrite (proj2 (Z.ltb_lt _ _)) by lia. simpl.
  rewrite Nat2Z.id. by rewrite lookup_app_r, Nat.sub_diag.
Qed.

End SliceFacts.

(** ** Reading a [defaultdict] *)

Lemma dd_get_val {V} (dflt : V) d k : (dd_get dflt d k).1 = dd_val dflt d k.
Proof. unfold dd_get, dd_val. by destruct (d !! k). Qed.

(** A read leaves every value as it was: it only stores the default. *)
Lemma dd_get_same {V} (dflt : V) d k k' :
  dd_val dflt (dd_get dflt d k).2 k' = dd_val dflt d k'.
Proof.
  unfold dd_get, dd_val. destruct (d !! k) eqn:E; [done |]. simpl.
  destruct (decide (k = k')) as [->|Hne].
  - by rewrite lookup_insert_eq, E.
  - by rewrite lookup_insert_ne.
Qed.

Lemma dd_add_val d k n : dd_val 0 (dd_add 0 d k n) k = dd_val 0 d k + n.
Proof. unfold dd_add, dd_val at 1. by rewrite lookup_insert_eq. Qed.

Lemma dd_add_other d k k' n : k ≠ k' → dd_add 0 d k n !! k' = d !! k'.
Proof. intros. unfold dd_add. by rewrite lookup_insert_ne. Qed.

(** ** The environment tracker *)

Lemma is_inside_env_spec (m : gmap (list ascii) Z) :
  is_inside_env m = true ↔ ∃ k v, m !! k = Some v ∧ 0 < v.
Proof.
  unfold is_inside_env. rewrite existsb_exists. split.
  - intros [[k v] [Hin Hv]]. exists k, v. split.
    + by apply elem_of_map_to_list, list_elem_of_In.
    + simpl in Hv. lia.
  - intros (k & v & Hkv & Hv). exists (k, v). split.
    + by apply list_elem_of_In, elem_of_map_to_list.
    + simpl. lia.
Qed.

(** C2.  A line after whose delimiters some tracked environment counter is
    strictly positive is written as it is, whatever the matcher reports for
    it: the environment-skipped statistic grows by one and nothing else
    changes.  A set of counters excludes a line exactly when one of its
    values is strictly positive; a line that is not excluded goes to the
    annotation loop. *)
Theorem excluded_line_is_copied
    (allowed : list (list ascii)) (methods : option (list method))
    (iter_long : list ascii → list match_t)
    (line_nr : Z) (line : list ascii) (f : file_state) (k : list ascii) (v : Z) :
  let env := check_end line (check_begin line (count_env f) allowed) allowed in
  env !! k = Some v → 0 < v →
  (∀ m : gmap (list ascii) Z,
      is_inside_env m = true ↔ ∃ k v, m !! k = Some v ∧ 0 < v)
  ∧ process_line allowed methods iter_long line_nr line f
    = Ok (mk_file env (last_line f)
            (mk_stats
               (<[lit "environment blocks skipped" :=
                    dd_val 0 (counters (stats f)) (lit "environment blocks skipped") + 1]>
                  (counters (stats f)))
               (annotation_distribution (stats f)))
            (written f ++ [line]))
  ∧ (∀ f' : file_state,
      is_inside_env (check_end line (check_begin line (count_env f') allowed) allowed) = false →
      process_line allowed methods iter_long line_nr line f'
      = bind (annotate_loop methods line_nr (iter_long line)
                (mk_loop line 0 (stats f') (last_line f')))
          (λ s, Ok (mk_file
                      (check_end line (check_begin line (count_env f') allowed) allowed)
                      (last_line_of s) (stats_of s) (written f' ++ [line_of s])))).
Proof.
  intros env Hk Hv. split; [apply is_inside_env_spec |]. split.
  - unfold process_line. fold env.
    assert (is_inside_env env = true) as ->; [| done].
    apply is_inside_env_spec. eauto.
  - intros f' Hf'. unfold process_line. by rewrite Hf'.
Qed.

Lemma excluded_line_is_copied_witness :
  let f := mk_file ∅ ∅ stats0 [] in
  let line := ln "\begin{figure} a graph here" in
  process_line [lit "sloppypar"] None
    (reference_matcher [(lit "graph", lit "graph")]) 0 line f
  = Ok (mk_file {[ lit "figure" := 1 ]} ∅
          (mk_stats {[ lit "environment blocks skipped" := 1 ]} ∅) [line]).
Proof.
  intros f line.
  pose proof (excluded_line_is_copied [lit "sloppypar"] None
                (reference_matcher [(lit "graph", lit "graph")]) 0 line f
                (lit "figure") 1) as H.
  destruct H as (_ & H & _); [vm_compute; reflexivity | lia |].
  rewrite H. vm_compute. reflexivity.
Defined.

(** ** The loop body, case by case *)

Section LoopBody.

Variables (methods : option (list method)) (line_nr : Z).
Variables (s : loop_state) (end_index : Z) (mtch concept : list ascii).

Let start_index := end_index - len mtch + 1.
Let last_line_nr := dd_val (-1) (last_line_of s) concept.

Lemma annotate_at_invalid :
  invalid_match (line_of s) start_index end_index concept = true →
  annotate_at methods line_nr s end_index mtch concept
  = Ok (mk_loop (line_of s) (total_annotation_length s)
          (bump "invalid matches" (stats_of s)) (last_line_of s)).
Proof. intros H. unfold annotate_at. fold start_index. by rewrite H. Qed.

Lemma annotate_at_raises :
  invalid_match (line_of s) start_index end_index concept = false →
  word_boundaries (line_of s) end_index mtch = IndexError →
  annotate_at methods line_nr s end_index mtch concept = IndexError.
Proof.
  intros H Hb. unfold annotate_at. fold start_index. rewrite H, Hb.
  by destruct (dd_get 0 _ concept).
Qed.

Lemma annotate_at_skipped :
  invalid_match (line_of s) start_index end_index concept = false →
  word_boundaries (line_of s) end_index mtch = Ok false →
  ∃ s', annotate_at methods line_nr s end_index mtch concept = Ok s'
        ∧ same_values s s'.
Proof.
  intros H Hb. unfold annotate_at. fold start_index. rewrite H, Hb.
  pose proof (dd_get_same 0 (annotation_distribution (stats_of s)) concept) as Hd.
  destruct (dd_get 0 _ concept) as [freq d]. simpl in *.
  eexists. split; [done |]. by repeat split.
Qed.

(** The state a skipped match leaves: the only trace is the concept's
    entry in the frequency distribution, stored with the default 0 by the
    read of [concept_freq] when it was missing. *)
Lemma annotate_at_skipped_state :
  invalid_match (line_of s) start_index end_index concept = false →
  word_boundaries (line_of s) end_index mtch = Ok false →
  annotate_at methods line_nr s end_index mtch concept
  = Ok (mk_loop (line_of s) (total_annotation_length s)
          (mk_stats (counters (stats_of s))
             (dd_get 0 (annotation_distribution (stats_of s)) concept).2)
          (last_line_of s)).
Proof.
  intros H Hb. unfold annotate_at. fold start_index. rewrite H, Hb.
  by destruct (dd_get 0 _ concept) as [freq d].
Qed.

Lemma annotate_at_throttled :
  invalid_match (line_of s) start_index end_index concept = false →
  word_boundaries (line_of s) end_index mtch = Ok true →
  can_annotate methods last_line_nr line_nr concept = false →
  ∃ s', annotate_at methods line_nr s end_index mtch concept = Ok s'
        ∧ same_values s s'.
Proof.
  intros H Hb Hc. unfold annotate_at. fold start_index. rewrite H, Hb.
  pose proof (dd_get_same 0 (annotation_distribution (stats_of s)) concept) as Hd.
  pose proof (dd_get_same (-1) (last_line_of s) concept) as Hl.
  pose proof (dd_get_val (-1) (last_line_of s) concept) as Hv.
  destruct (dd_get 0 _ concept) as [freq d].
  destruct (dd_get (-1) _ concept) as [nr l]. simpl in *.
  subst nr. fold last_line_nr. rewrite Hc.
  eexists. split; [done |]. by repeat split.
Qed.

Lemma annotate_at_annotated :
  invalid_match (line_of s) start_index end_index concept = false →
  word_boundaries (line_of s) end_index mtch = Ok true →
  can_annotate methods last_line_nr line_nr concept = true →
  ∃ s', annotate_at methods line_nr s end_index mtch concept = Ok s'
    ∧ line_of s' = insert_annotation (line_of s) end_index concept
    ∧ total_annotation_length s'
      = total_annotation_length s + len (annotation concept)
    ∧ counters (stats_of s')
      = dd_add 0 (counters (stats_of s)) (lit "indexed matches") 1
    ∧ (∀ k, dd_val 0 (annotation_distribution (stats_of s')) k
            = dd_val 0 (annotation_distribution (stats_of s)) k
              + (if bool_decide (k = concept) then 1 else 0))
    ∧ (∀ k, dd_val (-1) (last_line_of s') k
            = if bool_decide (k = concept) then line_nr
              else dd_val (-1) (last_line_of s) k).
Proof.
  intros H Hb Hc. unfold annotate_at. fold start_index. rewrite H, Hb.
  pose proof (dd_get_same 0 (annotation_distribution (stats_of s)) concept) as Hd.
  pose proof (dd_get_same (-1) (last_line_of s) concept) as Hl.
  pose proof (dd_get_val (-1) (last_line_of s) concept) as Hv.
  destruct (dd_get 0 _ concept) as [freq d].
  destruct (dd_get (-1) _ concept) as [nr l]. simpl in *.
  subst nr. fold last_line_nr. rewrite Hc.
  eexists. split; [done |]. simpl. repeat split; try done.
  - intros k. case_bool_decide as Hk.
    + subst k. by rewrite dd_add_val, Hd.
    + unfold dd_val at 1. rewrite dd_add_other by done.
      rewrite <- Hd. unfold dd_val. lia.
  - intros k. unfold dd_val at 1. case_bool_decide as Hk.
    + subst k. by rewrite lookup_insert_eq.
    + rewrite lookup_insert_ne by done. apply Hl.
Qed.

End LoopBody.

Lemma len_annotation concept : len (annotation concept) = len concept + 8.
Proof.
  unfold annotation. rewrite !len_app. unfold len at 1 3. simpl. lia.
Qed.

(** ** The validator *)

(** C5.  For a match spanning [start_index, end_index], the argument check
    for a pair of delimiters holds exactly when the prefix before
    [start_index] has more opening than closing delimiters and the suffix
    after [end_index] has fewer; the loop body applies it with braces and,
    independently, with brackets, and either one rejects the match as
    invalid. *)
Theorem inside_argument_rule
    (line : list ascii) (start_index end_index : Z) (open_char close_char : ascii) :
  0 ≤ start_index → 0 ≤ end_index + 1 →
  (is_inside_command line start_index end_index open_char close_char = true
   ↔ 0 < count open_char (take (Z.to_nat start_index) line)
         - count close_char (take (Z.to_nat start_index) line)
     ∧ count open_char (drop (Z.to_nat (end_index + 1)) line)
       - count close_char (drop (Z.to_nat (end_index + 1)) line) < 0)
  ∧ ∀ methods line_nr (s : loop_state) (mtch concept : list ascii),
      line_of s = line → start_index = end_index - len mtch + 1 →
      is_inside_command line start_index end_index "{" "}" = true
      ∨ is_inside_command line start_index end_index "[" "]" = true →
      annotate_at methods line_nr s end_index mtch concept
      = Ok (mk_loop line (total_annotation_length s)
              (bump "invalid matches" (stats_of s)) (last_line_of s)).
Proof.
  intros Hs He. split.
  - unfold is_inside_command.
    rewrite slice_to, slice_from by done.
    rewrite andb_true_iff, !Z.ltb_lt. done.
  - intros methods line_nr s mtch concept <- -> Hin.
    apply annotate_at_invalid. unfold invalid_match.
    destruct Hin as [-> | ->]; by rewrite ?orb_true_r.
Qed.

Lemma inside_argument_rule_witness :
  let s := mk_loop (ln "\emph{a graph} b") 0 stats0 ∅ in
  annotate_at None 0 s 12 (lit "graph") (lit "graph")
  = Ok (mk_loop (ln "\emph{a graph} b") 0
          (mk_stats {[ lit "invalid matches" := 1 ]} ∅) ∅).
Proof.
  intros s.
  destruct (inside_argument_rule (ln "\emph{a graph} b") 8 12 "{" "}")
    as [_ H]; [lia | lia |].
  rewrite (H None 0 s (lit "graph") (lit "graph"));
    [vm_compute; reflexivity | reflexivity | vm_compute; reflexivity |].
  left. vm_compute. reflexivity.
Defined.

(** C8.  A match the validator rejects (its concept contains a slash or
    [et al], it lies in a brace or bracket argument, or it is the tail of a
    command name) adds one to the invalid-matches statistic and leaves the
    line and everything else as it was.  A match the validator accepts that
    has a word character right after its end or right before its start
    changes no value at all: not the line, not an integer statistic, not a
    frequency (a concept not yet in the distribution is stored there with
    frequency 0, which is what it read as before). *)
Theorem rejected_matches_and_statistics
    (methods : option (list method)) (line_nr : Z) (s : loop_state)
    (end_index : Z) (mtch concept : list ascii) :
  let line := line_of s in
  let start_index := end_index - len mtch + 1 in
  (is_invalid_concept concept = true
   ∨ is_inside_command line start_index end_index "{" "}" = true
   ∨ is_inside_command line start_index end_index "[" "]" = true
   ∨ is_part_of_command line end_index = true →
   ∃ s', annotate_at methods line_nr s end_index mtch concept = Ok s'
     ∧ line_of s' = line
     ∧ total_annotation_length s' = total_annotation_length s
     ∧ last_line_of s' = last_line_of s
     ∧ annotation_distribution (stats_of s') = annotation_distribution (stats_of s)
     ∧ dd_val 0 (counters (stats_of s')) (lit "invalid matches")
       = dd_val 0 (counters (stats_of s)) (lit "invalid matches") + 1
     ∧ ∀ name, name ≠ lit "invalid matches" →
               counters (stats_of s') !! name = counters (stats_of s) !! name)
  ∧ (∀ after before : ascii,
       invalid_match line start_index end_index concept = false →
       index line (end_index + 1) = Some after →
       index line (end_index - len mtch) = Some before →
       Re.is_word_char after = true ∨ Re.is_word_char before = true →
       ∃ s', annotate_at methods line_nr s end_index mtch concept = Ok s'
             ∧ same_values s s'
             ∧ stats_of s'
               = mk_stats (counters (stats_of s))
                   (dd_get 0 (annotation_distribution (stats_of s)) concept).2).
Proof.
  intros line start_index. split.
  - intros Hrej. eexists. split.
    + apply annotate_at_invalid. fold line start_index. unfold invalid_match.
      destruct Hrej as [-> | [-> | [-> | ->]]]; by rewrite ?orb_true_r.
    + simpl. repeat split; try done.
      * apply dd_add_val.
      * intros name Hname. by apply dd_add_other.
  - intros after before Hvalid Hafter Hbefore Hword.
    assert (word_boundaries line end_index mtch = Ok false) as Hb.
    { unfold word_boundaries, Re.non_word. rewrite Hafter, Hbefore.
      destruct (Re.is_word_char after); [done |]. simpl.
      destruct Hword as [? | ->]; done. }
    destruct (annotate_at_skipped methods line_nr s end_index mtch concept
                Hvalid Hb) as (s' & Hs' & Hsame).
    exists s'. do 2 (split; [done |]).
    rewrite (annotate_at_skipped_state methods line_nr s end_index mtch concept
               Hvalid Hb) in Hs'.
    by injection Hs' as <-.
Qed.

Lemma rejected_matches_and_statistics_witness :
  (∃ s', annotate_at None 0 (mk_loop (ln "a \graph b") 0 stats0 ∅) 7
           (lit "graph") (lit "graph") = Ok s'
         ∧ dd_val 0 (counters (stats_of s')) (lit "invalid matches") = 1
         ∧ line_of s' = ln "a \graph b")
  ∧ (∃ s', annotate_at None 0 (mk_loop (ln "a graphs b") 0 stats0 ∅) 6
             (lit "graph") (lit "graph") = Ok s'
           ∧ same_values (mk_loop (ln "a graphs b") 0 stats0 ∅) s').
Proof.
  split.
  - destruct (rejected_matches_and_statistics None 0
                (mk_loop (ln "a \graph b") 0 stats0 ∅) 7 (lit "graph") (lit "graph"))
      as [H _].
    destruct H as (s' & Hs' & Hl & _ & _ & _ & Hc & _).
    + right. right. right. vm_compute. reflexivity.
    + exists s'. split; [exact Hs' |]. split; [| exact Hl].
      rewrite Hc. vm_compute. reflexivity.
  - destruct (rejected_matches_and_statistics None 0
                (mk_loop (ln "a graphs b") 0 stats0 ∅) 6 (lit "graph") (lit "graph"))
      as [_ H].
    destruct (H "s"%char " "%char) as (s' & Hs' & Hsame & _);
      [vm_compute; reflexivity .. | | by exists s'].
    left. vm_compute. reflexivity.
Defined.

(** ** The boundary check *)

Lemma index_last_of_line {A} (body : list A) (a : A) :
  index (body ++ [a]) (len body) = Some a.
Proof.
  rewrite index_nonneg by apply len_nonneg. unfold len. rewrite Nat2Z.id.
  by rewrite lookup_app_r, Nat.sub_diag.
Qed.

Lemma index_Some_range {A} (l : list A) (i : Z) (a : A) :
  0 ≤ i → index l i = Some a → i < len l.
Proof.
  intros Hi H. destruct (Z.lt_ge_cases i (len l)) as [|Hge]; [done |].
  by rewrite index_past_end in H.
Qed.

(** C9.  The loop body is not total.  A match the validator accepts whose
    corrected end is the last character of the line makes the boundary
    check read one position past the end, and the body raises instead of
    skipping the match.  On a line that ends with a newline, a match that
    starts in the line and whose last character is not that newline is
    followed by a character, and the body returns. *)
Theorem boundary_check_reads_past_the_end
    (methods : option (list method)) (line_nr : Z) (s : loop_state)
    (end_index : Z) (mtch concept : list ascii) :
  let line := line_of s in
  let start_index := end_index - len mtch + 1 in
  (invalid_match line start_index end_index concept = false →
   end_index + 1 = len line →
   index line (end_index + 1) = None
   ∧ annotate_at methods line_nr s end_index mtch concept = IndexError)
  ∧ (∀ (body : list ascii) (c : ascii),
       line = body ++ [Re.newline] →
       0 ≤ start_index →
       index line end_index = Some c → c ≠ Re.newline →
       is_Some (index line (end_index + 1))
       ∧ ∃ s', annotate_at methods line_nr s end_index mtch concept = Ok s').
Proof.
  intros line start_index. split.
  - intros Hvalid Hend.
    assert (index line (end_index + 1) = None) as Hnone
      by (apply index_past_end; lia).
    split; [done |]. apply annotate_at_raises; [done |].
    fold line. unfold word_boundaries. by rewrite Hnone.
  - intros body c Hline Hstart Hc Hnl.
    pose proof (len_nonneg mtch) as Hm.
    assert (0 ≤ end_index) as He.
    { destruct (Z.le_gt_cases 0 end_index) as [|Hneg]; [done |].
      assert (end_index = -1) as -> by (subst start_index; lia).
      rewrite index_minus_one, Hline, last_snoc in Hc. congruence. }
    pose proof (index_Some_range _ _ _ He Hc) as Hlt.
    assert (len line = len body + 1) as Hlen
      by (rewrite Hline, len_app; unfold len; simpl; lia).
    assert (end_index ≠ len body) as Hne.
    { intros ->. rewrite Hline, index_last_of_line in Hc. congruence. }
    assert (is_Some (index line (end_index + 1))) as [after Hafter]
      by (apply index_in_range; lia).
    split; [by exists after |].
    assert (is_Some (index line (end_index - len mtch))) as [before Hbefore].
    { destruct (Z.le_gt_cases 0 (end_index - len mtch)) as [|Hneg].
      - apply index_in_range. lia.
      - assert (end_index - len mtch = -1) as -> by (subst start_index; lia).
        rewrite index_minus_one, Hline, last_snoc. by eexists. }
    destruct (invalid_match line start_index end_index concept) eqn:Hinv.
    + eexists. by apply annotate_at_invalid.
    + assert (∃ b, word_boundaries line end_index mtch = Ok b) as [b Hb].
      { unfold word_boundaries. rewrite Hafter, Hbefore.
        destruct (Re.non_word after); by eexists. }
      destruct b.
      * destruct (can_annotate methods (dd_val (-1) (last_line_of s) concept)
                    line_nr concept) eqn:Hcan.
        -- destruct (annotate_at_annotated methods line_nr s end_index mtch concept
                       Hinv Hb Hcan) as (s' & Hs' & _). by exists s'.
        -- destruct (annotate_at_throttled methods line_nr s end_index mtch concept
                       Hinv Hb Hcan) as (s' & Hs' & _). by exists s'.
      * destruct (annotate_at_skipped methods line_nr s end_index mtch concept
                    Hinv Hb) as (s' & Hs' & _). by exists s'.
Qed.

Lemma boundary_check_reads_past_the_end_witness :
  annotate_at None 0 (mk_loop (lit "a graph") 0 stats0 ∅) 6
    (lit "graph") (lit "graph") = IndexError
  ∧ ∃ s', annotate_at None 0 (mk_loop (ln "a graph") 0 stats0 ∅) 6
            (lit "graph") (lit "graph") = Ok s'.
Proof.
  split.
  - destruct (boundary_check_reads_past_the_end None 0
                (mk_loop (lit "a graph") 0 stats0 ∅) 6 (lit "graph") (lit "graph"))
      as [H _].
    apply H; vm_compute; reflexivity.
  - destruct (boundary_check_reads_past_the_end None 0
                (mk_loop (ln "a graph") 0 stats0 ∅) 6 (lit "graph") (lit "graph"))
      as [_ H].
    destruct (H (lit "a graph") "h"%char) as [_ Hs'];
      [reflexivity | vm_compute; discriminate | vm_compute; reflexivity
      | vm_compute; discriminate | exact Hs'].
Defined.

(** C10.  For a match the validator accepts that starts at column 0, the
    character before the match is read at index -1, which is the last
    character of the line: the match is annotated exactly when the
    character after it and the last character of the line are both
    non-word characters and the throttle accepts it. *)
Theorem match_at_column_zero
    (methods : option (list method)) (line_nr : Z) (s : loop_state)
    (end_index : Z) (mtch concept : list ascii) (after : ascii) :
  let line := line_of s in
  let start_index := end_index - len mtch + 1 in
  start_index = 0 →
  invalid_match line start_index end_index concept = false →
  index line (end_index + 1) = Some after →
  end_index - len mtch = -1
  ∧ ∃ final s',
      last line = Some final
      ∧ index line (end_index - len mtch) = Some final
      ∧ annotate_at methods line_nr s end_index mtch concept = Ok s'
      ∧ let accepted :=
          Re.non_word after && Re.non_word final
          && can_annotate methods (dd_val (-1) (last_line_of s) concept)
               line_nr concept in
        (accepted = true →
           line_of s' = insert_annotation line end_index concept
           ∧ total_annotation_length s'
             = total_annotation_length s + len (annotation concept))
        ∧ (accepted = false → same_values s s').
Proof.
  intros line start_index Hstart Hvalid Hafter.
  assert (end_index - len mtch = -1) as Hm1 by (subst start_index; lia).
  split; [done |].
  assert (is_Some (last line)) as [final Hfinal].
  { destruct line as [|a l] using rev_ind.
    - by rewrite index_past_end in Hafter by (pose proof (len_nonneg mtch); unfold len in *; simpl; lia).
    - rewrite last_snoc. by eexists. }
  assert (index line (end_index - len mtch) = Some final) as Hbefore
    by (by rewrite Hm1, index_minus_one).
  assert (word_boundaries line end_index mtch
          = Ok (Re.non_word after && Re.non_word final)) as Hb.
  { unfold word_boundaries. rewrite Hafter, Hbefore.
    by destruct (Re.non_word after). }
  exists final.
  destruct (Re.non_word after && Re.non_word final) eqn:Hw.
  - destruct (can_annotate methods (dd_val (-1) (last_line_of s) concept)
                line_nr concept) eqn:Hcan.
    + destruct (annotate_at_annotated methods line_nr s end_index mtch concept
                  Hvalid Hb Hcan) as (s' & Hs' & Hl & Ht & _).
      exists s'. do 3 (split; [done |]). by split.
    + destruct (annotate_at_throttled methods line_nr s end_index mtch concept
                  Hvalid Hb Hcan) as (s' & Hs' & Hsame).
      exists s'. do 3 (split; [done |]). by split.
  - destruct (annotate_at_skipped methods line_nr s end_index mtch concept
                Hvalid Hb) as (s' & Hs' & Hsame).
    exists s'. do 3 (split; [done |]). by split.
Qed.

Lemma match_at_column_zero_witness :
  (∃ s', annotate_at None 0 (mk_loop (lit "graph is ok") 0 stats0 ∅) 4
           (lit "graph") (lit "graph") = Ok s'
         ∧ line_of s' = lit "graph is ok")
  ∧ (∃ s', annotate_at None 0 (mk_loop (ln "graph is ok") 0 stats0 ∅) 4
             (lit "graph") (lit "graph") = Ok s'
           ∧ line_of s' = ln "graph\index{graph} is ok").
Proof.
  split.
  - destruct (match_at_column_zero None 0 (mk_loop (lit "graph is ok") 0 stats0 ∅) 4
                (lit "graph") (lit "graph") " "%char)
      as (_ & final & s' & Hfinal & _ & Hs' & _ & Hskip);
      [vm_compute; reflexivity .. |].
    exists s'. split; [exact Hs' |].
    injection Hfinal as <-. apply Hskip. vm_compute. reflexivity.
  - destruct (match_at_column_zero None 0 (mk_loop (ln "graph is ok") 0 stats0 ∅) 4
                (lit "graph") (lit "graph") " "%char)
      as (_ & final & s' & Hfinal & _ & Hs' & Hann & _);
      [vm_compute; reflexivity .. |].
    exists s'. split; [exact Hs' |].
    injection Hfinal as <-.
    destruct Hann as [-> _]; vm_compute; reflexivity.
Defined.

(** ** Outcomes of one iteration *)

Lemma slice_split {A} (l : list A) (k : Z) :
  slice l (Some 0) (Some k) ++ slice l (Some k) None = l.
Proof.
  unfold slice, bound. change (0 <? 0) with false. cbv iota.
  pose proof (len_nonneg l) as Hn.
  rewrite (Z.min_l 0 (len l)) by done.
  set (b := if k <? 0 then 0 `max` (k + len l) else k `min` len l).
  assert (0 ≤ b ≤ len l) as Hb by (subst b; destruct (Z.ltb_spec k 0); lia).
  rewrite Z.sub_0_r. change (Z.to_nat 0) with 0%nat. rewrite drop_0.
  rewrite (firstn_all2 (drop _ _)); [apply firstn_skipn |].
  rewrite length_skipn. unfold len in *. lia.
Qed.

Lemma len_insert_annotation line end_index concept :
  len (insert_annotation line end_index concept)
  = len line + len (annotation concept).
Proof.
  unfold insert_annotation. rewrite !len_app.
  rewrite <- (slice_split line (end_index + 1)) at 3. rewrite len_app. lia.
Qed.

Lemma insert_annotation_changes line end_index concept :
  insert_annotation line end_index concept ≠ line.
Proof.
  intros H. pose proof (len_insert_annotation line end_index concept) as Hl.
  rewrite H, len_annotation in Hl. pose proof (len_nonneg concept). lia.
Qed.

(** An iteration that returns either leaves the line, the accumulated
    length and every [last_line] value alone, or it inserts the marker at
    the corrected offset, after the validator, the boundary check and the
    throttle have all accepted the match. *)
Lemma annotate_at_outcome methods line_nr s end_index mtch concept s' :
  annotate_at methods line_nr s end_index mtch concept = Ok s' →
  (line_of s' = line_of s
   ∧ total_annotation_length s' = total_annotation_length s
   ∧ ∀ k, dd_val (-1) (last_line_of s') k = dd_val (-1) (last_line_of s) k)
  ∨ (invalid_match (line_of s) (end_index - len mtch + 1) end_index concept = false
     ∧ word_boundaries (line_of s) end_index mtch = Ok true
     ∧ can_annotate methods (dd_val (-1) (last_line_of s) concept) line_nr concept = true
     ∧ line_of s' = insert_annotation (line_of s) end_index concept
     ∧ total_annotation_length s'
       = total_annotation_length s + len (annotation concept)
     ∧ ∀ k, dd_val (-1) (last_line_of s') k
            = if bool_decide (k = concept) then line_nr
              else dd_val (-1) (last_line_of s) k).
Proof.
  intros Hs'.
  destruct (invalid_match (line_of s) (end_index - len mtch + 1) end_index concept)
    eqn:Hinv.
  { rewrite annotate_at_invalid in Hs' by done. injection Hs' as <-. by left. }
  destruct (word_boundaries (line_of s) end_index mtch) as [[] |] eqn:Hb.
  - destruct (can_annotate methods (dd_val (-1) (last_line_of s) concept)
                line_nr concept) eqn:Hcan.
    + destruct (annotate_at_annotated methods line_nr s end_index mtch concept
                  Hinv Hb Hcan) as (s1 & Hs1 & Hl & Ht & _ & _ & Hll).
      right. rewrite Hs1 in Hs'. injection Hs' as <-. done.
    + destruct (annotate_at_throttled methods line_nr s end_index mtch concept
                  Hinv Hb Hcan) as (s1 & Hs1 & Hl & Ht & _ & _ & Hll).
      left. rewrite Hs1 in Hs'. injection Hs' as <-. done.
  - destruct (annotate_at_skipped methods line_nr s end_index mtch concept
                Hinv Hb) as (s1 & Hs1 & Hl & Ht & _ & _ & Hll).
    left. rewrite Hs1 in Hs'. injection Hs' as <-. done.
  - by rewrite annotate_at_raises in Hs'.
Qed.

(** When the boundary check of the source returns, it returns whether both
    boundary characters are non-word characters. *)
Lemma both_boundaries_read line end_index mtch b :
  word_boundaries line end_index mtch = Ok b →
  both_boundaries line end_index mtch = b.
Proof.
  unfold word_boundaries, both_boundaries.
  destruct (index line (end_index + 1)) as [after|]; [| done].
  destruct (Re.non_word after) eqn:Ha.
  - destruct (index line (end_index - len mtch)) as [before|]; [| done].
    by intros [= <-].
  - intros [= <-]. by destruct (index line (end_index - len mtch)).
Qed.

(** The three ways an iteration returns, with what each one does to the
    state: the validator rejects the match; the validator accepts it and the
    boundary check or the throttle refuses it; all three accept it. *)
Lemma annotate_at_decided methods line_nr s end_index mtch concept s' :
  annotate_at methods line_nr s end_index mtch concept = Ok s' →
  (invalid_match (line_of s) (end_index - len mtch + 1) end_index concept = true
   ∧ s' = mk_loop (line_of s) (total_annotation_length s)
            (bump "invalid matches" (stats_of s)) (last_line_of s))
  ∨ (invalid_match (line_of s) (end_index - len mtch + 1) end_index concept = false
     ∧ both_boundaries (line_of s) end_index mtch
       && can_annotate methods (dd_val (-1) (last_line_of s) concept) line_nr concept
       = false
     ∧ same_values s s')
  ∨ (invalid_match (line_of s) (end_index - len mtch + 1) end_index concept = false
     ∧ both_boundaries (line_of s) end_index mtch = true
     ∧ can_annotate methods (dd_val (-1) (last_line_of s) concept) line_nr concept = true
     ∧ line_of s' = insert_annotation (line_of s) end_index concept
     ∧ total_annotation_length s'
       = total_annotation_length s + len (annotation concept)
     ∧ counters (stats_of s')
       = dd_add 0 (counters (stats_of s)) (lit "indexed matches") 1
     ∧ (∀ k, dd_val 0 (annotation_distribution (stats_of s')) k
             = dd_val 0 (annotation_distribution (stats_of s)) k
               + (if bool_decide (k = concept) then 1 else 0))
     ∧ (∀ k, dd_val (-1) (last_line_of s') k
             = if bool_decide (k = concept) then line_nr
               else dd_val (-1) (last_line_of s) k)).
Proof.
  intros Hs'.
  destruct (invalid_match (line_of s) (end_index - len mtch + 1) end_index concept)
    eqn:Hinv.
  { rewrite annotate_at_invalid in Hs' by done. injection Hs' as <-. by left. }
  right.
  destruct (word_boundaries (line_of s) end_index mtch) as [[] |] eqn:Hb.
  - rewrite (both_boundaries_read _ _ _ _ Hb).
    destruct (can_annotate methods (dd_val (-1) (last_line_of s) concept)
                line_nr concept) eqn:Hcan.
    + destruct (annotate_at_annotated methods line_nr s end_index mtch concept
                  Hinv Hb Hcan) as (s1 & Hs1 & Hrest).
      right. rewrite Hs1 in Hs'. injection Hs' as <-. done.
    + destruct (annotate_at_throttled methods line_nr s end_index mtch concept
                  Hinv Hb Hcan) as (s1 & Hs1 & Hsame).
      left. rewrite Hs1 in Hs'. injection Hs' as <-. done.
  - rewrite (both_boundaries_read _ _ _ _ Hb).
    destruct (annotate_at_skipped methods line_nr s end_index mtch concept
                Hinv Hb) as (s1 & Hs1 & Hsame).
    left. rewrite Hs1 in Hs'. injection Hs' as <-. done.
  - by rewrite annotate_at_raises in Hs'.
Qed.

(** ** The throttle *)

Lemma can_annotate_dist (ms : list method) (last_line_nr line_nr : Z) concept :
  dist ∈ ms → (stop ∈ ms → concept ∉ THESIS_STOPWORDS) →
  can_annotate (Some ms) last_line_nr line_nr concept = true
  ↔ last_line_nr = -1 ∨ last_line_nr + 200 < line_nr.
Proof.
  intros Hd Hs. unfold can_annotate, DISTANCE.
  rewrite (bool_decide_eq_true_2 _ Hd). simpl.
  assert ((if bool_decide (stop ∈ ms)
           then ((last_line_nr =? -1) || (last_line_nr + 200 <? line_nr))
                && bool_decide (concept ∉ THESIS_STOPWORDS)
           else (last_line_nr =? -1) || (last_line_nr + 200 <? line_nr))
          = (last_line_nr =? -1) || (last_line_nr + 200 <? line_nr)) as ->.
  { case_bool_decide as Hstop; [| done].
    rewrite (bool_decide_eq_true_2 _ (Hs Hstop)). apply andb_true_r. }
  rewrite orb_true_iff, Z.eqb_eq, Z.ltb_lt. done.
Qed.

Lemma can_annotate_stop (ms : list method) (last_line_nr line_nr : Z) concept :
  stop ∈ ms → concept ∈ THESIS_STOPWORDS →
  can_annotate (Some ms) last_line_nr line_nr concept = false.
Proof.
  intros Hs Hc. unfold can_annotate.
  rewrite (bool_decide_eq_true_2 _ Hs).
  rewrite (bool_decide_eq_false_2 (concept ∉ THESIS_STOPWORDS)) by tauto.
  apply andb_false_r.
Qed.

(** What an accepted match tells about the concept under each policy. *)
Lemma can_annotate_accepted (ms : list method) (last_line_nr line_nr : Z) concept :
  can_annotate (Some ms) last_line_nr line_nr concept = true →
  (dist ∈ ms → last_line_nr = -1 ∨ last_line_nr + 200 < line_nr)
  ∧ (stop ∈ ms → concept ∉ THESIS_STOPWORDS).
Proof.
  intros Hcan. split.
  - intros Hd. unfold can_annotate, DISTANCE in Hcan.
    rewrite (bool_decide_eq_true_2 _ Hd) in Hcan. simpl in Hcan.
    assert ((last_line_nr =? -1) || (last_line_nr + 200 <? line_nr) = true) as H.
    { destruct (bool_decide (stop ∈ ms)); [| done].
      by apply andb_true_iff in Hcan as [? _]. }
    apply orb_true_iff in H. rewrite Z.eqb_eq, Z.ltb_lt in H. done.
  - intros Hs Hc. by rewrite can_annotate_stop in Hcan.
Qed.

(** C6.  With the distance policy selected (and the stopword policy, when
    it is selected too, not excluding the concept), a match that passed the
    validator and the boundary check is annotated exactly when the concept
    has no last-annotated line yet (it reads -1) or the current line number
    is more than 200 above it.  The last-annotated line becomes the current
    line on an annotation and is left alone by every iteration that inserts
    nothing.  A concept on lines 10 and 150 of a file is annotated on line
    10 only; on lines 10 and 215 it is annotated on both. *)
Theorem distance_policy
    (ms : list method) (line_nr : Z) (s : loop_state) (end_index : Z)
    (mtch concept : list ascii) :
  let line := line_of s in
  let last_line_nr := dd_val (-1) (last_line_of s) concept in
  dist ∈ ms → (stop ∈ ms → concept ∉ THESIS_STOPWORDS) →
  invalid_match line (end_index - len mtch + 1) end_index concept = false →
  word_boundaries line end_index mtch = Ok true →
  (∃ s', annotate_at (Some ms) line_nr s end_index mtch concept = Ok s'
     ∧ (line_of s' = insert_annotation line end_index concept
        ↔ last_line_nr = -1 ∨ last_line_nr + 200 < line_nr)
     ∧ (last_line_nr = -1 ∨ last_line_nr + 200 < line_nr →
        dd_val (-1) (last_line_of s') concept = line_nr)
     ∧ (¬ (last_line_nr = -1 ∨ last_line_nr + 200 < line_nr) → same_values s s'))
  ∧ (∀ methods nr s1 e m c s1',
       annotate_at methods nr s1 e m c = Ok s1' →
       line_of s1' = line_of s1 →
       ∀ k, dd_val (-1) (last_line_of s1') k = dd_val (-1) (last_line_of s1) k)
  ∧ output_of (process_file [lit "sloppypar"] (Some [dist])
                 (reference_matcher [(lit "graph", lit "graph")])
                 (two_mentions 139 mention mention) stats0)
    = Some (two_mentions 139 mention mention_indexed)
  ∧ output_of (process_file [lit "sloppypar"] (Some [dist])
                 (reference_matcher [(lit "graph", lit "graph")])
                 (two_mentions 204 mention mention) stats0)
    = Some (two_mentions 204 mention_indexed mention_indexed).
Proof.
  intros line last_line_nr Hd Hs Hinv Hb.
  pose proof (can_annotate_dist ms last_line_nr line_nr concept Hd Hs) as Hcan.
  split; [| split; [| split; vm_compute; reflexivity]].
  - destruct (can_annotate (Some ms) last_line_nr line_nr concept) eqn:E.
    + destruct (annotate_at_annotated (Some ms) line_nr s end_index mtch concept
                  Hinv Hb E) as (s' & Hs' & Hl & _ & _ & _ & Hll).
      exists s'. split; [done |]. split; [| split].
      * split; [intros _; by apply Hcan | done].
      * intros _. rewrite Hll. by rewrite bool_decide_eq_true_2.
      * intros Hno. destruct Hno. by apply Hcan.
    + destruct (annotate_at_throttled (Some ms) line_nr s end_index mtch concept
                  Hinv Hb E) as (s' & Hs' & Hsame).
      exists s'. split; [done |]. split; [| split].
      * split.
        -- intros Hline. destruct Hsame as (Hl & _). rewrite Hl in Hline.
           by destruct (insert_annotation_changes line end_index concept).
        -- intros Hyes. apply Hcan in Hyes. congruence.
      * intros Hyes. apply Hcan in Hyes. congruence.
      * done.
  - intros methods nr s1 e m c s1' Hs1' Hline k.
    destruct (annotate_at_outcome _ _ _ _ _ _ _ Hs1')
      as [(_ & _ & Hll) | (_ & _ & _ & Hl & _)]; [done |].
    rewrite Hl in Hline.
    by destruct (insert_annotation_changes (line_of s1) e c).
Qed.

Lemma distance_policy_witness :
  let s := mk_loop mention 0 stats0 {[ lit "graph" := 10 ]} in
  (∃ s', annotate_at (Some [dist]) 150 s 6 (lit "graph") (lit "graph") = Ok s'
         ∧ same_values s s')
  ∧ (∃ s', annotate_at (Some [dist]) 215 s 6 (lit "graph") (lit "graph") = Ok s'
           ∧ line_of s' = mention_indexed
           ∧ dd_val (-1) (last_line_of s') (lit "graph") = 215).
Proof.
  intros s. split.
  - destruct (distance_policy [dist] 150 s 6 (lit "graph") (lit "graph"))
      as [(s' & Hs' & _ & _ & Hsame) _];
      [by constructor | by intros ?%list_elem_of_singleton | vm_compute; reflexivity .. |].
    exists s'. split; [exact Hs' |]. apply Hsame. vm_compute. intros [? | ?]; discriminate.
  - destruct (distance_policy [dist] 215 s 6 (lit "graph") (lit "graph"))
      as [(s' & Hs' & Hline & Hlast & _) _];
      [by constructor | by intros ?%list_elem_of_singleton | vm_compute; reflexivity .. |].
    exists s'. split; [exact Hs' |]. split.
    + rewrite (proj2 Hline); [vm_compute; reflexivity |].
      right. vm_compute. reflexivity.
    + apply Hlast. right. vm_compute. reflexivity.
Defined.

(** ** The stopword policy over a run *)

Lemma longest_at_row table line e row :
  longest_at table line e = Some row → row ∈ table.
Proof.
  unfold longest_at.
  assert (∀ best, (∀ r, best = Some r → r ∈ table) →
          ∀ rows, rows ⊆ table →
          foldl (λ best row,
                   if ends_at line row.1 e then
                     match best with
                     | Some b => if len b.1 <=? len row.1 then Some row else best
                     | None => Some row
                     end
                   else best) best rows = Some row → row ∈ table) as H.
  { intros best Hbest rows. revert best Hbest.
    induction rows as [|r rows IH]; intros best Hbest Hsub; simpl.
    - apply Hbest.
    - apply IH; [| set_solver].
      intros r'. assert (r ∈ table) by set_solver.
      destruct (ends_at line r.1 e); [| apply Hbest].
      destruct best as [b|]; [| by intros [= <-]].
      destruct (len b.1 <=? len r.1); [by intros [= <-] | apply Hbest]. }
  by apply H.
Qed.

Lemma reference_matcher_rows table line m :
  m ∈ reference_matcher table line → m.2 ∈ table.
Proof.
  unfold reference_matcher. rewrite list_elem_of_omap.
  intros (e & _ & He).
  destruct (longest_at table line (Z.of_nat e)) as [row|] eqn:Hrow; [| done].
  simpl in He. injection He as <-. by apply longest_at_row in Hrow.
Qed.

Section Stopwords.

Variables (allowed : list (list ascii)) (ms : list method).
Variable iter_long : list ascii → list match_t.
Hypothesis stop_selected : stop ∈ ms.
Hypothesis only_stopwords :
  ∀ line, Forall (λ m : match_t, m.2.2 ∈ THESIS_STOPWORDS) (iter_long line).

Lemma annotate_loop_stopwords line_nr (matches : list match_t) s s' :
  Forall (λ m : match_t, m.2.2 ∈ THESIS_STOPWORDS) matches →
  annotate_loop (Some ms) line_nr matches s = Ok s' →
  line_of s' = line_of s.
Proof.
  intros Hall. revert s. induction Hall as [|[e [m c]] matches Hc _ IH];
    intros s; simpl.
  - by intros [= <-].
  - destruct (annotate_at (Some ms) line_nr s (e + total_annotation_length s) m c)
      as [s1|] eqn:Hs1; [| done].
    simpl. intros Hs'. rewrite (IH _ Hs').
    destruct (annotate_at_outcome _ _ _ _ _ _ _ Hs1)
      as [(Hl & _) | (_ & _ & Hcan & _)]; [done |].
    by rewrite can_annotate_stop in Hcan.
Qed.

Lemma process_lines_stopwords lines : ∀ line_nr f f',
  process_lines allowed (Some ms) iter_long line_nr lines f = Ok f' →
  written f' = written f ++ lines.
Proof.
  induction lines as [|line lines IH]; intros line_nr f f'; simpl.
  - intros [= <-]. by rewrite app_nil_r.
  - destruct (process_line allowed (Some ms) iter_long line_nr line f)
      as [f1|] eqn:Hf1; [| done].
    simpl. intros Hf'. rewrite (IH _ _ _ Hf').
    assert (written f1 = written f ++ [line]) as ->;
      [| by rewrite <- app_assoc].
    unfold process_line in Hf1.
    destruct (is_inside_env _); [by injection Hf1 as <- |].
    destruct (annotate_loop _ _ _ _) as [s1|] eqn:Hs1; [| done].
    simpl in Hf1. injection Hf1 as <-. simpl.
    by rewrite (annotate_loop_stopwords _ _ _ _ (only_stopwords line) Hs1).
Qed.

Lemma process_files_stopwords files : ∀ st outs st',
  process_files allowed (Some ms) iter_long files st = Ok (outs, st') →
  outs = files.
Proof.
  induction files as [|lines files IH]; intros st outs st'; simpl.
  - by intros [= <- _].
  - unfold process_file.
    destruct (process_lines _ _ _ _ _ _) as [f1|] eqn:Hf1; [| done].
    simpl.
    destruct (process_files _ _ _ files (stats f1)) as [[outs1 st1]|] eqn:Hrest;
      [| done].
    simpl. intros [= <- _].
    apply process_lines_stopwords in Hf1. simpl in Hf1.
    by rewrite Hf1, (IH _ _ _ Hrest).
Qed.

End Stopwords.

(** ** Markers of admitted concepts only *)

Lemma marked_trans P l1 l2 l3 : marked P l1 l2 → marked P l2 l3 → marked P l1 l3.
Proof.
  induction 1 as [| pre post c l2 Hc _ IH]; [done |].
  intros H3. by apply (marked_one P pre post c), IH.
Qed.

Lemma marked_insert (P : list ascii → Prop) line end_index concept :
  P concept → marked P line (insert_annotation line end_index concept).
Proof.
  intros Hc. unfold insert_annotation.
  assert (∀ pre post l, l = pre ++ post →
            marked P l (pre ++ annotation concept ++ post)) as H.
  { intros pre post l ->. apply (marked_one P pre post concept); [done |].
    apply marked_none. }
  apply H. symmetry. apply slice_split.
Qed.

Section StopwordRun.

Variables (allowed : list (list ascii)) (ms : list method).
Variable iter_long : list ascii → list match_t.
Hypothesis stop_selected : stop ∈ ms.

(** An iteration on a stopword concept inserts nothing and counts no
    annotation. *)
Lemma annotate_at_stopword line_nr s end_index mtch concept s' :
  concept ∈ THESIS_STOPWORDS →
  annotate_at (Some ms) line_nr s end_index mtch concept = Ok s' →
  line_of s' = line_of s
  ∧ total_annotation_length s' = total_annotation_length s
  ∧ dd_val 0 (counters (stats_of s')) (lit "indexed matches")
    = dd_val 0 (counters (stats_of s)) (lit "indexed matches")
  ∧ (∀ k, dd_val 0 (annotation_distribution (stats_of s')) k
          = dd_val 0 (annotation_distribution (stats_of s)) k)
  ∧ (∀ k, dd_val (-1) (last_line_of s') k = dd_val (-1) (last_line_of s) k).
Proof.
  intros Hc Hs'.
  destruct (annotate_at_decided _ _ _ _ _ _ _ Hs')
    as [(_ & ->) | [(_ & _ & Hl & Ht & Hcnt & Hd & Hll)
                   | (_ & _ & Hcan & _)]].
  - cbn [line_of total_annotation_length stats_of last_line_of].
    do 2 (split; [done |]). split; [| done].
    unfold bump, dd_val. cbn [counters]. by rewrite dd_add_other.
  - do 2 (split; [done |]). split; [by rewrite Hcnt | done].
  - by rewrite can_annotate_stop in Hcan.
Qed.

(** An iteration on any concept inserts at most the marker of a concept
    that is not a stopword, and leaves the frequency of every stopword as
    it was. *)
Lemma annotate_at_marked line_nr s end_index mtch concept s' :
  annotate_at (Some ms) line_nr s end_index mtch concept = Ok s' →
  marked (λ c, c ∉ THESIS_STOPWORDS) (line_of s) (line_of s')
  ∧ ∀ k, k ∈ THESIS_STOPWORDS →
         dd_val 0 (annotation_distribution (stats_of s')) k
         = dd_val 0 (annotation_distribution (stats_of s)) k.
Proof.
  intros Hs'.
  destruct (annotate_at_decided _ _ _ _ _ _ _ Hs')
    as [(_ & ->) | [(_ & _ & Hl & _ & _ & Hd & _)
                   | (_ & _ & Hcan & Hl & _ & _ & Hd & _)]].
  - split; [apply marked_none | done].
  - rewrite Hl. split; [apply marked_none | intros k _; apply Hd].
  - apply can_annotate_accepted in Hcan as [_ Hstop].
    specialize (Hstop stop_selected). rewrite Hl. split.
    + by apply marked_insert.
    + intros k Hk. rewrite Hd.
      rewrite bool_decide_eq_false_2; [lia | by intros ->].
Qed.

Lemma annotate_loop_marked line_nr (matches : list match_t) : ∀ s s',
  annotate_loop (Some ms) line_nr matches s = Ok s' →
  marked (λ c, c ∉ THESIS_STOPWORDS) (line_of s) (line_of s')
  ∧ ∀ k, k ∈ THESIS_STOPWORDS →
         dd_val 0 (annotation_distribution (stats_of s')) k
         = dd_val 0 (annotation_distribution (stats_of s)) k.
Proof.
  induction matches as [|[e [m c]] matches IH]; intros s s';
    cbn [annotate_loop]; unfold annotate_step.
  - intros [= <-]. split; [apply marked_none | done].
  - destruct (annotate_at (Some ms) line_nr s _ m c) as [s1|] eqn:Hs1; [| done].
    cbn [bind]. intros Hs'.
    destruct (annotate_at_marked _ _ _ _ _ _ Hs1) as (H1 & K1).
    destruct (IH _ _ Hs') as (H2 & K2). split.
    + by apply (marked_trans _ _ (line_of s1)).
    + intros k Hk. by rewrite K2, K1.
Qed.

Lemma process_lines_marked lines : ∀ line_nr f f',
  process_lines allowed (Some ms) iter_long line_nr lines f = Ok f' →
  (∃ outs, written f' = written f ++ outs
           ∧ Forall2 (marked (λ c, c ∉ THESIS_STOPWORDS)) lines outs)
  ∧ ∀ k, k ∈ THESIS_STOPWORDS →
         dd_val 0 (annotation_distribution (stats f')) k
         = dd_val 0 (annotation_distribution (stats f)) k.
Proof.
  induction lines as [|line lines IH]; intros line_nr f f'; cbn [process_lines].
  - intros [= <-]. split; [| done]. exists []. by rewrite app_nil_r.
  - destruct (process_line allowed (Some ms) iter_long line_nr line f)
      as [f1|] eqn:Hf1; [| done].
    cbn [bind]. intros Hf'.
    destruct (IH _ _ _ Hf') as ((outs & Hw & Hall) & K2).
    assert ((∃ out, written f1 = written f ++ [out]
                    ∧ marked (λ c, c ∉ THESIS_STOPWORDS) line out)
            ∧ ∀ k, k ∈ THESIS_STOPWORDS →
                   dd_val 0 (annotation_distribution (stats f1)) k
                   = dd_val 0 (annotation_distribution (stats f)) k)
      as ((out & Hw1 & Hout) & K1).
    { unfold process_line in Hf1. destruct (is_inside_env _).
      - injection Hf1 as <-. cbn [written stats]. split; [| done].
        exists line. split; [done | apply marked_none].
      - destruct (annotate_loop _ _ _ _) as [s1|] eqn:Hs1; [| done].
        cbn [bind] in Hf1. injection Hf1 as <-. cbn [written stats].
        apply annotate_loop_marked in Hs1 as (H1 & K1). split; [| done].
        by exists (line_of s1). }
    split.
    + exists (out :: outs). rewrite Hw, Hw1, <- app_assoc. split; [done |].
      by constructor.
    + intros k Hk. by rewrite K2, K1.
Qed.

Lemma process_files_marked files : ∀ st outs st',
  process_files allowed (Some ms) iter_long files st = Ok (outs, st') →
  Forall2 (Forall2 (marked (λ c, c ∉ THESIS_STOPWORDS))) files outs
  ∧ ∀ k, k ∈ THESIS_STOPWORDS →
         dd_val 0 (annotation_distribution st') k
         = dd_val 0 (annotation_distribution st) k.
Proof.
  induction files as [|lines files IH]; intros st outs st';
    cbn [process_files].
  - intros [= <- <-]. split; [constructor | done].
  - unfold process_file.
    destruct (process_lines _ _ _ _ _ _) as [f1|] eqn:Hf1; [| done].
    cbn [bind].
    destruct (process_files _ _ _ files (stats f1)) as [[outs1 st1]|] eqn:Hrest;
      [| done].
    cbn [bind]. intros [= <- <-].
    apply process_lines_marked in Hf1 as ((out & Hw & Hall) & K1).
    destruct (IH _ _ _ Hrest) as (Hrun & K2).
    cbn [written stats app] in Hw, K1. rewrite Hw. split.
    + by constructor.
    + intros k Hk. by rewrite K2, K1.
Qed.

End StopwordRun.

(** C7.  With the stopword policy selected, whatever the matcher reports,
    a concept of the exclusion set is never annotated anywhere in a run.
    The throttle refuses every such concept.  An iteration of the loop on
    such a concept leaves the line, the accumulated length, the count of
    indexed matches, every frequency and every last-annotated line as they
    were.  In a run that returns, every line written is the line read with
    markers inserted for concepts outside the exclusion set only, the
    frequency of every concept of the exclusion set is what it was before
    the run, and when the matcher reports only concepts of the exclusion
    set every file is written as it was read.  For the two-line fixture
    with the single row (hypergraph, hypergraph), the default allow-list
    and the stopword policy, the run returns and its output is the input:
    the only trace is the concept's entry in the frequency distribution,
    with frequency 0. *)
Theorem stopword_policy
    (allowed : list (list ascii)) (ms : list method)
    (iter_long : list ascii → list match_t) :
  stop ∈ ms →
  (∀ last_line_nr line_nr concept,
      concept ∈ THESIS_STOPWORDS →
      can_annotate (Some ms) last_line_nr line_nr concept = false)
  ∧ (∀ line_nr s end_index mtch concept s',
       concept ∈ THESIS_STOPWORDS →
       annotate_at (Some ms) line_nr s end_index mtch concept = Ok s' →
       line_of s' = line_of s
       ∧ total_annotation_length s' = total_annotation_length s
       ∧ dd_val 0 (counters (stats_of s')) (lit "indexed matches")
         = dd_val 0 (counters (stats_of s)) (lit "indexed matches")
       ∧ (∀ k, dd_val 0 (annotation_distribution (stats_of s')) k
               = dd_val 0 (annotation_distribution (stats_of s)) k)
       ∧ (∀ k, dd_val (-1) (last_line_of s') k
               = dd_val (-1) (last_line_of s) k))
  ∧ (∀ files st outs st',
       process_files allowed (Some ms) iter_long files st = Ok (outs, st') →
       Forall2 (Forall2 (marked (λ c, c ∉ THESIS_STOPWORDS))) files outs
       ∧ (∀ concept, concept ∈ THESIS_STOPWORDS →
            dd_val 0 (annotation_distribution st') concept
            = dd_val 0 (annotation_distribution st) concept)
       ∧ ((∀ line, Forall (λ m : match_t, m.2.2 ∈ THESIS_STOPWORDS)
                     (iter_long line)) →
          outs = files))
  ∧ lit "hypergraph" ∈ THESIS_STOPWORDS
  ∧ process_file [lit "sloppypar"] (Some [stop])
      (reference_matcher [(lit "hypergraph", lit "hypergraph")])
      hypergraph_fixture stats0
    = Ok (hypergraph_fixture,
          mk_stats {[ lit "edited files" := 1 ]} {[ lit "hypergraph" := 0 ]}).
Proof.
  intros Hstop. split; [| split; [| split; [| split]]].
  - intros last_line_nr line_nr concept Hc. by apply can_annotate_stop.
  - intros line_nr s end_index mtch concept s'.
    by apply annotate_at_stopword.
  - intros files st outs st' Hrun.
    destruct (process_files_marked allowed ms iter_long Hstop _ _ _ _ Hrun)
      as (Hmarked & Hfreq).
    do 2 (split; [done |]). intros Honly.
    by apply (process_files_stopwords allowed ms iter_long Hstop Honly
                files st outs st').
  - vm_compute. reflexivity.
  - vm_compute. reflexivity.
Qed.

Lemma stopword_policy_witness :
  can_annotate (Some [stop]) (-1) 0 (lit "hypergraph") = false
  ∧ match process_files [lit "sloppypar"] (Some [stop])
            (reference_matcher [(lit "hypergraph", lit "hypergraph");
                                (lit "model", lit "model");
                                (lit "extend", lit "extension")])
            [hypergraph_fixture; hypergraph_fixture] stats0 with
    | Ok (outs, st') =>
        Forall2 (Forall2 (marked (λ c, c ∉ THESIS_STOPWORDS)))
          [hypergraph_fixture; hypergraph_fixture] outs
        ∧ dd_val 0 (annotation_distribution st') (lit "hypergraph") = 0
        ∧ dd_val 0 (annotation_distribution st') (lit "model") = 0
        ∧ dd_val 0 (annotation_distribution st') (lit "extension") = 2
    | IndexError => False
    end.
Proof.
  destruct (stopword_policy [lit "sloppypar"] [stop]
              (reference_matcher [(lit "hypergraph", lit "hypergraph");
                                  (lit "model", lit "model");
                                  (lit "extend", lit "extension")]))
    as (Hcan & _ & Hrun & Hin & _); [by constructor |].
  split; [by apply Hcan |].
  destruct (process_files _ _ _ _ _) as [[outs st']|] eqn:Hfiles.
  - destruct (Hrun _ _ _ _ Hfiles) as (Hmarked & Hfreq & _).
    split; [exact Hmarked |].
    split; [by rewrite Hfreq |].
    split; [rewrite Hfreq; [reflexivity | vm_compute; reflexivity] |].
    vm_compute in Hfiles. injection Hfiles as _ <-. vm_compute. reflexivity.
  - vm_compute in Hfiles. discriminate.
Defined.

(** ** Which delimiter the tracker sees *)

Lemma strip_prefix_Some p s r : Re.strip_prefix p s = Some r ↔ s = p ++ r.
Proof.
  revert s. induction p as [|a p IH]; intros s; simpl.
  - split; [by intros [= ->] | by intros ->].
  - destruct s as [|b s]; [done |].
    case_bool_decide as Hab.
    + subst b. rewrite IH. split; [by intros -> | by intros [= ->]].
    + split; [done | intros [= ? _]; congruence].
Qed.

Lemma lazy_group_Some s g :
  Re.lazy_group s = Some g
  ↔ ∃ post, s = g ++ (Re.close_brace :: post) ∧ (Re.newline ∉ g) ∧ (Re.close_brace ∉ g).
Proof.
  revert g. induction s as [|c s IH]; intros g; simpl.
  - split; [done | intros (post & H & _); by destruct g].
  - case_bool_decide as Hc; [| case_bool_decide as Hn].
    + subst c. split.
      * intros [= <-]. exists s. repeat split; apply not_elem_of_nil.
      * intros (post & H & _ & Hg). destruct g as [|c g]; [done |].
        injection H as <- _. destruct Hg. by left.
    + subst c. split; [done |].
      intros (post & H & Hg & _). destruct g as [|c g]; [by injection H |].
      injection H as <- _. destruct Hg. by left.
    + destruct (Re.lazy_group s) as [g1|]; simpl.
      * split.
        -- intros [= <-]. destruct (proj1 (IH g1) eq_refl) as (post & -> & H1 & H2).
           exists post. split; [done |].
           rewrite !not_elem_of_cons. by repeat split.
        -- intros (post & H & H1 & H2). destruct g as [|c' g]; [by injection H |].
           injection H as <- H. f_equal.
           rewrite not_elem_of_cons in H1, H2.
           assert (Some g1 = Some g) as [= ->]; [| done].
           apply IH. exists post. by repeat split; try apply H1; try apply H2.
      * split; [done |].
        intros (post & H & H1 & H2). destruct g as [|c' g]; [by injection H |].
        injection H as <- H. rewrite not_elem_of_cons in H1, H2.
        assert (None = Some g) as Hno; [| done].
        apply IH. exists post. by repeat split; try apply H1; try apply H2.
Qed.

(** A closing brace on the same line is enough for the lazy group. *)
Lemma lazy_group_closed g post :
  (Re.newline ∉ g) → is_Some (Re.lazy_group (g ++ (Re.close_brace :: post))).
Proof.
  induction g as [|c g IH]; intros Hg; simpl.
  - by eexists.
  - rewrite not_elem_of_cons in Hg. destruct Hg as [Hc Hg].
    case_bool_decide; [by eexists |].
    rewrite bool_decide_eq_false_2 by done.
    destruct (IH Hg) as [g1 ->]. by eexists.
Qed.

Lemma delimiter_here_None kw s :
  Re.delimiter_here kw s = None → ¬ closed_delimiter_at kw s [].
Proof.
  unfold Re.delimiter_here. intros H (g & post & Hs & _ & Hg). simpl in Hs.
  rewrite (proj2 (strip_prefix_Some kw s _) Hs) in H. simpl in H.
  destruct (lazy_group_closed g post Hg) as [g1 Hg1]. congruence.
Qed.

Lemma delimiter_here_Some kw s g :
  Re.delimiter_here kw s = Some g →
  ∃ post, s = kw ++ g ++ (Re.close_brace :: post) ∧ (Re.newline ∉ g) ∧ (Re.close_brace ∉ g).
Proof.
  unfold Re.delimiter_here. intros H.
  destruct (Re.strip_prefix kw s) as [r|] eqn:Hr; [| done]. simpl in H.
  apply strip_prefix_Some in Hr. apply lazy_group_Some in H.
  destruct H as (post & -> & H1 & H2). by exists post.
Qed.

Lemma delimiter_last kw s :
  match Re.delimiter kw s with
  | Some g =>
      ∃ pre post,
        s = pre ++ kw ++ g ++ (Re.close_brace :: post)
        ∧ (Re.newline ∉ pre) ∧ (Re.newline ∉ g) ∧ (Re.close_brace ∉ g)
        ∧ ∀ pre', closed_delimiter_at kw s pre' → (length pre' ≤ length pre)%nat
  | None => ∀ pre', ¬ closed_delimiter_at kw s pre'
  end.
Proof.
  assert (∀ s g, Re.delimiter_here kw s = Some g →
            (∀ pre', closed_delimiter_at kw s pre' → pre' = []) →
            ∃ pre post,
              s = pre ++ kw ++ g ++ (Re.close_brace :: post)
              ∧ (Re.newline ∉ pre) ∧ (Re.newline ∉ g) ∧ (Re.close_brace ∉ g)
              ∧ ∀ pre', closed_delimiter_at kw s pre' →
                        (length pre' ≤ length pre)%nat) as Hhere.
  { intros s0 g Hg Hfirst. destruct (delimiter_here_Some _ _ _ Hg) as (post & -> & H1 & H2).
    exists [], post. repeat split; try done; [apply not_elem_of_nil |].
    intros pre' Hpre'. by rewrite (Hfirst pre' Hpre'). }
  assert (∀ s, Re.delimiter_here kw s = None →
            (∀ pre', closed_delimiter_at kw s pre' → pre' = []) →
            ∀ pre', ¬ closed_delimiter_at kw s pre') as Hnone.
  { intros s0 Hno Hfirst pre' Hpre'. pose proof (Hfirst pre' Hpre') as ->.
    by apply (delimiter_here_None kw s0). }
  induction s as [|c s IH]; simpl.
  - assert (∀ pre', closed_delimiter_at kw [] pre' → pre' = []) as Hfirst.
    { intros pre' (g & post & H & _). by destruct pre'. }
    destruct (Re.delimiter_here kw []) eqn:E; [by apply Hhere | by apply Hnone].
  - case_bool_decide as Hc.
    + subst c.
      assert (∀ pre', closed_delimiter_at kw (Re.newline :: s) pre' → pre' = [])
        as Hfirst.
      { intros pre' (g & post & H & Hnl & _). destruct pre' as [|c pre']; [done |].
        injection H as <- _. destruct Hnl. by left. }
      destruct (Re.delimiter_here kw (Re.newline :: s)) eqn:E;
        [by apply Hhere | by apply Hnone].
    + assert (∀ pre', closed_delimiter_at kw (c :: s) pre' →
                pre' = [] ∨ ∃ pre1, pre' = c :: pre1 ∧ closed_delimiter_at kw s pre1)
        as Hsplit.
      { intros pre' (g & post & H & Hnl & Hg). destruct pre' as [|c' pre1]; [by left |].
        right. injection H as <- H. exists pre1. split; [done |].
        exists g, post. rewrite not_elem_of_cons in Hnl. by repeat split; try apply Hnl. }
      destruct (Re.delimiter kw s) as [g|].
      * destruct IH as (pre & post & -> & H1 & H2 & H3 & Hmax).
        exists (c :: pre), post. repeat split; try done.
        -- rewrite not_elem_of_cons. split; [congruence | done].
        -- intros pre' Hpre'. destruct (Hsplit pre' Hpre') as [-> | (pre1 & -> & Hpre1)].
           ++ simpl. lia.
           ++ simpl. pose proof (Hmax pre1 Hpre1). lia.
      * assert (∀ pre', closed_delimiter_at kw (c :: s) pre' → pre' = []) as Hfirst.
        { intros pre' Hpre'. destruct (Hsplit pre' Hpre') as [-> | (pre1 & -> & Hpre1)];
            [done | by destruct (IH pre1)]. }
        destruct (Re.delimiter_here kw (c :: s)) eqn:E;
          [by apply Hhere | by apply Hnone].
Qed.

(** On a line with two delimiters the first one is not the one counted:
    the counter that changes is that of the last. *)
Lemma first_delimiter_counterexample :
  let opening := ln "\begin{figure}\begin{center}" in
  let closing := ln "\end{center}\end{figure}" in
  first_delimiter begin_kw opening = Some (lit "figure")
  ∧ check_begin opening ∅ [lit "sloppypar"] = {[ lit "center" := 1 ]}
  ∧ check_begin opening ∅ [lit "sloppypar"] !! lit "figure" = None
  ∧ first_delimiter end_kw closing = Some (lit "center")
  ∧ check_end closing ∅ [lit "sloppypar"] = {[ lit "figure" := -1 ]}
  ∧ check_end closing ∅ [lit "sloppypar"] !! lit "center" = None.
Proof. vm_compute. repeat split; reflexivity. Qed.

Lemma check_changes_one (kw line : pystr) (n : Z)
    (cnt : gmap (list ascii) Z) (allowed : list (list ascii)) (k : list ascii) :
  let cnt' :=
    match Re.delimiter kw line with
    | Some g => if bool_decide (g ∈ allowed) then cnt else dd_add 0 cnt g n
    | None => cnt
    end in
  cnt' !! k ≠ cnt !! k →
  Re.delimiter kw line = Some k ∧ (k ∉ allowed)
  ∧ cnt' !! k = Some (dd_val 0 cnt k + n).
Proof.
  intros cnt'. subst cnt'. destruct (Re.delimiter kw line) as [g|]; [| done].
  case_bool_decide as Hg; [done |].
  destruct (decide (g = k)) as [-> | Hne].
  - intros _. unfold dd_add. by rewrite lookup_insert_eq.
  - by rewrite dd_add_other.
Qed.

(** C3, amended.  A call of the tracker changes at most one counter, by
    one, and only for a name outside the allow-list.  The delimiter it
    sees is the last one of the line, not the first: among the offsets
    where the keyword starts after no newline and has its brace closed
    before the next newline, the rightmost; the name runs to the first
    closing brace after the keyword.  With no such offset no counter
    changes. *)
Theorem tracker_sees_last_delimiter
    (line : list ascii) (cnt : gmap (list ascii) Z) (allowed : list (list ascii)) :
  (∀ k, check_begin line cnt allowed !! k ≠ cnt !! k →
        Re.delimiter begin_kw line = Some k ∧ (k ∉ allowed)
        ∧ check_begin line cnt allowed !! k = Some (dd_val 0 cnt k + 1))
  ∧ (∀ k, check_end line cnt allowed !! k ≠ cnt !! k →
          Re.delimiter end_kw line = Some k ∧ (k ∉ allowed)
          ∧ check_end line cnt allowed !! k = Some (dd_val 0 cnt k + -1))
  ∧ (∀ g, Re.delimiter begin_kw line = Some g → g ∉ allowed →
          check_begin line cnt allowed = <[g := dd_val 0 cnt g + 1]> cnt)
  ∧ (∀ g, Re.delimiter end_kw line = Some g → g ∉ allowed →
          check_end line cnt allowed = <[g := dd_val 0 cnt g + -1]> cnt)
  ∧ ∀ kw,
      match Re.delimiter kw line with
      | Some g =>
          ∃ pre post,
            line = pre ++ kw ++ g ++ (Re.close_brace :: post)
            ∧ (Re.newline ∉ pre) ∧ (Re.newline ∉ g) ∧ (Re.close_brace ∉ g)
            ∧ ∀ pre', closed_delimiter_at kw line pre' →
                      (length pre' ≤ length pre)%nat
      | None => ∀ pre', ¬ closed_delimiter_at kw line pre'
      end.
Proof.
  split; [| split; [| split; [| split]]].
  - intros k. apply (check_changes_one begin_kw line 1).
  - intros k. apply (check_changes_one end_kw line (-1)).
  - intros g Hg Hallowed. unfold check_begin. rewrite Hg.
    by rewrite bool_decide_eq_false_2.
  - intros g Hg Hallowed. unfold check_end. rewrite Hg.
    by rewrite bool_decide_eq_false_2.
  - intros kw. apply delimiter_last.
Qed.

(** ** What a file inherits from the files before it *)

Lemma annotate_at_same_text methods line_nr s1 s2 end_index mtch concept :
  same_text s1 s2 →
  same_result same_text
    (annotate_at methods line_nr s1 end_index mtch concept)
    (annotate_at methods line_nr s2 end_index mtch concept).
Proof.
  destruct s1 as [l1 t1 st1 ll1], s2 as [l2 t2 st2 ll2].
  intros (Hl & Ht & Hll). simpl in *. subst l2 t2 ll2.
  unfold annotate_at. simpl.
  destruct (invalid_match _ _ _ _); [done |].
  destruct (dd_get 0 (annotation_distribution st1) concept) as [q1 d1].
  destruct (dd_get 0 (annotation_distribution st2) concept) as [q2 d2].
  destruct (word_boundaries l1 end_index mtch) as [[] |]; simpl; try done.
  destruct (dd_get (-1) ll1 concept) as [nr ll].
  by destruct (can_annotate methods nr line_nr concept).
Qed.

Lemma annotate_loop_same_text methods line_nr (matches : list match_t) :
  ∀ s1 s2, same_text s1 s2 →
  same_result same_text
    (annotate_loop methods line_nr matches s1)
    (annotate_loop methods line_nr matches s2).
Proof.
  induction matches as [|[e [m c]] matches IH]; intros s1 s2 Hs; simpl; [done |].
  pose proof Hs as (_ & Ht & _). rewrite Ht.
  pose proof (annotate_at_same_text methods line_nr s1 s2
                (e + total_annotation_length s2) m c Hs) as H.
  destruct (annotate_at methods line_nr s1 _ m c) as [a1|],
           (annotate_at methods line_nr s2 _ m c) as [a2|]; simpl in *; try done.
  by apply IH.
Qed.

Section Inheritance.

Variables (allowed : list (list ascii)) (methods : option (list method)).
Variable iter_long : list ascii → list match_t.

Lemma process_line_same_file line_nr line f1 f2 :
  same_file f1 f2 →
  same_result same_file
    (process_line allowed methods iter_long line_nr line f1)
    (process_line allowed methods iter_long line_nr line f2).
Proof.
  intros (Hc & Hl & Hw). unfold process_line. rewrite Hc, Hw.
  destruct (is_inside_env _); [done |].
  pose proof (annotate_loop_same_text methods line_nr (iter_long line)
                (mk_loop line 0 (stats f1) (last_line f1))
                (mk_loop line 0 (stats f2) (last_line f2))) as H.
  destruct (annotate_loop _ _ _ (mk_loop line 0 (stats f1) _)) as [a1|],
           (annotate_loop _ _ _ (mk_loop line 0 (stats f2) _)) as [a2|];
    simpl in *; try (by apply H).
  destruct H as (H1 & _ & H3); [done |]. unfold same_file. simpl.
  by rewrite H1, H3.
Qed.

Lemma process_lines_same_file lines : ∀ line_nr f1 f2,
  same_file f1 f2 →
  same_result same_file
    (process_lines allowed methods iter_long line_nr lines f1)
    (process_lines allowed methods iter_long line_nr lines f2).
Proof.
  induction lines as [|line lines IH]; intros line_nr f1 f2 Hf; simpl; [done |].
  pose proof (process_line_same_file line_nr line f1 f2 Hf) as H.
  destruct (process_line _ _ _ _ _ f1) as [a1|],
           (process_line _ _ _ _ _ f2) as [a2|]; simpl in *; try done.
  by apply IH.
Qed.

(** What is written for a file does not depend on the statistics the
    file starts with, hence not on the files before it. *)
Lemma process_file_output lines st1 st2 :
  output_of (process_file allowed methods iter_long lines st1)
  = output_of (process_file allowed methods iter_long lines st2).
Proof.
  unfold process_file.
  pose proof (process_lines_same_file lines 0
                (mk_file ∅ ∅ (bump "edited files" st1) [])
                (mk_file ∅ ∅ (bump "edited files" st2) [])) as H.
  destruct (process_lines _ _ _ _ _ (mk_file ∅ ∅ (bump "edited files" st1) []))
    as [a1|],
    (process_lines _ _ _ _ _ (mk_file ∅ ∅ (bump "edited files" st2) []))
    as [a2|]; simpl in *; try (by destruct H).
  destruct H as (_ & _ & ->); done.
Qed.

End Inheritance.

(** ** Statistics only grow *)

Lemma grown_refl st : grown st st.
Proof. by repeat split. Qed.

Lemma grown_trans st1 st2 st3 : grown st1 st2 → grown st2 st3 → grown st1 st3.
Proof.
  intros (H1 & H2 & H3) (K1 & K2 & K3). repeat split.
  - intros name. specialize (H1 name). specialize (K1 name). lia.
  - intros c. specialize (H2 c). specialize (K2 c). lia.
  - congruence.
Qed.

Lemma dd_add_one_le d k k' : dd_val 0 d k' ≤ dd_val 0 (dd_add 0 d k 1) k'.
Proof.
  destruct (decide (k = k')) as [-> | Hne].
  - rewrite dd_add_val. lia.
  - unfold dd_val at 2. by rewrite dd_add_other.
Qed.

Lemma dd_add_one_other d k k' :
  k ≠ k' → dd_val 0 (dd_add 0 d k 1) k' = dd_val 0 d k'.
Proof. intros. unfold dd_val at 1. by rewrite dd_add_other. Qed.

Lemma grown_bump name st :
  lit name ≠ lit "edited files" → grown st (bump name st).
Proof.
  intros Hne. repeat split; simpl; try done.
  - intros k. apply dd_add_one_le.
  - by apply dd_add_one_other.
Qed.

Lemma annotate_at_grown methods line_nr s end_index mtch concept s' :
  annotate_at methods line_nr s end_index mtch concept = Ok s' →
  grown (stats_of s) (stats_of s').
Proof.
  intros Hs'.
  destruct (invalid_match (line_of s) (end_index - len mtch + 1) end_index concept)
    eqn:Hinv.
  { rewrite annotate_at_invalid in Hs' by done. injection Hs' as <-.
    by apply grown_bump. }
  assert (∀ s1, same_values s s1 → grown (stats_of s) (stats_of s1)) as Hsame.
  { intros s1 (_ & _ & Hc & Hd & _). repeat split.
    - intros name. rewrite Hc. lia.
    - intros c. rewrite Hd. lia.
    - by rewrite Hc. }
  destruct (word_boundaries (line_of s) end_index mtch) as [[] |] eqn:Hb.
  - destruct (can_annotate methods (dd_val (-1) (last_line_of s) concept)
                line_nr concept) eqn:Hcan.
    + destruct (annotate_at_annotated methods line_nr s end_index mtch concept
                  Hinv Hb Hcan) as (s1 & Hs1 & _ & _ & Hc & Hd & _).
      rewrite Hs1 in Hs'. injection Hs' as <-. repeat split.
      * intros name. rewrite Hc. apply dd_add_one_le.
      * intros c. rewrite Hd. case_bool_decide; lia.
      * rewrite Hc. by apply dd_add_one_other.
    + destruct (annotate_at_throttled methods line_nr s end_index mtch concept
                  Hinv Hb Hcan) as (s1 & Hs1 & Hv).
      rewrite Hs1 in Hs'. injection Hs' as <-. by apply Hsame.
  - destruct (annotate_at_skipped methods line_nr s end_index mtch concept
                Hinv Hb) as (s1 & Hs1 & Hv).
    rewrite Hs1 in Hs'. injection Hs' as <-. by apply Hsame.
  - by rewrite annotate_at_raises in Hs'.
Qed.

Lemma annotate_loop_grown methods line_nr (matches : list match_t) : ∀ s s',
  annotate_loop methods line_nr matches s = Ok s' →
  grown (stats_of s) (stats_of s').
Proof.
  induction matches as [|[e [m c]] matches IH]; intros s s'; simpl.
  - intros [= <-]. apply grown_refl.
  - destruct (annotate_at methods line_nr s _ m c) as [s1|] eqn:Hs1; [| done].
    simpl. intros Hs'. eapply grown_trans; [by eapply annotate_at_grown | by apply IH].
Qed.

Section Accumulation.

Variables (allowed : list (list ascii)) (methods : option (list method)).
Variable iter_long : list ascii → list match_t.

Lemma process_lines_grown lines : ∀ line_nr f f',
  process_lines allowed methods iter_long line_nr lines f = Ok f' →
  grown (stats f) (stats f').
Proof.
  induction lines as [|line lines IH]; intros line_nr f f'; simpl.
  - intros [= <-]. apply grown_refl.
  - destruct (process_line allowed methods iter_long line_nr line f)
      as [f1|] eqn:Hf1; [| done].
    simpl. intros Hf'. eapply grown_trans; [| by eapply IH].
    unfold process_line in Hf1. destruct (is_inside_env _).
    + injection Hf1 as <-. by apply grown_bump.
    + destruct (annotate_loop _ _ _ _) as [s1|] eqn:Hs1; [| done].
      simpl in Hf1. injection Hf1 as <-.
      by apply annotate_loop_grown in Hs1.
Qed.

Lemma process_file_grown lines st out st' :
  process_file allowed methods iter_long lines st = Ok (out, st') →
  (∀ name, dd_val 0 (counters st) name ≤ dd_val 0 (counters st') name)
  ∧ (∀ c, dd_val 0 (annotation_distribution st) c
          ≤ dd_val 0 (annotation_distribution st') c)
  ∧ dd_val 0 (counters st') (lit "edited files")
    = dd_val 0 (counters st) (lit "edited files") + 1.
Proof.
  unfold process_file.
  destruct (process_lines _ _ _ _ _ _) as [f1|] eqn:Hf1; [| done].
  simpl. intros [= <- <-]. apply process_lines_grown in Hf1.
  destruct Hf1 as (H1 & H2 & H3). simpl in *. repeat split.
  - intros name. etrans; [| apply H1]. apply dd_add_one_le.
  - done.
  - rewrite H3. apply dd_add_val.
Qed.

End Accumulation.

(** After a second file the integer statistics still count the first
    file: they differ from what the second file alone gives. *)
Lemma statistics_not_reset_counterexample :
  let run := process_files [lit "sloppypar"] None
               (reference_matcher [(lit "graph", lit "graph")]) in
  let first := [ln "a graph b"] in
  let second := [ln "nothing to index"] in
  run [first; second] stats0
  = Ok ([[ln "a graph\index{graph} b"]; second],
        mk_stats {[ lit "edited files" := 2; lit "indexed matches" := 1 ]}
                 {[ lit "graph" := 1 ]})
  ∧ run [second] stats0
    = Ok ([second], mk_stats {[ lit "edited files" := 1 ]} ∅)
  ∧ ∀ out2 st2 out12 st12,
      run [second] stats0 = Ok (out2, st2) →
      run [first; second] stats0 = Ok (out12, st12) →
      dd_val 0 (counters st12) (lit "indexed matches")
      ≠ dd_val 0 (counters st2) (lit "indexed matches")
      ∧ dd_val 0 (counters st12) (lit "edited files")
        ≠ dd_val 0 (counters st2) (lit "edited files").
Proof.
  intros run first second.
  assert (run [first; second] stats0
          = Ok ([[ln "a graph\index{graph} b"]; second],
                mk_stats {[ lit "edited files" := 2; lit "indexed matches" := 1 ]}
                         {[ lit "graph" := 1 ]})) as H12
    by (vm_compute; reflexivity).
  assert (run [second] stats0
          = Ok ([second], mk_stats {[ lit "edited files" := 1 ]} ∅)) as H2
    by (vm_compute; reflexivity).
  split; [done |]. split; [done |].
  intros out2 st2 out12 st12. rewrite H2, H12.
  intros [= <- <-] [= <- <-]. vm_compute. split; discriminate.
Qed.

(** ** Counting the events of a run *)

Lemma tally_app evs1 evs2 name :
  tally (evs1 ++ evs2) name = tally evs1 name + tally evs2 name.
Proof. unfold tally. by rewrite filter_app, len_app. Qed.

Lemma frequency_app evs1 evs2 concept :
  frequency (evs1 ++ evs2) concept
  = frequency evs1 concept + frequency evs2 concept.
Proof. unfold frequency. by rewrite filter_app, len_app. Qed.

Lemma tally_one ev name :
  tally [ev] name = if bool_decide (counter_of ev = name) then 1 else 0.
Proof.
  unfold tally. rewrite filter_cons, filter_nil.
  case_bool_decide; by destruct (decide _).
Qed.

Lemma frequency_one ev concept :
  frequency [ev] concept = if bool_decide (ev = Indexed concept) then 1 else 0.
Proof.
  unfold frequency. rewrite filter_cons, filter_nil.
  case_bool_decide; by destruct (decide _).
Qed.

Lemma tally_nonneg evs name : 0 ≤ tally evs name.
Proof. apply len_nonneg. Qed.

Lemma frequency_nonneg evs concept : 0 ≤ frequency evs concept.
Proof. apply len_nonneg. Qed.

(** A counter after [bump], for any name. *)
Lemma bump_tally (name : string) (ev : event) st name' :
  counter_of ev = lit name →
  dd_val 0 (counters (bump name st)) name'
  = dd_val 0 (counters st) name' + tally [ev] name'.
Proof.
  intros Hev. rewrite tally_one, Hev. unfold bump. cbn [counters].
  case_bool_decide as Hn.
  - subst name'. apply dd_add_val.
  - rewrite dd_add_one_other by done. lia.
Qed.

(** One iteration counts its event, and nothing else. *)
Lemma annotate_step_counts methods line_nr s (m : match_t) s' :
  annotate_step methods line_nr s m = Ok s' →
  (∀ name, dd_val 0 (counters (stats_of s')) name
           = dd_val 0 (counters (stats_of s)) name
             + tally (step_events methods line_nr s m) name)
  ∧ (∀ c, dd_val 0 (annotation_distribution (stats_of s')) c
          = dd_val 0 (annotation_distribution (stats_of s)) c
            + frequency (step_events methods line_nr s m) c).
Proof.
  destruct m as [e [mtch concept]]. unfold annotate_step, step_events.
  intros Hs'.
  destruct (annotate_at_decided _ _ _ _ _ _ _ Hs')
    as [(Hinv & ->) | [(Hinv & Hno & _ & _ & Hcnt & Hd & _)
                      | (Hinv & Hb & Hcan & _ & _ & Hcnt & Hd & _)]];
    rewrite Hinv.
  - cbn [stats_of]. split.
    + intros name. by apply bump_tally.
    + intros c. rewrite frequency_one.
      rewrite bool_decide_eq_false_2 by done.
      unfold bump. cbn [annotation_distribution]. lia.
  - rewrite Hno. split.
    + intros name. rewrite Hcnt. unfold tally. rewrite filter_nil.
      unfold len. simpl. lia.
    + intros c. rewrite Hd. unfold frequency. rewrite filter_nil.
      unfold len. simpl. lia.
  - rewrite Hb, Hcan. cbn [andb]. split.
    + intros name. rewrite Hcnt.
      apply (bump_tally "indexed matches" (Indexed concept)
               (mk_stats (counters (stats_of s)) ∅) name eq_refl).
    + intros c. rewrite Hd, frequency_one.
      rewrite (bool_decide_ext (Indexed concept = Indexed c) (c = concept));
        [done |].
      split; [by intros [= ->] | by intros ->].
Qed.

Lemma annotate_loop_counts methods line_nr (matches : list match_t) :
  ∀ s s',
  annotate_loop methods line_nr matches s = Ok s' →
  (∀ name, dd_val 0 (counters (stats_of s')) name
           = dd_val 0 (counters (stats_of s)) name
             + tally (loop_events methods line_nr matches s) name)
  ∧ (∀ c, dd_val 0 (annotation_distribution (stats_of s')) c
          = dd_val 0 (annotation_distribution (stats_of s)) c
            + frequency (loop_events methods line_nr matches s) c).
Proof.
  induction matches as [|m matches IH]; intros s s';
    cbn [annotate_loop loop_events].
  - intros [= <-]. split; intros; unfold tally, frequency;
      rewrite filter_nil; unfold len; simpl; lia.
  - destruct (annotate_step methods line_nr s m) as [s1|] eqn:Hs1; [| done].
    cbn [bind]. intros Hs'.
    destruct (annotate_step_counts _ _ _ _ _ Hs1) as (H1 & K1).
    destruct (IH _ _ Hs') as (H2 & K2). split.
    + intros name. rewrite tally_app, H2, H1. lia.
    + intros c. rewrite frequency_app, K2, K1. lia.
Qed.

(** The events do not depend on the statistics. *)
Lemma loop_events_same_text methods line_nr (matches : list match_t) :
  ∀ s1 s2, same_text s1 s2 →
  loop_events methods line_nr matches s1 = loop_events methods line_nr matches s2.
Proof.
  induction matches as [|[e [m c]] matches IH]; intros s1 s2 Hs;
    cbn [loop_events]; [done |].
  assert (step_events methods line_nr s1 (e, (m, c))
          = step_events methods line_nr s2 (e, (m, c))) as ->.
  { destruct Hs as (Hl & Ht & Hll). unfold step_events. by rewrite Hl, Ht, Hll. }
  f_equal. unfold annotate_step.
  pose proof Hs as (_ & Ht & _). rewrite Ht.
  pose proof (annotate_at_same_text methods line_nr s1 s2
                (e + total_annotation_length s2) m c Hs) as H.
  destruct (annotate_at methods line_nr s1 _ m c) as [a1|],
           (annotate_at methods line_nr s2 _ m c) as [a2|];
    cbn [same_result] in H; try done.
  by apply IH.
Qed.

Section Counting.

Variables (allowed : list (list ascii)) (methods : option (list method)).
Variable iter_long : list ascii → list match_t.

Lemma process_line_counts line_nr line f f' :
  process_line allowed methods iter_long line_nr line f = Ok f' →
  (∀ name, dd_val 0 (counters (stats f')) name
           = dd_val 0 (counters (stats f)) name
             + tally (line_events allowed methods iter_long line_nr line f) name)
  ∧ (∀ c, dd_val 0 (annotation_distribution (stats f')) c
          = dd_val 0 (annotation_distribution (stats f)) c
            + frequency (line_events allowed methods iter_long line_nr line f) c).
Proof.
  unfold process_line, line_events. destruct (is_inside_env _).
  - intros [= <-]. cbn [stats]. split.
    + intros name. by apply bump_tally.
    + intros c. rewrite frequency_one, bool_decide_eq_false_2 by done.
      unfold bump. cbn [annotation_distribution]. lia.
  - destruct (annotate_loop _ _ _ _) as [s1|] eqn:Hs1; [| done].
    cbn [bind]. intros [= <-]. cbn [stats].
    by apply annotate_loop_counts in Hs1.
Qed.

Lemma line_events_same_file line_nr line f1 f2 :
  same_file f1 f2 →
  line_events allowed methods iter_long line_nr line f1
  = line_events allowed methods iter_long line_nr line f2.
Proof.
  intros (Hc & Hl & _). unfold line_events. rewrite Hc.
  destruct (is_inside_env _); [done |].
  apply loop_events_same_text. by repeat split.
Qed.

Lemma lines_events_same_file lines : ∀ line_nr f1 f2,
  same_file f1 f2 →
  lines_events allowed methods iter_long line_nr lines f1
  = lines_events allowed methods iter_long line_nr lines f2.
Proof.
  induction lines as [|line lines IH]; intros line_nr f1 f2 Hf;
    cbn [lines_events]; [done |].
  rewrite (line_events_same_file line_nr line f1 f2 Hf). f_equal.
  pose proof (process_line_same_file allowed methods iter_long
                line_nr line f1 f2 Hf) as H.
  destruct (process_line _ _ _ _ _ f1) as [a1|],
           (process_line _ _ _ _ _ f2) as [a2|];
    cbn [same_result] in H; try done.
  by apply IH.
Qed.

Lemma process_lines_counts lines : ∀ line_nr f f',
  process_lines allowed methods iter_long line_nr lines f = Ok f' →
  (∀ name, dd_val 0 (counters (stats f')) name
           = dd_val 0 (counters (stats f)) name
             + tally (lines_events allowed methods iter_long line_nr lines f) name)
  ∧ (∀ c, dd_val 0 (annotation_distribution (stats f')) c
          = dd_val 0 (annotation_distribution (stats f)) c
            + frequency (lines_events allowed methods iter_long line_nr lines f) c).
Proof.
  induction lines as [|line lines IH]; intros line_nr f f';
    cbn [process_lines lines_events].
  - intros [= <-]. split; intros; unfold tally, frequency;
      rewrite filter_nil; unfold len; simpl; lia.
  - destruct (process_line allowed methods iter_long line_nr line f)
      as [f1|] eqn:Hf1; [| done].
    cbn [bind]. intros Hf'.
    destruct (process_line_counts _ _ _ _ Hf1) as (H1 & K1).
    destruct (IH _ _ _ Hf') as (H2 & K2). split.
    + intros name. rewrite tally_app, H2, H1. lia.
    + intros c. rewrite frequency_app, K2, K1. lia.
Qed.

(** A file adds its own events to the statistics it starts with. *)
Lemma process_file_counts lines st out st' :
  process_file allowed methods iter_long lines st = Ok (out, st') →
  (∀ name, dd_val 0 (counters st') name
           = dd_val 0 (counters st) name
             + tally (file_events allowed methods iter_long lines) name)
  ∧ (∀ c, dd_val 0 (annotation_distribution st') c
          = dd_val 0 (annotation_distribution st) c
            + frequency (file_events allowed methods iter_long lines) c).
Proof.
  unfold process_file, file_events.
  destruct (process_lines _ _ _ _ _ _) as [f1|] eqn:Hf1; [| done].
  cbn [bind]. intros [= <- <-].
  apply process_lines_counts in Hf1 as (H1 & K1). cbn [stats] in H1, K1.
  rewrite (lines_events_same_file lines 0
             (mk_file ∅ ∅ (bump "edited files" st) [])
             (mk_file ∅ ∅ stats0 [])) in H1, K1 by done.
  change (Edited :: ?evs) with ([Edited] ++ evs). split.
  + intros name. rewrite tally_app, H1.
    rewrite (bump_tally "edited files" Edited st name eq_refl). lia.
  + intros c. rewrite frequency_app, K1, frequency_one.
    rewrite bool_decide_eq_false_2 by done.
    unfold bump. cbn [annotation_distribution]. lia.
Qed.

Lemma process_files_counts files : ∀ st outs st',
  process_files allowed methods iter_long files st = Ok (outs, st') →
  (∀ name, dd_val 0 (counters st') name
           = dd_val 0 (counters st) name
             + tally (flat_map (file_events allowed methods iter_long) files) name)
  ∧ (∀ c, dd_val 0 (annotation_distribution st') c
          = dd_val 0 (annotation_distribution st) c
            + frequency (flat_map (file_events allowed methods iter_long) files) c).
Proof.
  induction files as [|lines files IH]; intros st outs st';
    cbn [process_files flat_map].
  - intros [= _ <-]. split; intros; unfold tally, frequency;
      rewrite filter_nil; unfold len; simpl; lia.
  - destruct (process_file allowed methods iter_long lines st)
      as [[out st1]|] eqn:Hfile; [| done].
    cbn [bind].
    destruct (process_files allowed methods iter_long files st1)
      as [[outs1 st2]|] eqn:Hrest; [| done].
    cbn [bind]. intros [= _ <-].
    destruct (process_file_counts _ _ _ _ Hfile) as (H1 & K1).
    destruct (IH _ _ _ Hrest) as (H2 & K2). split.
    + intros name. rewrite tally_app, H2, H1. lia.
    + intros c. rewrite frequency_app, K2, K1. lia.
Qed.

End Counting.

(** C4, amended.  Each file starts with empty environment counters and an
    empty last-annotated-line map, so what is written for a file does not
    depend on the files processed before it.  The statistics are created
    once, before the first file, and are never reset: over a run that
    returns, every integer statistic is what it was before the run plus the
    number of events it counts in the files of the run (a file opened, a
    line an environment excludes, a match the validator rejects, a match
    annotated), and every frequency of the distribution is what it was
    plus the number of annotations of its concept in those files.  The
    events of a file are those of the file processed alone, whatever the
    statistics it starts with.  So the count of edited files grows by the
    number of files, and no integer statistic and no frequency ever
    decreases. *)
Theorem statistics_accumulate
    (allowed : list (list ascii)) (methods : option (list method))
    (iter_long : list ascii → list match_t)
    (files : list (list (list ascii))) (st : stats_t)
    (outs : list (list (list ascii))) (st' : stats_t) :
  process_files allowed methods iter_long files st = Ok (outs, st') →
  (∀ lines st0,
      process_file allowed methods iter_long lines st0
      = bind (process_lines allowed methods iter_long 0 lines
                (mk_file ∅ ∅ (bump "edited files" st0) []))
          (λ f, Ok (written f, stats f)))
  ∧ Forall2 (λ lines out,
               ∀ st0, output_of (process_file allowed methods iter_long lines st0)
                      = Some out) files outs
  ∧ dd_val 0 (counters st') (lit "edited files")
    = dd_val 0 (counters st) (lit "edited files") + len files
  ∧ (∀ name, dd_val 0 (counters st) name ≤ dd_val 0 (counters st') name)
  ∧ (∀ c, dd_val 0 (annotation_distribution st) c
          ≤ dd_val 0 (annotation_distribution st') c)
  ∧ (∀ name,
       dd_val 0 (counters st') name
       = dd_val 0 (counters st) name
         + tally (flat_map (file_events allowed methods iter_long) files) name)
  ∧ (∀ c,
       dd_val 0 (annotation_distribution st') c
       = dd_val 0 (annotation_distribution st) c
         + frequency (flat_map (file_events allowed methods iter_long) files) c)
  ∧ (∀ lines st0 out st1,
       process_file allowed methods iter_long lines st0 = Ok (out, st1) →
       (∀ name, dd_val 0 (counters st1) name
                = dd_val 0 (counters st0) name
                  + tally (file_events allowed methods iter_long lines) name)
       ∧ (∀ c, dd_val 0 (annotation_distribution st1) c
               = dd_val 0 (annotation_distribution st0) c
                 + frequency (file_events allowed methods iter_long lines) c)
       ∧ file_events allowed methods iter_long lines
         = Edited :: lines_events allowed methods iter_long 0 lines
                       (mk_file ∅ ∅ (bump "edited files" st0) [])).
Proof.
  intros Hrun. split; [done |].
  destruct (process_files_counts allowed methods iter_long files _ _ _ Hrun)
    as (Hcount & Hfreq).
  assert (Forall2 (λ lines out,
                     ∀ st0, output_of (process_file allowed methods iter_long lines st0)
                            = Some out) files outs) as Hall.
  { revert st outs st' Hrun Hcount Hfreq.
    induction files as [|lines files IH]; intros st outs st';
      cbn [process_files].
    - intros [= <- _] _ _. constructor.
    - destruct (process_file allowed methods iter_long lines st)
        as [[out st1]|] eqn:Hfile; [| done].
      cbn [bind].
      destruct (process_files allowed methods iter_long files st1)
        as [[outs1 st2]|] eqn:Hrest; [| done].
      cbn [bind]. intros [= <- <-] _ _. constructor.
      + intros st0.
        by rewrite (process_file_output _ _ _ lines st0 st), Hfile.
      + destruct (process_files_counts allowed methods iter_long files _ _ _ Hrest).
        by apply (IH st1 outs1 st2). }
  split; [done |].
  assert (∀ l : list (list (list ascii)),
            tally (flat_map (file_events allowed methods iter_long) l)
              (lit "edited files") = len l) as Hedited.
  { induction l as [|lines l IH]; [done |].
    cbn [flat_map]. rewrite tally_app, IH. unfold file_events.
    change (Edited :: ?evs) with ([Edited] ++ evs).
    rewrite tally_app, tally_one.
    assert (∀ f line_nr,
              tally (lines_events allowed methods iter_long line_nr lines f)
                (lit "edited files") = 0) as ->.
    { clear. induction lines as [|line lines IH]; intros f line_nr; [done |].
      cbn [lines_events]. rewrite tally_app.
      assert (tally (line_events allowed methods iter_long line_nr line f)
                (lit "edited files") = 0) as ->.
      { unfold line_events. destruct (is_inside_env _); [done |].
        generalize (mk_loop line 0 (stats f) (last_line f)).
        induction (iter_long line) as [|[e [m c]] ms IHms]; intros s; [done |].
        cbn [loop_events]. rewrite tally_app.
        assert (tally (step_events methods line_nr s (e, (m, c)))
                  (lit "edited files") = 0) as ->.
        { unfold step_events. destruct (invalid_match _ _ _ _); [done |].
          by destruct (_ && _). }
        destruct (annotate_step _ _ _ _); [apply IHms | done]. }
      destruct (process_line _ _ _ _ _ _); [apply IH | done]. }
    rewrite bool_decide_eq_true_2 by done.
    unfold len. cbn [length]. lia. }
  split; [by rewrite Hcount, Hedited |].
  split; [intros name; rewrite Hcount; pose proof (tally_nonneg
            (flat_map (file_events allowed methods iter_long) files) name); lia |].
  split; [intros c; rewrite Hfreq; pose proof (frequency_nonneg
            (flat_map (file_events allowed methods iter_long) files) c); lia |].
  do 2 (split; [done |]).
  intros lines st0 out st1 Hfile.
  destruct (process_file_counts allowed methods iter_long _ _ _ _ Hfile)
    as (H1 & K1).
  do 2 (split; [done |]).
  unfold file_events. f_equal. by apply lines_events_same_file.
Qed.

Lemma statistics_accumulate_witness :
  let matcher := reference_matcher [(lit "graph", lit "graph")] in
  let files := [[ln "a graph b"]; [ln "nothing to index"]] in
  let st' := mk_stats {[ lit "edited files" := 2; lit "indexed matches" := 1 ]}
                      {[ lit "graph" := 1 ]} in
  flat_map (file_events [lit "sloppypar"] None matcher) files
  = [Edited; Indexed (lit "graph"); Edited]
  ∧ (∀ name, dd_val 0 (counters st') name
             = 0 + tally [Edited; Indexed (lit "graph"); Edited] name)
  ∧ Forall2 (λ lines out,
               ∀ st0, output_of (process_file [lit "sloppypar"] None matcher
                                   lines st0) = Some out)
      files [[ln "a graph\index{graph} b"]; [ln "nothing to index"]].
Proof.
  intros matcher files st'.
  assert (flat_map (file_events [lit "sloppypar"] None matcher) files
          = [Edited; Indexed (lit "graph"); Edited]) as Hev
    by (vm_compute; reflexivity).
  destruct (statistics_accumulate [lit "sloppypar"] None matcher files stats0
              [[ln "a graph\index{graph} b"]; [ln "nothing to index"]] st')
    as (_ & Hall & _ & _ & _ & Hcount & _); [vm_compute; reflexivity |].
  split; [exact Hev |]. split; [| exact Hall].
  intros name. rewrite <- Hev. apply Hcount.
Defined.

(** ** Rebuilding the line *)

Lemma ordered_weaken from acc upto upto' :
  upto ≤ upto' → ordered from acc upto → ordered from acc upto'.
Proof.
  intros Hle. revert from. induction acc as [|[e mk] acc IH]; intros from; simpl.
  - done.
  - intros (H1 & H2 & H3). repeat split; [done | lia | by apply IH].
Qed.

Lemma ordered_snoc from acc upto e mk :
  ordered from acc upto → from ≤ e + 1 → upto ≤ e →
  ordered from (acc ++ [(e, mk)]) e.
Proof.
  revert from. induction acc as [|[e1 m1] acc IH]; intros from; simpl.
  - intros _ Hfrom _. repeat split; [done | lia].
  - intros (H1 & H2 & H3) Hfrom Hupto. repeat split; [done | lia |].
    apply IH; [done | lia | done].
Qed.

Lemma markers_length_nonneg acc : 0 ≤ markers_length acc.
Proof.
  induction acc as [|[e mk] acc IH]; simpl; [done |].
  pose proof (len_nonneg mk). lia.
Qed.

Lemma markers_length_snoc acc e mk :
  markers_length (acc ++ [(e, mk)]) = markers_length acc + len mk.
Proof. induction acc as [|[e1 m1] acc IH]; simpl; lia. Qed.

(** Inserting a marker after offset [e] of the original text, that is, at
    the offset corrected by the length of the markers already there, extends
    the reconstruction by one span and one marker. *)
Lemma interleave_snoc acc : ∀ from rest e mk,
  ordered from acc e → from ≤ e + 1 → e + 1 - from ≤ len rest →
  let p := Z.to_nat (e + 1 - from + markers_length acc) in
  take p (interleave from rest acc) ++ mk ++ drop p (interleave from rest acc)
  = interleave from rest (acc ++ [(e, mk)]).
Proof.
  induction acc as [|[e1 m1] acc IH]; intros from rest e mk; simpl.
  - intros _ Hfrom Hrest. by rewrite Z.add_0_r.
  - intros (H1 & H2 & H3) Hfrom Hrest.
    pose proof (markers_length_nonneg acc) as Hacc.
    set (n1 := Z.to_nat (e1 + 1 - from)).
    set (p' := Z.to_nat (e + 1 - (e1 + 1) + markers_length acc)).
    assert (length (take n1 rest) = n1) as Hn1
      by (apply length_take_le; unfold len in Hrest; lia).
    replace (Z.to_nat (e + 1 - from + (len m1 + markers_length acc)))
      with (n1 + (length m1 + p'))%nat by (unfold len; lia).
    rewrite take_app_add', drop_app_add' by done.
    rewrite take_app_add', drop_app_add' by done.
    rewrite <- !app_assoc. do 2 f_equal.
    apply IH; [done | lia |].
    unfold len in *. rewrite length_drop. lia.
Qed.

(** The character at an offset of the original text that lies after every
    annotated match is found in the rewritten text at the corrected
    offset. *)
Lemma interleave_lookup acc : ∀ from rest e,
  ordered from acc (e - 1) → from ≤ e →
  interleave from rest acc !! Z.to_nat (e - from + markers_length acc)
  = rest !! Z.to_nat (e - from).
Proof.
  induction acc as [|[e1 m1] acc IH]; intros from rest e; simpl.
  - intros _ _. by rewrite Z.add_0_r.
  - intros (H1 & H2 & H3) Hfrom.
    pose proof (markers_length_nonneg acc) as Hacc.
    set (n1 := Z.to_nat (e1 + 1 - from)).
    destruct (decide (n1 ≤ length rest)%nat) as [Hle | Hgt].
    + assert (length (take n1 rest) = n1) as Hn1 by (by apply length_take_le).
      replace (Z.to_nat (e - from + (len m1 + markers_length acc)))
        with (n1 + (length m1 + Z.to_nat (e - (e1 + 1) + markers_length acc)))%nat
        by (unfold len; lia).
      rewrite lookup_app_r by lia.
      rewrite Hn1, Nat.add_comm, Nat.add_sub.
      rewrite lookup_app_r by lia.
      rewrite Nat.add_comm, Nat.add_sub.
      rewrite IH by (done || lia). rewrite lookup_drop. f_equal. lia.
    + rewrite (lookup_ge_None_2 rest) by lia.
      apply lookup_ge_None_2. rewrite !length_app.
      rewrite length_take_ge by lia.
      assert (drop n1 rest = []) as -> by (apply drop_ge; lia).
      assert (∀ from', length (interleave from' [] acc)
                       = Z.to_nat (markers_length acc)) as ->.
      { clear. induction acc as [|[e mk] acc IH]; intros from'; simpl; [done |].
        rewrite take_nil, drop_nil. simpl. rewrite length_app, IH.
        pose proof (markers_length_nonneg acc). unfold len. lia. }
      unfold len. lia.
Qed.

(** ** The loop over the matches of a line *)

Lemma well_placed_app n ms1 : ∀ lo ms2,
  well_placed n lo (ms1 ++ ms2)
  ↔ well_placed n lo ms1 ∧ well_placed n (next_lo lo ms1) ms2.
Proof.
  induction ms1 as [|[e [m c]] ms1 IH]; intros lo ms2; simpl.
  - tauto.
  - rewrite IH. tauto.
Qed.

Lemma next_lo_nonneg n ms : ∀ lo,
  0 ≤ lo → well_placed n lo ms → 0 ≤ next_lo lo ms.
Proof.
  induction ms as [|[e [m c]] ms IH]; intros lo Hlo; simpl; [done |].
  intros (? & _ & _ & ?). apply IH; [lia | done].
Qed.

Lemma word_boundaries_returns {line : list ascii} {end_index : Z} {mtch : list ascii} :
  0 ≤ end_index → 0 ≤ end_index - len mtch + 1 → end_index + 1 < len line →
  ∃ b, word_boundaries line end_index mtch = Ok b.
Proof.
  intros He Hs Hlt. pose proof (len_nonneg mtch) as Hm.
  assert (is_Some (index line (end_index + 1))) as [after Hafter]
    by (apply index_in_range; lia).
  assert (is_Some (index line (end_index - len mtch))) as [before Hbefore].
  { destruct (Z.le_gt_cases 0 (end_index - len mtch)) as [|Hneg].
    - apply index_in_range. lia.
    - assert (end_index - len mtch = -1) as -> by lia.
      rewrite index_minus_one.
      destruct line as [|a l] using rev_ind; [unfold len in Hlt; simpl in Hlt; lia |].
      rewrite last_snoc. by eexists. }
  unfold word_boundaries. rewrite Hafter, Hbefore.
  destruct (Re.non_word after); by eexists.
Qed.

Lemma annotate_at_returns methods line_nr s end_index mtch concept :
  0 ≤ end_index → 0 ≤ end_index - len mtch + 1 →
  end_index + 1 < len (line_of s) →
  ∃ s', annotate_at methods line_nr s end_index mtch concept = Ok s'.
Proof.
  intros He Hs Hlt.
  destruct (invalid_match (line_of s) (end_index - len mtch + 1) end_index concept)
    eqn:Hinv; [eexists; by apply annotate_at_invalid |].
  destruct (word_boundaries_returns He Hs Hlt) as [[] Hb].
  - destruct (can_annotate methods (dd_val (-1) (last_line_of s) concept)
                line_nr concept) eqn:Hcan.
    + destruct (annotate_at_annotated methods line_nr s end_index mtch concept
                  Hinv Hb Hcan) as (s' & Hs' & _). by exists s'.
    + destruct (annotate_at_throttled methods line_nr s end_index mtch concept
                  Hinv Hb Hcan) as (s' & Hs' & _). by exists s'.
  - destruct (annotate_at_skipped methods line_nr s end_index mtch concept
                Hinv Hb) as (s' & Hs' & _). by exists s'.
Qed.

Section LineLoop.

Variables (methods : option (list method)) (line_nr : Z) (line : list ascii).

Lemma annotate_loop_rebuilt (ms : list match_t) : ∀ s acc lo,
  0 ≤ lo → well_placed (len line) lo ms →
  ordered 0 acc (lo - 1) → rebuilt line s acc →
  ∃ s', annotate_loop methods line_nr ms s = Ok s'
    ∧ rebuilt line s' (acc ++ annotated_matches methods line_nr ms s)
    ∧ ordered 0 (acc ++ annotated_matches methods line_nr ms s)
        (next_lo lo ms - 1).
Proof.
  induction ms as [|[e [m c]] ms IH]; intros s acc lo Hlo Hms Hacc Hs.
  - exists s. simpl. by rewrite app_nil_r.
  - destruct Hms as (He & Hend & Hstart & Hms).
    destruct Hs as (Hline & Htotal & Hlen).
    pose proof (markers_length_nonneg acc) as Hnonneg.
    destruct (annotate_at_returns methods line_nr s
                (e + total_annotation_length s) m c) as [s1 Hs1]; [lia .. |].
    simpl. rewrite Hs1. simpl.
    destruct (annotate_at_outcome _ _ _ _ _ _ _ Hs1)
      as [(Hl & Ht & _) | (_ & _ & _ & Hl & Ht & _)].
    + rewrite Ht, Z.eqb_refl. simpl.
      apply (IH s1 acc (e + 1)); [lia | done | |].
      * apply (ordered_weaken 0 acc (lo - 1)); [lia | done].
      * unfold rebuilt. by rewrite Hl, Ht.
    + assert ((total_annotation_length s1 =? total_annotation_length s) = false)
        as ->.
      { apply Z.eqb_neq. rewrite Ht, len_annotation.
        pose proof (len_nonneg c). lia. }
      rewrite !(app_assoc acc [(e, annotation c)]).
      apply (IH s1 (acc ++ [(e, annotation c)]) (e + 1)); [lia | done | |].
      * replace (e + 1 - 1) with e by lia.
        apply (ordered_snoc 0 acc (lo - 1)); [done | lia | lia].
      * unfold rebuilt. rewrite markers_length_snoc. repeat split.
        -- rewrite Hl. unfold insert_annotation.
           rewrite slice_0_to, slice_from by lia.
           rewrite Hline, Htotal.
           replace (Z.to_nat (e + markers_length acc + 1))
             with (Z.to_nat (e + 1 - 0 + markers_length acc)) by lia.
           apply interleave_snoc; [| lia | lia].
           apply (ordered_weaken 0 acc (lo - 1)); [lia | done].
        -- lia.
        -- rewrite Hl, len_insert_annotation. lia.
Qed.

(** In a rebuilt line the corrected offset of a position after every
    annotated match holds the character the original line has there. *)
Lemma rebuilt_index s acc e :
  rebuilt line s acc → ordered 0 acc (e - 1) → 0 ≤ e →
  index (line_of s) (e + total_annotation_length s) = index line e.
Proof.
  intros (Hline & Htotal & _) Hacc He.
  pose proof (markers_length_nonneg acc).
  rewrite !index_nonneg by lia. rewrite Hline, Htotal.
  pose proof (interleave_lookup acc 0 line e Hacc He) as H1.
  by rewrite !Z.sub_0_r in H1.
Qed.

End LineLoop.

(** The text from an offset of the original line that lies after every
    annotated match is the text of the rewritten line from the corrected
    offset. *)
Lemma interleave_drop acc from rest p :
  ordered from acc (p - 1) → from ≤ p →
  drop (Z.to_nat (p - from + markers_length acc)) (interleave from rest acc)
  = drop (Z.to_nat (p - from)) rest.
Proof.
  intros Hacc Hp. pose proof (markers_length_nonneg acc) as Hn.
  apply list_eq. intros i. rewrite !lookup_drop.
  replace (Z.to_nat (p - from + markers_length acc) + i)%nat
    with (Z.to_nat (p + Z.of_nat i - from + markers_length acc)) by lia.
  replace (Z.to_nat (p - from) + i)%nat
    with (Z.to_nat (p + Z.of_nat i - from)) by lia.
  apply interleave_lookup; [| lia].
  apply (ordered_weaken from acc (p - 1)); [lia | done].
Qed.

Lemma slice_range {A} (l : list A) (a b : Z) :
  0 ≤ a → a ≤ b → b ≤ len l →
  slice l (Some a) (Some b) = take (Z.to_nat (b - a)) (drop (Z.to_nat a) l).
Proof.
  intros Ha Hab Hb. unfold slice, bound.
  rewrite (proj2 (Z.ltb_ge a 0)), (proj2 (Z.ltb_ge b 0)) by lia.
  by rewrite !Z.min_l by lia.
Qed.

Section LineSpec.

Variables (methods : option (list method)) (line_nr : Z) (line : list ascii).

Lemma rebuilt_drop s acc p :
  rebuilt line s acc → ordered 0 acc (p - 1) → 0 ≤ p →
  drop (Z.to_nat (p + total_annotation_length s)) (line_of s)
  = drop (Z.to_nat p) line.
Proof.
  intros (Hline & Htotal & _) Hacc Hp. rewrite Hline, Htotal.
  pose proof (interleave_drop acc 0 line p Hacc Hp) as H.
  by rewrite !Z.sub_0_r in H.
Qed.

(** The text after a corrected offset. *)
Lemma rebuilt_suffix s acc p :
  rebuilt line s acc → ordered 0 acc (p - 1) → 0 ≤ p →
  slice (line_of s) (Some (p + total_annotation_length s)) None
  = slice line (Some p) None.
Proof.
  intros Hs Hacc Hp. pose proof Hs as (_ & Htotal & _).
  pose proof (markers_length_nonneg acc).
  rewrite !slice_from by lia. by apply (rebuilt_drop s acc).
Qed.

(** The text between two corrected offsets. *)
Lemma rebuilt_span s acc p q :
  rebuilt line s acc → ordered 0 acc (p - 1) → 0 ≤ p → p ≤ q → q ≤ len line →
  slice (line_of s) (Some (p + total_annotation_length s))
    (Some (q + total_annotation_length s))
  = slice line (Some p) (Some q).
Proof.
  intros Hs Hacc Hp Hpq Hq. pose proof Hs as (_ & Htotal & Hlen).
  pose proof (markers_length_nonneg acc).
  rewrite !slice_range by lia.
  rewrite (rebuilt_drop s acc) by done. f_equal. lia.
Qed.

(** The loop of the source annotates the matches the specification
    accepts. *)
Lemma annotate_loop_spec (ms : list match_t) : ∀ s acc lo last,
  0 ≤ lo → well_placed (len line) lo ms →
  ordered 0 acc (lo - 1) → rebuilt line s acc →
  (∀ k, dd_val (-1) (last_line_of s) k = dd_val (-1) last k) →
  acc ++ annotated_matches methods line_nr ms s
  = spec_annotations methods line_nr line ms acc last.
Proof.
  induction ms as [|[e [m c]] ms IH]; intros s acc lo last Hlo Hms Hacc Hs Hlast.
  - simpl. by rewrite app_nil_r.
  - destruct (annotate_loop_rebuilt methods line_nr line [(e, (m, c))] s acc lo)
      as (s1 & Hs1 & Hre & Hord); [done | | done | done |].
    { destruct Hms as (? & ? & ? & _). by repeat split. }
    destruct Hms as (He & Hend & Hstart & Hms).
    cbn [annotate_loop annotate_step] in Hs1.
    cbn [annotated_matches annotate_step next_lo fst snd] in Hre, Hord.
    cbn [annotated_matches annotate_step spec_annotations].
    destruct (annotate_at methods line_nr s (e + total_annotation_length s) m c)
      as [s1'|] eqn:Hat; [| done].
    cbn [bind] in Hs1. injection Hs1 as ->.
    rewrite app_nil_r in Hre, Hord.
    destruct Hs as (Hline & Htotal & Hlen).
    rewrite <- Hline, <- Htotal, <- Hlast.
    unfold accepted_at.
    destruct (annotate_at_decided _ _ _ _ _ _ _ Hat)
      as [(Hinv & ->) | [(Hinv & Hno & Hl & Ht & _ & _ & Hll)
                        | (Hinv & Hb & Hcan & Hl & Ht & _ & _ & Hll)]].
    + rewrite Hinv. cbn [negb andb total_annotation_length] in *.
      rewrite Z.eqb_refl in *. cbn [app] in *.
      rewrite app_nil_r in Hre, Hord.
      apply (IH _ acc (e + 1) last); [lia | done | done | done | done].
    + rewrite Hinv. cbn [negb andb]. rewrite Hno.
      rewrite Ht, Z.eqb_refl in *. cbn [app] in *.
      rewrite app_nil_r in Hre, Hord.
      apply (IH _ acc (e + 1) last); [lia | done | done | done |].
      intros k. by rewrite Hll.
    + rewrite Hinv, Hb, Hcan. cbn [negb andb].
      assert ((total_annotation_length s1 =? total_annotation_length s) = false)
        as Hne.
      { apply Z.eqb_neq. rewrite Ht, len_annotation.
        pose proof (len_nonneg c). lia. }
      rewrite Hne in *. cbn [fst snd] in *.
      rewrite (app_assoc acc [(e, annotation c)]).
      apply (IH _ (acc ++ [(e, annotation c)]) (e + 1) (<[c := line_nr]> last));
        [lia | done | done | done |].
      intros k. rewrite Hll. case_bool_decide as Hk.
      * subst k. unfold dd_val. by rewrite lookup_insert_eq.
      * rewrite Hlast. unfold dd_val. by rewrite lookup_insert_ne.
Qed.

End LineSpec.

(** What an iteration that returns does to the line, read off the
    specification's decision at the corrected offset. *)
Lemma annotate_at_accepted_at methods line_nr s end_index mtch concept s' :
  annotate_at methods line_nr s end_index mtch concept = Ok s' →
  if accepted_at methods line_nr (line_of s) end_index mtch concept
       (dd_val (-1) (last_line_of s) concept)
  then line_of s' = insert_annotation (line_of s) end_index concept
       ∧ total_annotation_length s'
         = total_annotation_length s + len (annotation concept)
  else line_of s' = line_of s
       ∧ total_annotation_length s' = total_annotation_length s.
Proof.
  intros Hs'. unfold accepted_at.
  destruct (annotate_at_decided _ _ _ _ _ _ _ Hs')
    as [(Hinv & ->) | [(Hinv & Hno & Hl & Ht & _)
                      | (Hinv & Hb & Hcan & Hl & Ht & _)]].
  - by rewrite Hinv.
  - rewrite Hinv. cbn [negb andb]. by rewrite Hno.
  - by rewrite Hinv, Hb, Hcan.
Qed.

(** C1.  On a line whose matches come in increasing order of end offset,
    each starting in the line and followed by a character, the loop
    returns, and it annotates exactly the matches the specification
    accepts: the ones for which the validator, the boundary check and the
    throttle pass at the reported end offset plus the cumulative length of
    the markers inserted before on the line.  When an iteration starts,
    [total_annotation_length] is that cumulative length and the line is the
    original text with those markers in place.  The corrected offset and
    the one after it hold the characters the original line has at the
    reported offset and after it, and the text after the corrected offset
    is the text after the reported one; when the previous match ends
    before this one starts, the corrected span of the match holds the text
    of the original span, and when it ends before the character in front of
    this one, the boundary check reads that character.  The iteration
    inserts the marker right after the corrected offset when the match is
    accepted there and leaves the line alone otherwise.  After the loop the
    line is the original text cut after the end of each accepted match,
    with each marker in its place, however many markers came before. *)
Theorem offsets_are_corrected
    (methods : option (list method)) (line_nr : Z) (line : list ascii)
    (st : stats_t) (last_lines : gmap (list ascii) Z) (ms : list match_t) :
  let s0 := mk_loop line 0 st last_lines in
  well_placed (len line) 0 ms →
  (∀ s e m c,
      annotate_step methods line_nr s (e, (m, c))
      = annotate_at methods line_nr s (e + total_annotation_length s) m c)
  ∧ (∀ ms1 e m c ms2, ms = ms1 ++ (e, (m, c)) :: ms2 →
       let before := spec_annotations methods line_nr line ms1 [] last_lines in
       let corrected := e + markers_length before in
       ∃ s1, annotate_loop methods line_nr ms1 s0 = Ok s1
         ∧ annotated_matches methods line_nr ms1 s0 = before
         ∧ total_annotation_length s1 = markers_length before
         ∧ line_of s1 = interleave 0 line before
         ∧ index (line_of s1) corrected = index line e
         ∧ index (line_of s1) (corrected + 1) = index line (e + 1)
         ∧ slice (line_of s1) (Some (corrected + 1)) None
           = slice line (Some (e + 1)) None
         ∧ (next_lo 0 ms1 ≤ e - len m + 1 →
            slice (line_of s1) (Some (corrected - len m + 1)) (Some (corrected + 1))
            = slice line (Some (e - len m + 1)) (Some (e + 1)))
         ∧ (next_lo 0 ms1 ≤ e - len m →
            index (line_of s1) (corrected - len m) = index line (e - len m))
         ∧ ∃ s2, annotate_step methods line_nr s1 (e, (m, c)) = Ok s2
             ∧ if accepted_at methods line_nr (interleave 0 line before)
                    corrected m c (dd_val (-1) (last_line_of s1) c)
               then line_of s2 = insert_annotation (line_of s1) corrected c
                    ∧ total_annotation_length s2
                      = markers_length before + len (annotation c)
               else line_of s2 = line_of s1
                    ∧ total_annotation_length s2 = markers_length before)
  ∧ ∃ s', annotate_loop methods line_nr ms s0 = Ok s'
      ∧ annotated_matches methods line_nr ms s0
        = spec_annotations methods line_nr line ms [] last_lines
      ∧ line_of s'
        = interleave 0 line (spec_annotations methods line_nr line ms [] last_lines)
      ∧ total_annotation_length s'
        = markers_length (spec_annotations methods line_nr line ms [] last_lines).
Proof.
  intros s0 Hms.
  assert (rebuilt line s0 []) as Hs0.
  { unfold rebuilt. simpl. repeat split. lia. }
  assert (∀ ms1 lo, well_placed (len line) lo ms1 → 0 ≤ lo →
            annotated_matches methods line_nr ms1 s0
            = spec_annotations methods line_nr line ms1 [] last_lines) as Hspec.
  { intros ms1 lo Hms1 Hlo.
    by apply (annotate_loop_spec methods line_nr line ms1 s0 [] lo last_lines). }
  split; [done |]. split.
  - intros ms1 e m c ms2 -> before corrected.
    apply well_placed_app in Hms.
    destruct Hms as (Hms1 & He & Hend & Hstart & _).
    destruct (annotate_loop_rebuilt methods line_nr line ms1 s0 [] 0)
      as (s1 & Hs1 & Hre & Hord); [done .. |].
    cbn [app] in Hre, Hord. rewrite (Hspec ms1 0) in Hre, Hord by done.
    fold before in Hre, Hord.
    exists s1. split; [done |]. split; [by apply (Hspec ms1 0) |].
    pose proof Hre as (Hl & Ht & Hlen). do 2 (split; [done |]).
    assert (0 ≤ next_lo 0 ms1) as Hlo
      by (by apply (next_lo_nonneg (len line))).
    pose proof (len_nonneg m) as Hm.
    pose proof (markers_length_nonneg before) as Hnonneg.
    subst corrected. rewrite <- Ht.
    split; [| split; [| split; [| split; [| split]]]].
    + apply (rebuilt_index line s1 _ e Hre); [| lia].
      apply (ordered_weaken 0 _ (next_lo 0 ms1 - 1)); [lia | done].
    + replace (e + total_annotation_length s1 + 1)
        with (e + 1 + total_annotation_length s1) by lia.
      apply (rebuilt_index line s1 _ (e + 1) Hre); [| lia].
      apply (ordered_weaken 0 _ (next_lo 0 ms1 - 1)); [lia | done].
    + replace (e + total_annotation_length s1 + 1)
        with (e + 1 + total_annotation_length s1) by lia.
      apply (rebuilt_suffix line s1 before (e + 1) Hre); [| lia].
      apply (ordered_weaken 0 _ (next_lo 0 ms1 - 1)); [lia | done].
    + intros Hprev.
      replace (e + total_annotation_length s1 - len m + 1)
        with (e - len m + 1 + total_annotation_length s1) by lia.
      replace (e + total_annotation_length s1 + 1)
        with (e + 1 + total_annotation_length s1) by lia.
      apply (rebuilt_span line s1 before _ _ Hre); [| lia ..].
      apply (ordered_weaken 0 _ (next_lo 0 ms1 - 1)); [lia | done].
    + intros Hprev.
      replace (e + total_annotation_length s1 - len m)
        with (e - len m + total_annotation_length s1) by lia.
      apply (rebuilt_index line s1 _ (e - len m) Hre); [| lia].
      apply (ordered_weaken 0 _ (next_lo 0 ms1 - 1)); [lia | done].
    + destruct (annotate_at_returns methods line_nr s1
                  (e + total_annotation_length s1) m c) as [s2 Hs2]; [lia .. |].
      exists s2. split; [done |]. rewrite <- Hl.
      by apply annotate_at_accepted_at.
  - destruct (annotate_loop_rebuilt methods line_nr line ms s0 [] 0)
      as (s' & Hs' & (Hl & Ht & _) & _); [done .. |].
    cbn [app] in Hl, Ht. rewrite (Hspec ms 0) in Hl, Ht by done.
    exists s'. split; [done |]. split; [by apply (Hspec ms 0) | done].
Qed.

Lemma offsets_are_corrected_witness :
  let line := ln "a graph, a node and a tree." in
  let ms := reference_matcher
              [(lit "graph", lit "graph"); (lit "node", lit "vertex");
               (lit "tree", lit "tree")] line in
  ms = [(6, (lit "graph", lit "graph")); (14, (lit "node", lit "vertex"));
        (25, (lit "tree", lit "tree"))]
  ∧ spec_annotations None 0 line ms [] ∅
    = [(6, annotation (lit "graph")); (14, annotation (lit "vertex"));
       (25, annotation (lit "tree"))]
  ∧ ∃ s', annotate_loop None 0 ms (mk_loop line 0 stats0 ∅) = Ok s'
      ∧ line_of s' = ln "a graph\index{graph}, a node\index{vertex} and a tree\index{tree}."
      ∧ total_annotation_length s' = 39.
Proof.
  intros line ms. split; [vm_compute; reflexivity |].
  split; [vm_compute; reflexivity |].
  destruct (offsets_are_corrected None 0 line stats0 ∅ ms)
    as (_ & _ & s' & Hs' & _ & Hl & Ht);
    [vm_compute; repeat split; discriminate |].
  exists s'. split; [exact Hs' |]. split.
  - rewrite Hl. vm_compute. reflexivity.
  - rewrite Ht. vm_compute. reflexivity.
Defined.


(** * Further properties of the indexer *)

(** ** Substring tests and the validator's regular expression *)

Lemma startswith_prefix p s : startswith p s = true ↔ ∃ r, s = p ++ r.
Proof.
  revert s. induction p as [|a p IH]; intros s; simpl.
  - split; [by exists s | done].
  - destruct s as [|b s]; [split; [done | by intros (r & ?)] |].
    rewrite andb_true_iff, bool_decide_eq_true, IH. split.
    + intros (-> & r & ->). by exists r.
    + intros (r & [= -> ->]). split; [done | by exists r].
Qed.

Lemma contains_substring needle hay :
  contains needle hay = true ↔ ∃ pre post, hay = pre ++ needle ++ post.
Proof.
  induction hay as [|c hay IH]; simpl.
  - rewrite startswith_prefix. split.
    + intros (r & Hr). exists [], r. done.
    + intros (pre & post & H). symmetry in H.
      apply app_eq_nil in H as (-> & H). apply app_eq_nil in H as (-> & ->).
      by exists [].
  - rewrite orb_true_iff, startswith_prefix, IH. split.
    + intros [(r & ->) | (pre & post & ->)].
      * by exists [], r.
      * by exists (c :: pre), post.
    + intros (pre & post & H). destruct pre as [|c' pre].
      * left. by exists post.
      * right. injection H as -> ->. by exists pre, post.
Qed.

(** X1.  A concept is invalid exactly when a slash or the text [et al]
    occurs somewhere in it. *)
Theorem invalid_concept_substring (concept : list ascii) :
  is_invalid_concept concept = true
  ↔ (∃ pre post, concept = pre ++ lit "/" ++ post)
    ∨ (∃ pre post, concept = pre ++ lit "et al" ++ post).
Proof.
  unfold is_invalid_concept.
  by rewrite orb_true_iff, !contains_substring.
Qed.

Lemma command_tail_letters s :
  Re.command_tail s = true
  ↔ ∃ letters rest, s = letters ++ Re.backslash :: rest
                    ∧ Forall (λ c, Re.is_letter c = true) letters.
Proof.
  induction s as [|c s IH]; simpl.
  - split; [done | intros (letters & rest & H & _); by destruct letters].
  - case_bool_decide as Hc.
    + subst c. split; [| done]. intros _. by exists [], s.
    + destruct (Re.is_letter c) eqn:Hl.
      * rewrite IH. split.
        -- intros (letters & rest & -> & Hall). exists (c :: letters), rest.
           split; [done | by constructor].
        -- intros (letters & rest & H & Hall). destruct letters as [|c' letters].
           ++ injection H as -> _. done.
           ++ injection H as -> ->. exists letters, rest.
              split; [done | by inversion Hall].
      * split; [done |]. intros (letters & rest & H & Hall).
        destruct letters as [|c' letters].
        -- injection H as -> _. done.
        -- injection H as -> _. inversion Hall; congruence.
Qed.

(** X2.  For a non-negative [end_index] the command-name check looks at
    the text before offset [end_index] (the whole line when [end_index] is
    0, because [rev_line[-0:]] is the whole reversed line) and holds exactly
    when that text ends with a backslash followed by ASCII letters only. *)
Theorem part_of_command_prefix (line : list ascii) (end_index : Z) :
  0 ≤ end_index →
  let seen := if end_index =? 0 then line else take (Z.to_nat end_index) line in
  is_part_of_command line end_index = true
  ↔ ∃ before letters,
      seen = before ++ Re.backslash :: letters
      ∧ Forall (λ c, Re.is_letter c = true) letters.
Proof.
  intros He seen.
  assert (slice (rev line) (Some (- end_index)) None = rev seen) as Hslice.
  { subst seen. destruct (Z.eqb_spec end_index 0) as [-> | Hne].
    - simpl. rewrite slice_from by done. apply drop_0.
    - unfold slice, bound, len. rewrite length_rev.
      rewrite (proj2 (Z.ltb_lt (- end_index) 0)) by lia.
      rewrite firstn_all2 by (rewrite length_skipn, length_rev; lia).
      rewrite skipn_rev. f_equal.
      destruct (decide (Z.to_nat end_index ≤ length line)%nat) as [Hle | Hgt].
      + f_equal. lia.
      + rewrite (take_ge line (Z.to_nat end_index)) by lia.
        apply take_ge. lia. }
  unfold is_part_of_command. rewrite Hslice, command_tail_letters. split.
  - intros (letters & rest & Hrev & Hall).
    exists (rev rest), (rev letters). split.
    + rewrite <- (rev_involutive seen), Hrev, rev_app_distr. simpl.
      by rewrite <- app_assoc.
    + by apply Forall_rev.
  - intros (before & letters & Hseen & Hall).
    exists (rev letters), (rev before). split.
    + rewrite Hseen, rev_app_distr. simpl. by rewrite <- app_assoc.
    + by apply Forall_rev.
Qed.

Lemma part_of_command_prefix_witness :
  is_part_of_command (ln "see \graph") 9 = true
  ∧ is_part_of_command (lit "a \b") 0 = true.
Proof.
  split.
  - apply (part_of_command_prefix (ln "see \graph") 9); [lia |].
    exists (lit "see "), (lit "grap"). split; [reflexivity |].
    repeat constructor.
  - apply (part_of_command_prefix (lit "a \b") 0); [lia |].
    exists (lit "a "), (lit "b"). split; [reflexivity |]. repeat constructor.
Defined.

(** ** The throttle, every selection *)

(** X3.  With no method selected every match may be annotated; otherwise a
    match may be annotated exactly when each selected policy accepts it: the
    distance policy when the concept has no last line (-1) or the current
    line is more than 200 lines below it, the stopword policy when the
    concept is not a stopword.  The order and repetition of the selected
    methods play no part. *)
Theorem can_annotate_selected
    (ms : list method) (last_line_nr line_nr : Z) (concept : list ascii) :
  can_annotate None last_line_nr line_nr concept = true
  ∧ (can_annotate (Some ms) last_line_nr line_nr concept = true
     ↔ (dist ∈ ms → last_line_nr = -1 ∨ last_line_nr + 200 < line_nr)
       ∧ (stop ∈ ms → concept ∉ THESIS_STOPWORDS)).
Proof.
  split; [done |]. unfold can_annotate, DISTANCE.
  destruct (decide (dist ∈ ms)) as [Hd | Hd], (decide (stop ∈ ms)) as [Hs | Hs].
  - rewrite (bool_decide_eq_true_2 _ Hd), (bool_decide_eq_true_2 _ Hs). simpl.
    rewrite andb_true_iff, orb_true_iff, Z.eqb_eq, Z.ltb_lt, bool_decide_eq_true.
    tauto.
  - rewrite (bool_decide_eq_true_2 _ Hd), (bool_decide_eq_false_2 _ Hs). simpl.
    rewrite orb_true_iff, Z.eqb_eq, Z.ltb_lt. tauto.
  - rewrite (bool_decide_eq_false_2 _ Hd), (bool_decide_eq_true_2 _ Hs). simpl.
    rewrite bool_decide_eq_true. tauto.
  - rewrite (bool_decide_eq_false_2 _ Hd), (bool_decide_eq_false_2 _ Hs). tauto.
Qed.

(** ** Environments that open and close *)

Lemma is_inside_env_positive (m : gmap (list ascii) Z) :
  is_inside_env m = true ↔ ∃ k, 0 < dd_val 0 m k.
Proof.
  rewrite is_inside_env_spec. unfold dd_val. split.
  - intros (k & v & Hk & Hv). exists k. by rewrite Hk.
  - intros (k & Hk). destruct (m !! k) as [v|] eqn:E; simpl in Hk; [| lia].
    by exists k, v.
Qed.

(** Exclusion depends on what the counters read as, not on which keys the
    dictionary holds. *)
Lemma is_inside_env_values (m1 m2 : gmap (list ascii) Z) :
  (∀ k, dd_val 0 m1 k = dd_val 0 m2 k) → is_inside_env m1 = is_inside_env m2.
Proof.
  intros H. apply eq_true_iff_eq. rewrite !is_inside_env_positive.
  split; intros (k & Hk); exists k; [by rewrite <- H | by rewrite H].
Qed.

(** X4.  A line on which the tracker sees the begin and the end of the
    same environment leaves every counter reading what it read before, so
    the line is excluded exactly when the line before it was. *)
Theorem delimiters_on_one_line_cancel
    (line : list ascii) (cnt : gmap (list ascii) Z) (allowed : list (list ascii))
    (g : list ascii) :
  Re.delimiter begin_kw line = Some g → Re.delimiter end_kw line = Some g →
  let cnt' := check_end line (check_begin line cnt allowed) allowed in
  (∀ k, dd_val 0 cnt' k = dd_val 0 cnt k)
  ∧ is_inside_env cnt' = is_inside_env cnt.
Proof.
  intros Hb He cnt'.
  assert (∀ k, dd_val 0 cnt' k = dd_val 0 cnt k) as Hval.
  { intros k. subst cnt'. unfold check_begin, check_end. rewrite Hb, He.
    case_bool_decide as Hg; [done |].
    destruct (decide (g = k)) as [-> | Hne].
    - rewrite !dd_add_val. lia.
    - unfold dd_val. by rewrite !dd_add_other. }
  split; [done | by apply is_inside_env_values].
Qed.

Lemma delimiters_on_one_line_cancel_witness :
  is_inside_env (check_end (ln "\begin{equation} x = 1 \end{equation}")
                   (check_begin (ln "\begin{equation} x = 1 \end{equation}")
                      ∅ [lit "sloppypar"]) [lit "sloppypar"])
  = false.
Proof.
  destruct (delimiters_on_one_line_cancel
              (ln "\begin{equation} x = 1 \end{equation}") ∅ [lit "sloppypar"]
              (lit "equation")) as [_ H]; [reflexivity .. |].
  rewrite H. reflexivity.
Defined.

Section EnvironmentBody.

Variables (allowed : list (list ascii)) (methods : option (list method)).
Variable iter_long : list ascii → list match_t.

Lemma process_line_skipped line_nr line f cnt :
  check_end line (check_begin line (count_env f) allowed) allowed = cnt →
  is_inside_env cnt = true →
  process_line allowed methods iter_long line_nr line f
  = Ok (mk_file cnt (last_line f)
          (bump "environment blocks skipped" (stats f)) (written f ++ [line])).
Proof. intros Hcnt Hin. unfold process_line. by rewrite Hcnt, Hin. Qed.

Lemma process_lines_inside body : ∀ line_nr f,
  is_inside_env (count_env f) = true →
  Forall (λ l, Re.delimiter begin_kw l = None ∧ Re.delimiter end_kw l = None)
    body →
  ∃ f', process_lines allowed methods iter_long line_nr body f = Ok f'
    ∧ written f' = written f ++ body
    ∧ last_line f' = last_line f
    ∧ count_env f' = count_env f
    ∧ annotation_distribution (stats f') = annotation_distribution (stats f)
    ∧ dd_val 0 (counters (stats f')) (lit "environment blocks skipped")
      = dd_val 0 (counters (stats f)) (lit "environment blocks skipped")
        + len body
    ∧ ∀ name, name ≠ lit "environment blocks skipped" →
              counters (stats f') !! name = counters (stats f) !! name.
Proof.
  induction body as [|l body IH]; intros line_nr f Hin Hall.
  - exists f. cbn [process_lines]. rewrite app_nil_r. repeat split; try done.
    unfold len. simpl. lia.
  - inversion Hall as [|? ? [Hb He] Hall']; subst.
    cbn [process_lines].
    rewrite (process_line_skipped line_nr l f (count_env f));
      [| unfold check_begin, check_end; by rewrite Hb, He | done].
    cbn [bind].
    destruct (IH (line_nr + 1)
                (mk_file (count_env f) (last_line f)
                   (bump "environment blocks skipped" (stats f))
                   (written f ++ [l])) Hin Hall')
      as (f' & Hf' & Hw & Hl & Hc & Hd & Hs & Ho).
    exists f'. split; [exact Hf' |]. cbn [written last_line count_env stats] in *.
    rewrite Hw, Hl, Hc, Hd, Hs. rewrite <- app_assoc.
    repeat split; try done.
    + unfold bump. cbn [counters]. rewrite dd_add_val.
      unfold len. simpl length. lia.
    + intros name Hname. rewrite Ho by done. unfold bump. cbn [counters].
      by apply dd_add_other.
Qed.

End EnvironmentBody.

(** X5.  The lines of an environment outside the allow-list are copied as
    they are: after a line that begins such an environment (and ends none),
    every following line without a delimiter is written unchanged, whatever
    the matcher finds in it, and counted as skipped. *)
Theorem environment_body_is_copied
    (allowed : list (list ascii)) (methods : option (list method))
    (iter_long : list ascii → list match_t)
    (line_nr : Z) (opening : list ascii) (body : list (list ascii))
    (f : file_state) (g : list ascii) :
  Re.delimiter begin_kw opening = Some g → g ∉ allowed →
  Re.delimiter end_kw opening = None →
  0 ≤ dd_val 0 (count_env f) g →
  Forall (λ l, Re.delimiter begin_kw l = None ∧ Re.delimiter end_kw l = None)
    body →
  ∃ f', process_lines allowed methods iter_long line_nr (opening :: body) f
        = Ok f'
    ∧ written f' = written f ++ opening :: body
    ∧ last_line f' = last_line f
    ∧ count_env f' = <[g := dd_val 0 (count_env f) g + 1]> (count_env f)
    ∧ annotation_distribution (stats f') = annotation_distribution (stats f)
    ∧ dd_val 0 (counters (stats f')) (lit "environment blocks skipped")
      = dd_val 0 (counters (stats f)) (lit "environment blocks skipped")
        + 1 + len body.
Proof.
  intros Hb Hg He Hpos Hbody.
  assert (is_inside_env (<[g := dd_val 0 (count_env f) g + 1]> (count_env f))
          = true) as Hin.
  { apply is_inside_env_spec. eexists g, _. rewrite lookup_insert_eq.
    split; [done | lia]. }
  cbn [process_lines].
  rewrite (process_line_skipped allowed methods iter_long line_nr opening f
             (<[g := dd_val 0 (count_env f) g + 1]> (count_env f)));
    [| | done].
  - cbn [bind].
    destruct (process_lines_inside allowed methods iter_long body (line_nr + 1)
                (mk_file (<[g := dd_val 0 (count_env f) g + 1]> (count_env f))
                   (last_line f)
                   (bump "environment blocks skipped" (stats f))
                   (written f ++ [opening])) Hin Hbody)
      as (f' & Hf' & Hw & Hl & Hc & Hd & Hs & _).
    exists f'. split; [exact Hf' |]. cbn [written last_line count_env stats] in *.
    rewrite Hw, Hl, Hc, Hd, Hs, <- app_assoc. repeat split; try done.
    unfold bump. cbn [counters]. rewrite dd_add_val. lia.
  - unfold check_begin, check_end. rewrite Hb, He.
    by rewrite bool_decide_eq_false_2.
Qed.

Lemma environment_body_is_copied_witness :
  ∃ f', process_lines [lit "sloppypar"] None
          (reference_matcher [(lit "graph", lit "graph")]) 0
          [ln "\begin{figure}"; ln "a graph here"; ln "one more graph"]
          (mk_file ∅ ∅ stats0 []) = Ok f'
    ∧ written f'
      = [ln "\begin{figure}"; ln "a graph here"; ln "one more graph"].
Proof.
  destruct (environment_body_is_copied [lit "sloppypar"] None
              (reference_matcher [(lit "graph", lit "graph")]) 0
              (ln "\begin{figure}") [ln "a graph here"; ln "one more graph"]
              (mk_file ∅ ∅ stats0 []) (lit "figure"))
    as (f' & Hf' & Hw & _).
  - reflexivity.
  - intros Hin. apply list_elem_of_singleton in Hin. discriminate.
  - reflexivity.
  - vm_compute. discriminate.
  - repeat constructor.
  - exists f'. split; [exact Hf' | exact Hw].
Defined.

(** ** What a rewritten file keeps of the original *)

Lemma sublist_insert_annotation line end_index concept :
  line `sublist_of` insert_annotation line end_index concept.
Proof.
  unfold insert_annotation.
  rewrite <- (slice_split line (end_index + 1)) at 1.
  apply sublist_app; [done |]. by apply sublist_inserts_l.
Qed.

Lemma annotate_loop_sublist methods line_nr (matches : list match_t) : ∀ s s',
  annotate_loop methods line_nr matches s = Ok s' →
  line_of s `sublist_of` line_of s'.
Proof.
  induction matches as [|[e [m c]] matches IH]; intros s s'; simpl.
  - by intros [= <-].
  - destruct (annotate_at methods line_nr s _ m c) as [s1|] eqn:Hs1; [| done].
    simpl. intros Hs'. trans (line_of s1); [| by apply IH].
    destruct (annotate_at_outcome _ _ _ _ _ _ _ Hs1)
      as [(Hl & _) | (_ & _ & _ & Hl & _)]; rewrite Hl;
      [done | apply sublist_insert_annotation].
Qed.

Section Kept.

Variables (allowed : list (list ascii)) (methods : option (list method)).
Variable iter_long : list ascii → list match_t.

Lemma process_lines_sublist lines : ∀ line_nr f f',
  process_lines allowed methods iter_long line_nr lines f = Ok f' →
  ∃ out, written f' = written f ++ out ∧ Forall2 sublist lines out.
Proof.
  induction lines as [|line lines IH]; intros line_nr f f'; simpl.
  - intros [= <-]. exists []. by rewrite app_nil_r.
  - destruct (process_line allowed methods iter_long line_nr line f)
      as [f1|] eqn:Hf1; [| done].
    simpl. intros Hf'. destruct (IH _ _ _ Hf') as (out & Hw & Hall).
    assert (∃ l', written f1 = written f ++ [l'] ∧ line `sublist_of` l')
      as (l' & Hw1 & Hsub).
    { unfold process_line in Hf1. destruct (is_inside_env _).
      - injection Hf1 as <-. by exists line.
      - destruct (annotate_loop _ _ _ _) as [s1|] eqn:Hs1; [| done].
        simpl in Hf1. injection Hf1 as <-. exists (line_of s1). split; [done |].
        by apply annotate_loop_sublist in Hs1. }
    exists (l' :: out). rewrite Hw, Hw1, <- app_assoc. split; [done |].
    by constructor.
Qed.

Lemma process_file_sublist lines st out st' :
  process_file allowed methods iter_long lines st = Ok (out, st') →
  Forall2 sublist lines out.
Proof.
  unfold process_file.
  destruct (process_lines _ _ _ _ _ _) as [f1|] eqn:Hf1; [| done].
  simpl. intros [= <- _].
  apply process_lines_sublist in Hf1 as (out & Hw & Hall). simpl in Hw.
  by rewrite Hw.
Qed.

End Kept.

(** X6.  Whatever the matcher reports, a file that is rewritten keeps every
    character of the original in its place: each line written is the line
    read with markers inserted, never with anything removed or changed, and
    as many lines are written as were read. *)
Theorem rewritten_file_keeps_the_text
    (allowed : list (list ascii)) (methods : option (list method))
    (iter_long : list ascii → list match_t)
    (lines : list (list ascii)) (st : stats_t)
    (out : list (list ascii)) (st' : stats_t) :
  process_file allowed methods iter_long lines st = Ok (out, st') →
  Forall2 sublist lines out ∧ length out = length lines.
Proof.
  intros Hfile. apply process_file_sublist in Hfile.
  split; [done |]. symmetry. by eapply Forall2_length.
Qed.

Lemma rewritten_file_keeps_the_text_witness :
  Forall2 sublist [ln "a graph b"; ln "graphs"]
    [ln "a graph\index{graph} b"; ln "graphs"].
Proof.
  eapply (rewritten_file_keeps_the_text [lit "sloppypar"] None
            (reference_matcher [(lit "graph", lit "graph")])
            [ln "a graph b"; ln "graphs"] stats0).
  vm_compute. reflexivity.
Defined.

Section NoMatch.

Variables (allowed : list (list ascii)) (methods : option (list method)).
Variable iter_long : list ascii → list match_t.

Lemma process_lines_no_match lines : ∀ line_nr f,
  Forall (λ l, iter_long l = []) lines →
  ∃ f', process_lines allowed methods iter_long line_nr lines f = Ok f'
    ∧ written f' = written f ++ lines
    ∧ last_line f' = last_line f
    ∧ annotation_distribution (stats f') = annotation_distribution (stats f)
    ∧ ∀ name, name ≠ lit "environment blocks skipped" →
              counters (stats f') !! name = counters (stats f) !! name.
Proof.
  induction lines as [|line lines IH]; intros line_nr f Hall.
  - exists f. cbn [process_lines]. by rewrite app_nil_r.
  - inversion Hall as [|? ? Hline Hall']; subst. cbn [process_lines].
    assert (∃ f1, process_line allowed methods iter_long line_nr line f = Ok f1
              ∧ written f1 = written f ++ [line]
              ∧ last_line f1 = last_line f
              ∧ annotation_distribution (stats f1)
                = annotation_distribution (stats f)
              ∧ ∀ name, name ≠ lit "environment blocks skipped" →
                        counters (stats f1) !! name = counters (stats f) !! name)
      as (f1 & -> & Hw1 & Hl1 & Hd1 & Hc1).
    { unfold process_line. rewrite Hline. destruct (is_inside_env _).
      - eexists. split; [done |]. cbn. repeat split; try done.
        intros name Hname. by apply dd_add_other.
      - eexists. split; [done |]. by cbn. }
    cbn [bind]. destruct (IH (line_nr + 1) f1 Hall')
      as (f' & Hf' & Hw & Hl & Hd & Hc).
    exists f'. split; [done |].
    rewrite Hw, Hw1, Hl, Hl1, Hd, Hd1, <- app_assoc. repeat split; try done.
    intros name Hname. by rewrite Hc, Hc1.
Qed.

End NoMatch.

(** X7.  A file in no line of which the matcher finds anything is written
    back as it was read, and the run does not fail on it: only the count of
    edited files and the count of skipped lines can change. *)
Theorem file_without_matches
    (allowed : list (list ascii)) (methods : option (list method))
    (iter_long : list ascii → list match_t)
    (lines : list (list ascii)) (st : stats_t) :
  Forall (λ l, iter_long l = []) lines →
  ∃ st', process_file allowed methods iter_long lines st = Ok (lines, st')
    ∧ annotation_distribution st' = annotation_distribution st
    ∧ dd_val 0 (counters st') (lit "edited files")
      = dd_val 0 (counters st) (lit "edited files") + 1
    ∧ ∀ name, name ≠ lit "environment blocks skipped" →
              name ≠ lit "edited files" →
              counters st' !! name = counters st !! name.
Proof.
  intros Hall. unfold process_file.
  destruct (process_lines_no_match allowed methods iter_long lines 0
              (mk_file ∅ ∅ (bump "edited files" st) []) Hall)
    as (f' & -> & Hw & _ & Hd & Hc).
  cbn [bind]. exists (stats f'). cbn in Hw, Hd, Hc. rewrite Hw, Hd.
  repeat split.
  - rewrite <- dd_add_val. unfold dd_val. by rewrite Hc.
  - intros name H1 H2. rewrite Hc by done. by apply dd_add_other.
Qed.

Lemma file_without_matches_witness :
  ∃ st', process_file [lit "sloppypar"] None
           (reference_matcher [(lit "foo", lit "foo")])
           hypergraph_fixture stats0 = Ok (hypergraph_fixture, st').
Proof.
  destruct (file_without_matches [lit "sloppypar"] None
              (reference_matcher [(lit "foo", lit "foo")])
              hypergraph_fixture stats0) as (st' & Hst' & _).
  - repeat constructor.
  - by exists st'.
Defined.

(** ** The report adds up *)

Lemma total_frequency_insert_None d k v :
  d !! k = None → total_frequency (<[k := v]> d) = v + total_frequency d.
Proof.
  intros Hk. unfold total_frequency.
  rewrite map_fold_insert_L; [done | intros; lia | done].
Qed.

Lemma total_frequency_insert_Some d k v0 v :
  d !! k = Some v0 →
  total_frequency (<[k := v]> d) = total_frequency d - v0 + v.
Proof.
  intros Hk.
  rewrite <- (insert_delete_eq d k v).
  rewrite total_frequency_insert_None by apply lookup_delete_eq.
  unfold total_frequency at 2.
  rewrite (map_fold_delete_L _ _ k v0 d); [| intros; lia | done].
  fold (total_frequency (delete k d)). lia.
Qed.

Lemma total_frequency_dd_get d k :
  total_frequency (dd_get 0 d k).2 = total_frequency d.
Proof.
  unfold dd_get. destruct (d !! k) eqn:E; [done |]. simpl.
  by rewrite total_frequency_insert_None.
Qed.

Lemma total_frequency_dd_add d k n :
  total_frequency (dd_add 0 d k n) = total_frequency d + n.
Proof.
  unfold dd_add, dd_val. destruct (d !! k) as [v0|] eqn:E; simpl.
  - rewrite (total_frequency_insert_Some d k v0) by done. lia.
  - rewrite total_frequency_insert_None by done. lia.
Qed.

Lemma bump_same name st :
  dd_val 0 (counters (bump name st)) (lit name)
  = dd_val 0 (counters st) (lit name) + 1.
Proof. apply dd_add_val. Qed.

Lemma bump_other name name' st :
  lit name ≠ name' →
  dd_val 0 (counters (bump name st)) name' = dd_val 0 (counters st) name'.
Proof. intros. by apply dd_add_one_other. Qed.

Lemma bump_distribution name st :
  annotation_distribution (bump name st) = annotation_distribution st.
Proof. done. Qed.

(** By how much the count of indexed matches exceeds the sum of the
    frequencies. *)
Lemma annotate_at_balance methods line_nr s end_index mtch concept s' :
  annotate_at methods line_nr s end_index mtch concept = Ok s' →
  dd_val 0 (counters (stats_of s')) (lit "indexed matches")
  - total_frequency (annotation_distribution (stats_of s'))
  = dd_val 0 (counters (stats_of s)) (lit "indexed matches")
    - total_frequency (annotation_distribution (stats_of s)).
Proof.
  unfold annotate_at.
  destruct (invalid_match _ _ _ _).
  { intros [= <-]. cbn [stats_of].
    by rewrite bump_other, bump_distribution. }
  pose proof (total_frequency_dd_get
                (annotation_distribution (stats_of s)) concept) as Hd.
  destruct (dd_get 0 _ concept) as [freq d]. cbn [snd] in Hd.
  destruct (word_boundaries _ _ _) as [[] |]; cbn [bind]; [| | done].
  - destruct (dd_get (-1) _ concept) as [nr ll].
    destruct (can_annotate methods nr line_nr concept).
    + intros [= <-]. unfold bump.
      cbn [stats_of counters annotation_distribution].
      rewrite dd_add_val, total_frequency_dd_add. lia.
    + intros [= <-]. cbn [stats_of counters annotation_distribution]. lia.
  - intros [= <-]. cbn [stats_of counters annotation_distribution]. lia.
Qed.

Lemma annotate_loop_balance methods line_nr (matches : list match_t) : ∀ s s',
  annotate_loop methods line_nr matches s = Ok s' →
  dd_val 0 (counters (stats_of s')) (lit "indexed matches")
  - total_frequency (annotation_distribution (stats_of s'))
  = dd_val 0 (counters (stats_of s)) (lit "indexed matches")
    - total_frequency (annotation_distribution (stats_of s)).
Proof.
  induction matches as [|[e [m c]] matches IH]; intros s s';
    cbn [annotate_loop]; unfold annotate_step.
  - by intros [= <-].
  - destruct (annotate_at methods line_nr s _ m c) as [s1|] eqn:Hs1; [| done].
    cbn [bind]. intros Hs'. rewrite (IH _ _ Hs'). by eapply annotate_at_balance.
Qed.

Section Balance.

Variables (allowed : list (list ascii)) (methods : option (list method)).
Variable iter_long : list ascii → list match_t.

Lemma process_lines_balance lines : ∀ line_nr f f',
  process_lines allowed methods iter_long line_nr lines f = Ok f' →
  dd_val 0 (counters (stats f')) (lit "indexed matches")
  - total_frequency (annotation_distribution (stats f'))
  = dd_val 0 (counters (stats f)) (lit "indexed matches")
    - total_frequency (annotation_distribution (stats f)).
Proof.
  induction lines as [|line lines IH]; intros line_nr f f';
    cbn [process_lines].
  - by intros [= <-].
  - destruct (process_line allowed methods iter_long line_nr line f)
      as [f1|] eqn:Hf1; [| done].
    cbn [bind]. intros Hf'. rewrite (IH _ _ _ Hf').
    unfold process_line in Hf1. destruct (is_inside_env _).
    + injection Hf1 as <-. cbn [stats].
      by rewrite bump_other, bump_distribution.
    + destruct (annotate_loop _ _ _ _) as [s1|] eqn:Hs1; [| done].
      cbn [bind] in Hf1. injection Hf1 as <-. cbn [stats].
      by apply annotate_loop_balance in Hs1.
Qed.

Lemma process_files_balance files : ∀ st outs st',
  process_files allowed methods iter_long files st = Ok (outs, st') →
  dd_val 0 (counters st') (lit "indexed matches")
  - total_frequency (annotation_distribution st')
  = dd_val 0 (counters st) (lit "indexed matches")
    - total_frequency (annotation_distribution st).
Proof.
  induction files as [|lines files IH]; intros st outs st';
    cbn [process_files].
  - by intros [= _ <-].
  - unfold process_file.
    destruct (process_lines _ _ _ _ _ _) as [f1|] eqn:Hf1; [| done].
    cbn [bind].
    destruct (process_files _ _ _ files (stats f1)) as [[outs1 st1]|] eqn:Hrest;
      [| done].
    cbn [bind]. intros [= _ <-]. rewrite (IH _ _ _ Hrest).
    apply process_lines_balance in Hf1. rewrite Hf1. cbn [stats].
    by rewrite bump_other, bump_distribution.
Qed.

End Balance.

(** X8.  The report adds up: over a run that starts with the count of
    indexed matches equal to the sum of the frequencies of the distribution
    (both are zero when the program starts), the count of indexed matches
    at the end is the sum of the per-concept frequencies. *)
Theorem indexed_matches_is_the_sum
    (allowed : list (list ascii)) (methods : option (list method))
    (iter_long : list ascii → list match_t)
    (files : list (list (list ascii))) (st : stats_t)
    (outs : list (list (list ascii))) (st' : stats_t) :
  dd_val 0 (counters st) (lit "indexed matches")
  = total_frequency (annotation_distribution st) →
  process_files allowed methods iter_long files st = Ok (outs, st') →
  dd_val 0 (counters st') (lit "indexed matches")
  = total_frequency (annotation_distribution st').
Proof.
  intros Hst Hrun. apply process_files_balance in Hrun. lia.
Qed.

Lemma indexed_matches_is_the_sum_witness :
  let st' := mk_stats {[ lit "edited files" := 2; lit "indexed matches" := 3 ]}
                      {[ lit "graph" := 2; lit "vertex" := 1 ]} in
  dd_val 0 (counters st') (lit "indexed matches")
  = total_frequency (annotation_distribution st').
Proof.
  intros st'.
  apply (indexed_matches_is_the_sum [lit "sloppypar"] None
           (reference_matcher [(lit "graph", lit "graph"); (lit "node", lit "vertex")])
           [[ln "a graph has a node."]; [ln "one more graph."]] stats0
           [[ln "a graph\index{graph} has a node\index{vertex}."];
            [ln "one more graph\index{graph}."]] st').
  - vm_compute. reflexivity.
  - vm_compute. reflexivity.
Defined.

(** ** One marker per concept and line under the distance policy *)

Lemma annotation_inj c1 c2 : annotation c1 = annotation c2 → c1 = c2.
Proof.
  unfold annotation. intros H. apply app_inv_head in H.
  by apply app_inv_tail in H.
Qed.

Lemma annotated_matches_distance (ms : list method) (line_nr : Z)
    (matches : list match_t) : ∀ s,
  dist ∈ ms → 0 ≤ line_nr →
  NoDup (annotated_matches (Some ms) line_nr matches s).*2
  ∧ ∀ c, annotation c ∈ (annotated_matches (Some ms) line_nr matches s).*2 →
         dd_val (-1) (last_line_of s) c ≠ line_nr.
Proof.
  intros s Hd Hnr. revert s.
  induction matches as [|[e [m c]] matches IH]; intros s; simpl.
  - split; [constructor | intros c Hc; by apply elem_of_nil in Hc].
  - destruct (annotate_at (Some ms) line_nr s _ m c) as [s1|] eqn:Hs1;
      [| split; [constructor | intros c' Hc'; by apply elem_of_nil in Hc']].
    destruct (IH s1) as (Hnodup & Hfresh).
    destruct (annotate_at_outcome _ _ _ _ _ _ _ Hs1)
      as [(_ & Ht & Hll) | (_ & _ & Hcan & _ & Ht & Hll)].
    + rewrite Ht, Z.eqb_refl. simpl. split; [done |].
      intros c' Hc'. rewrite <- Hll. by apply Hfresh.
    + assert ((total_annotation_length s1 =? total_annotation_length s) = false)
        as ->.
      { apply Z.eqb_neq. rewrite Ht, len_annotation.
        pose proof (len_nonneg c). lia. }
      simpl.
      assert (dd_val (-1) (last_line_of s) c ≠ line_nr) as Hc.
      { apply can_annotate_accepted in Hcan as [Hdist _].
        destruct (Hdist Hd) as [-> | Hlt]; lia. }
      split.
      * constructor; [| done]. intros Hin. apply Hfresh in Hin.
        rewrite Hll, bool_decide_eq_true_2 in Hin; done.
      * intros c' Hc'. apply elem_of_cons in Hc' as [Heq | Hin].
        -- apply annotation_inj in Heq. by subst c'.
        -- pose proof (Hfresh c' Hin) as Hne. rewrite Hll in Hne.
           case_bool_decide; [done | done].
Qed.

(** X9.  With the distance policy selected, a line receives at most one
    marker for a concept, however often the concept matches on it: the
    markers of the matches annotated on one line are pairwise different. *)
Theorem one_marker_per_concept_and_line
    (ms : list method) (line_nr : Z) (matches : list match_t) (s : loop_state) :
  dist ∈ ms → 0 ≤ line_nr →
  NoDup (annotated_matches (Some ms) line_nr matches s).*2.
Proof.
  intros Hd Hnr. by apply annotated_matches_distance.
Qed.

Lemma one_marker_per_concept_and_line_witness :
  let line := ln "a graph is a graph." in
  annotated_matches (Some [dist]) 0
    (reference_matcher [(lit "graph", lit "graph")] line)
    (mk_loop line 0 stats0 ∅)
  = [(6, annotation (lit "graph"))]
  ∧ NoDup (annotated_matches (Some [dist]) 0
             (reference_matcher [(lit "graph", lit "graph")] line)
             (mk_loop line 0 stats0 ∅)).*2.
Proof.
  intros line. split; [vm_compute; reflexivity |].
  apply (one_marker_per_concept_and_line [dist] 0
           (reference_matcher [(lit "graph", lit "graph")] line)
           (mk_loop line 0 stats0 ∅)); [by constructor | lia].
Defined.


(** * Properties of the extractor *)

(** ** The section of the text that is kept *)

Section SelectText.

Variables from_title to_title : list ascii.
Let from_line := from_title ++ [Re.newline].
Let to_line := to_title ++ [Re.newline].

Lemma select_text_stop ignore text lines :
  select_text from_title to_title ignore text (to_line :: lines) = text.
Proof.
  cbn [select_text]. fold to_line.
  by rewrite (bool_decide_eq_true_2 (to_line = to_line)).
Qed.

Lemma select_text_ignored skipped : ∀ text lines,
  from_line ∉ skipped → to_line ∉ skipped →
  select_text from_title to_title true text (skipped ++ lines)
  = select_text from_title to_title true text lines.
Proof.
  induction skipped as [|l skipped IH]; intros text lines Hf Ht; [done |].
  rewrite not_elem_of_cons in Hf, Ht. destruct Hf as [Hf1 Hf], Ht as [Ht1 Ht].
  cbn [app select_text]. fold from_line to_line.
  rewrite (bool_decide_eq_false_2 (l = from_line)) by congruence.
  rewrite (bool_decide_eq_false_2 (l = to_line)) by congruence.
  by apply IH.
Qed.

Lemma select_text_kept kept : ∀ text lines,
  to_line ∉ kept →
  select_text from_title to_title false text (kept ++ lines)
  = select_text from_title to_title false (text ++ concat kept) lines.
Proof.
  induction kept as [|l kept IH]; intros text lines Ht.
  - simpl. by rewrite app_nil_r.
  - rewrite not_elem_of_cons in Ht. destruct Ht as [Ht1 Ht].
    cbn [app select_text concat]. fold from_line to_line.
    rewrite (bool_decide_eq_false_2 (l = to_line)) by congruence.
    assert ((if bool_decide (l = from_line) then false else false) = false)
      as -> by (by destruct (bool_decide _)).
    rewrite IH by done. by rewrite <- app_assoc.
Qed.

Lemma select_text_same_title lines :
  from_title = to_title →
  select_text from_title to_title true [] lines = [].
Proof.
  intros Heq. induction lines as [|l lines IH]; [done |].
  cbn [select_text]. fold from_line to_line.
  destruct (decide (l = to_line)) as [-> | Hne].
  - by rewrite (bool_decide_eq_true_2 (to_line = to_line)).
  - rewrite (bool_decide_eq_false_2 (l = to_line)) by done.
    rewrite (bool_decide_eq_false_2 (l = from_line))
      by (subst from_line to_line; congruence).
    apply IH.
Qed.

End SelectText.

(** X10.  The text kept is that of the lines from the first start title up
    to, and without, the first end title after it; the start title's own
    line is kept.  Nothing is kept when the end title comes first, when the
    start title never comes, or when both titles are the same. *)
Theorem select_text_section
    (from_title to_title : list ascii)
    (before kept after : list (list ascii)) :
  let from_line := from_title ++ [Re.newline] in
  let to_line := to_title ++ [Re.newline] in
  from_line ∉ before → to_line ∉ before → to_line ∉ kept →
  (from_title ≠ to_title →
   select_text from_title to_title true []
     (before ++ from_line :: kept ++ to_line :: after)
   = from_line ++ concat kept
   ∧ select_text from_title to_title true [] (before ++ from_line :: kept)
     = from_line ++ concat kept)
  ∧ select_text from_title to_title true [] (before ++ to_line :: after) = []
  ∧ select_text from_title to_title true [] before = []
  ∧ (from_title = to_title →
     ∀ lines, select_text from_title to_title true [] lines = []).
Proof.
  intros from_line to_line Hf Ht Hk. split; [| split; [| split]].
  - intros Hne.
    assert (from_line ≠ to_line) as Hne'
      by (subst from_line to_line; intros H; by apply app_inv_tail in H).
    assert (∀ rest,
              select_text from_title to_title true [] (from_line :: rest)
              = select_text from_title to_title false from_line rest) as Hstart.
    { intros rest. cbn [select_text]. fold from_line to_line.
      rewrite (bool_decide_eq_true_2 (from_line = from_line)) by done.
      by rewrite (bool_decide_eq_false_2 (from_line = to_line)). }
    split.
    + rewrite select_text_ignored, Hstart by done.
      rewrite select_text_kept by done. apply select_text_stop.
    + rewrite select_text_ignored, Hstart by done.
      rewrite <- (app_nil_r kept) at 1. by rewrite select_text_kept.
  - rewrite select_text_ignored by done. apply select_text_stop.
  - rewrite <- (app_nil_r before). by rewrite select_text_ignored.
  - intros Heq lines. by apply select_text_same_title.
Qed.

Lemma select_text_section_witness :
  select_text (lit "Introduction") (lit "Appendix") true []
    [ln "Title"; ln "Introduction"; ln "We index graphs."; ln "Appendix";
     ln "Tables"]
  = ln "Introduction" ++ ln "We index graphs.".
Proof.
  destruct (select_text_section (lit "Introduction") (lit "Appendix")
              [ln "Title"] [ln "We index graphs."] [ln "Tables"])
    as ([H _] & _).
  - intros Hin. apply list_elem_of_singleton in Hin. discriminate.
  - intros Hin. apply list_elem_of_singleton in Hin. discriminate.
  - intros Hin. apply list_elem_of_singleton in Hin. discriminate.
  - discriminate.
  - exact H.
Defined.

(** ** Blank lines and bracketed text *)

Lemma short_runs_no_triple pre post : ∀ k,
  ¬ short_runs k (pre ++ Re.newline :: Re.newline :: Re.newline :: post).
Proof.
  induction pre as [|c pre IH]; intros k; simpl.
  - lia.
  - case_bool_decide; [intros [_ Hrest]; by apply IH in Hrest | apply IH].
Qed.

Lemma squeeze_newlines_short_runs s :
  short_runs 0 (squeeze_newlines false s)
  ∧ short_runs 2 (squeeze_newlines true s).
Proof.
  induction s as [|c s [IH0 IH2]]; [done |]. cbn [squeeze_newlines].
  case_bool_decide as Hc.
  - subst c. split; [| done]. destruct s as [|c' s].
    { simpl. lia. }
    case_bool_decide as Hc'.
    + subst c'. simpl. repeat split; try lia. exact IH2.
    + simpl. split; [lia |].
      cbn [squeeze_newlines] in IH0 |- *.
      rewrite (bool_decide_eq_false_2 (c' = Re.newline)) in IH0 |- * by done.
      cbn [short_runs] in IH0 |- *.
      by rewrite (bool_decide_eq_false_2 (c' = Re.newline)) in IH0 |- * by done.
  - cbn [short_runs]. rewrite bool_decide_eq_false_2 by done. by split.
Qed.

Lemma squeeze_newlines_other s : ∀ in_run,
  List.filter (λ c, negb (bool_decide (c = Re.newline)))
    (squeeze_newlines in_run s)
  = List.filter (λ c, negb (bool_decide (c = Re.newline))) s.
Proof.
  induction s as [|c s IH]; intros in_run; [done |]. cbn [squeeze_newlines].
  case_bool_decide as Hc.
  - subst c. cbn [List.filter]. rewrite bool_decide_eq_true_2 by done.
    cbn [negb]. destruct in_run; [apply IH |].
    destruct s as [|c' s]; [done |].
    case_bool_decide as Hc'.
    + cbn [List.filter]. rewrite bool_decide_eq_true_2 by done. cbn [negb].
      apply IH.
    + cbn [List.filter]. rewrite bool_decide_eq_true_2 by done. cbn [negb].
      apply IH.
  - cbn [List.filter]. rewrite bool_decide_eq_false_2 by done. cbn [negb].
    by rewrite IH.
Qed.

Lemma squeeze_newlines_fixed s :
  (short_runs 0 s → squeeze_newlines false s = s)
  ∧ (short_runs 2 s → squeeze_newlines true s = s)
  ∧ (short_runs 1 s → ∀ s1, s = Re.newline :: s1 → squeeze_newlines true s = s1).
Proof.
  induction s as [|c s (IH0 & IH2 & IH1)]; [by repeat split |].
  cbn [squeeze_newlines short_runs]. case_bool_decide as Hc.
  - subst c. split; [| split].
    + intros [_ H1]. destruct s as [|c' s]; [done |].
      case_bool_decide as Hc'.
      * subst c'. by rewrite (IH1 H1 s).
      * f_equal. apply IH0. cbn [short_runs] in H1 |- *.
        by rewrite (bool_decide_eq_false_2 (c' = Re.newline)) in H1 |- * by done.
    + intros [H _]. lia.
    + intros [_ H2] s1 [= <-]. by apply IH2.
  - split; [| split].
    + intros H0. f_equal. by apply IH0.
    + intros H0. f_equal. by apply IH0.
    + intros _ s1 [= ? _]. congruence.
Qed.

(** X11.  After the blank lines are squeezed the text has no three
    newlines in a row, every other character is where it was, and
    squeezing again changes nothing. *)
Theorem squeeze_newlines_squeezed (text : list ascii) :
  let squeezed := squeeze_newlines false text in
  (∀ pre post,
      squeezed ≠ pre ++ Re.newline :: Re.newline :: Re.newline :: post)
  ∧ List.filter (λ c, negb (bool_decide (c = Re.newline))) squeezed
    = List.filter (λ c, negb (bool_decide (c = Re.newline))) text
  ∧ squeeze_newlines false squeezed = squeezed.
Proof.
  intros squeezed.
  pose proof (proj1 (squeeze_newlines_short_runs text)) as Hruns.
  fold squeezed in Hruns. split; [| split].
  - intros pre post Heq. rewrite Heq in Hruns.
    by apply short_runs_no_triple in Hruns.
  - apply squeeze_newlines_other.
  - by apply squeeze_newlines_fixed.
Qed.

Lemma has_closing_stripped s :
  has_closing s = false → has_closing (strip_brackets false s) = false.
Proof.
  induction s as [|c s IH]; [done |]. cbn [has_closing strip_brackets].
  case_bool_decide as Hc; [done |].
  case_bool_decide as Hn.
  - intros _. by subst c.
  - intros Hs. rewrite Hs, andb_false_r. cbn [has_closing].
    rewrite (bool_decide_eq_false_2 (c = close_bracket)) by done.
    rewrite (bool_decide_eq_false_2 (c = Re.newline)) by done.
    by apply IH.
Qed.

Lemma strip_brackets_no_span s : ∀ inside pre post,
  strip_brackets inside s = pre ++ open_bracket :: post →
  has_closing post = false.
Proof.
  induction s as [|c s IH]; intros inside pre post; cbn [strip_brackets].
  - by destruct pre.
  - destruct inside.
    + case_bool_decide; apply IH.
    + destruct (bool_decide (c = open_bracket) && has_closing s) eqn:E;
        [apply IH |].
      destruct pre as [|c' pre].
      * intros [= -> <-]. rewrite bool_decide_eq_true_2 in E by done.
        simpl in E. by apply has_closing_stripped.
      * intros [= _ H]. by apply IH in H.
Qed.

Lemma strip_brackets_sublist s : ∀ inside,
  strip_brackets inside s `sublist_of` s.
Proof.
  induction s as [|c s IH]; intros inside; cbn [strip_brackets]; [done |].
  destruct inside.
  - case_bool_decide; by apply sublist_cons.
  - destruct (_ && _); [by apply sublist_cons | by apply sublist_skip].
Qed.

Lemma strip_brackets_fixed s :
  (∀ pre post, s = pre ++ open_bracket :: post → has_closing post = false) →
  strip_brackets false s = s.
Proof.
  induction s as [|c s IH]; intros Hs; [done |]. cbn [strip_brackets].
  assert (bool_decide (c = open_bracket) && has_closing s = false) as ->.
  { case_bool_decide as Hc; [| done]. subst c. simpl. by apply (Hs []). }
  f_equal. apply IH. intros pre post ->. by apply (Hs (c :: pre)).
Qed.

(** X12.  Removing the bracketed text only removes: what is left is the
    text without some of its characters, in order.  No opening bracket that
    is left has a closing bracket after it on its line, and removing again
    changes nothing. *)
Theorem strip_brackets_stripped (text : list ascii) :
  let stripped := strip_brackets false text in
  stripped `sublist_of` text
  ∧ (∀ pre post, stripped = pre ++ open_bracket :: post →
                 has_closing post = false)
  ∧ strip_brackets false stripped = stripped.
Proof.
  intros stripped. split; [apply strip_brackets_sublist |].
  assert (∀ pre post, stripped = pre ++ open_bracket :: post →
                      has_closing post = false) as H
    by (intros pre post; apply strip_brackets_no_span).
  split; [done | by apply strip_brackets_fixed].
Qed.

(** ** What is taken from the rankers *)

Section Rake.

Context {W : Type} (above_one : W → bool).

Lemma rake_loop_take (concepts : list (list ascii * W))
    (exclude : gset (list ascii)) (number : Z) : ∀ count,
  rake_loop above_one concepts exclude number count
  = List.filter (λ kw, above_one kw.2 && bool_decide (kw.1 ∉ exclude))
      (take (Z.to_nat (number - count)) concepts).
Proof.
  induction concepts as [|[keyword weight] concepts IH]; intros count.
  - by rewrite take_nil.
  - cbn [rake_loop]. rewrite IH.
    destruct (Z.ltb_spec count number) as [Hlt | Hge].
    + replace (Z.to_nat (number - count))
        with (S (Z.to_nat (number - (count + 1)))) by lia.
      cbn [take firstn List.filter fst snd]. rewrite andb_true_r.
      by destruct (above_one weight && bool_decide (keyword ∉ exclude)).
    + rewrite andb_false_r, andb_false_l.
      replace (Z.to_nat (number - count)) with 0%nat by lia.
      replace (Z.to_nat (number - (count + 1))) with 0%nat by lia.
      done.
Qed.

End Rake.

(** X13.  Of what RAKE returns, only the first [number] candidates are
    looked at, and of those the ones with a weight above one and a keyword
    that is not excluded are kept, in order: [number] bounds the candidates
    examined, not the concepts returned, and a [number] of zero or less
    returns nothing. *)
Theorem rake_keeps_from_the_first
    {W : Type} (above_one : W → bool) (concepts : list (list ascii * W))
    (exclude : gset (list ascii)) (number : Z) :
  rake_extract_concepts above_one concepts exclude number
  = List.filter (λ kw, above_one kw.2 && bool_decide (kw.1 ∉ exclude))
      (take (Z.to_nat number) concepts)
  ∧ (length (rake_extract_concepts above_one concepts exclude number)
     ≤ Z.to_nat number)%nat
  ∧ (number ≤ 0 → rake_extract_concepts above_one concepts exclude number = []).
Proof.
  assert (rake_extract_concepts above_one concepts exclude number
          = List.filter (λ kw, above_one kw.2 && bool_decide (kw.1 ∉ exclude))
              (take (Z.to_nat number) concepts)) as Heq.
  { unfold rake_extract_concepts. rewrite rake_loop_take. by rewrite Z.sub_0_r. }
  split; [done |]. split.
  - rewrite Heq. etrans; [apply filter_length_le |].
    rewrite length_take. lia.
  - intros Hn. rewrite Heq.
    by replace (Z.to_nat number) with 0%nat by lia.
Qed.

(** ** Named entities of a sentence *)

Lemma chunks_loop_NoDup chunked : ∀ continuous current,
  NoDup continuous → NoDup (chunks_loop chunked continuous current).1.
Proof.
  induction chunked as [|[leaves|] chunked IH]; intros continuous current Hnd;
    cbn [chunks_loop]; [done | by apply IH |].
  destruct current as [|c current]; [by apply IH |].
  case_bool_decide as Hin; [| by apply IH].
  apply IH. apply NoDup_app. split; [done |]. split.
  - intros x Hx Hx'. apply list_elem_of_singleton in Hx'. by subst x.
  - apply NoDup_singleton.
Qed.

(** X14.  No named entity is returned twice. *)
Theorem get_continuous_chunks_NoDup (chunked : list chunk) :
  NoDup (get_continuous_chunks chunked).
Proof.
  unfold get_continuous_chunks.
  pose proof (chunks_loop_NoDup chunked [] [] (NoDup_nil_2)) as Hnd.
  destruct (chunks_loop chunked [] []) as [continuous current].
  simpl in Hnd. destruct continuous as [|c continuous]; [done |].
  case_bool_decide as Hin; [| done].
  apply NoDup_app. split; [done |]. split.
  - intros x Hx Hx'. apply list_elem_of_singleton in Hx'. by subst x.
  - apply NoDup_singleton.
Qed.

Lemma chunks_loop_trees (run : list (list (list ascii))) : ∀ rest continuous current,
  chunks_loop (map Tree run ++ rest) continuous current
  = chunks_loop rest continuous (current ++ map (join (lit " ")) run).
Proof.
  induction run as [|leaves run IH]; intros rest continuous current.
  - simpl. by rewrite app_nil_r.
  - cbn [map app chunks_loop]. rewrite IH. by rewrite <- app_assoc.
Qed.

Lemma chunks_loop_others n : ∀ rest continuous,
  chunks_loop (replicate n Other ++ rest) continuous []
  = chunks_loop rest continuous [].
Proof. induction n as [|n IH]; intros rest continuous; [done | apply IH]. Qed.

(** The name of a run of trees: the names of the trees joined by spaces. *)
Lemma chunks_loop_run (run : list (list (list ascii))) rest continuous :
  run ≠ [] →
  join (lit " ") (map (join (lit " ")) run) ∉ continuous →
  chunks_loop (map Tree run ++ Other :: rest) continuous []
  = chunks_loop rest
      (continuous ++ [join (lit " ") (map (join (lit " ")) run)]) [].
Proof.
  intros Hrun Hin. rewrite chunks_loop_trees. cbn [app chunks_loop].
  destruct (map (join (lit " ")) run) as [|name names] eqn:E.
  { by destruct run. }
  by rewrite bool_decide_eq_true_2.
Qed.

Lemma chunks_loop_sentence runs : ∀ rest continuous,
  Forall (λ rg : list (list (list ascii)) * nat, rg.1 ≠ []) runs →
  NoDup (continuous ++ map (λ rg, run_name rg.1) runs) →
  chunks_loop (sentence_of runs ++ rest) continuous []
  = chunks_loop rest (continuous ++ map (λ rg, run_name rg.1) runs) [].
Proof.
  induction runs as [|[run gap] runs IH]; intros rest continuous Hall Hnd.
  - simpl. by rewrite app_nil_r.
  - inversion Hall as [|? ? Hrun Hall']; subst. simpl in Hrun.
    unfold sentence_of. cbn [flat_map fst snd replicate map].
    fold (sentence_of runs). rewrite <- !app_assoc. cbn [app].
    rewrite chunks_loop_run; [| done |].
    + rewrite chunks_loop_others. rewrite IH; [| done |].
      * by rewrite <- app_assoc.
      * by rewrite <- app_assoc.
    + fold (run_name run). apply NoDup_app in Hnd as (_ & Hdis & _).
      intros Hin. apply (Hdis _ Hin). by left.
Qed.

(** X15.  In a sentence whose runs of entities have different names, each
    run followed by an ordinary token gives one entry, the trees of the run
    joined by spaces.  After the last such run an empty entry is appended,
    unless the sentence ends with one more run, which then gives the last
    entry.  A sentence whose only entities are at its very end gives
    nothing at all. *)
Theorem get_continuous_chunks_runs
    (lead : nat) (runs : list (list (list (list ascii)) * nat))
    (final : list (list (list ascii))) :
  let names := map (λ rg, run_name rg.1) runs in
  Forall (λ rg : list (list (list ascii)) * nat, rg.1 ≠ []) runs →
  NoDup names →
  (runs ≠ [] → [] ∉ names →
   get_continuous_chunks (replicate lead Other ++ sentence_of runs)
   = names ++ [[]])
  ∧ (runs ≠ [] → final ≠ [] → run_name final ∉ names →
     get_continuous_chunks
       (replicate lead Other ++ sentence_of runs ++ map Tree final)
     = names ++ [run_name final])
  ∧ get_continuous_chunks (replicate lead Other ++ map Tree final) = [].
Proof.
  intros names Hall Hnd.
  assert (∀ rest,
            chunks_loop (replicate lead Other ++ sentence_of runs ++ rest) [] []
            = chunks_loop rest names []) as Hruns.
  { intros rest. rewrite chunks_loop_others.
    by rewrite chunks_loop_sentence. }
  assert (names = [] → runs = []) as Hnames
    by (subst names; by destruct runs).
  split; [| split].
  - intros Hne Hempty. unfold get_continuous_chunks.
    rewrite <- (app_nil_r (sentence_of runs)), Hruns. cbn [chunks_loop].
    destruct names as [|name names'] eqn:E; [by destruct Hne; apply Hnames |].
    cbn [join]. by rewrite bool_decide_eq_true_2.
  - intros Hne Hfinal Hin. unfold get_continuous_chunks.
    rewrite Hruns. rewrite <- (app_nil_r (map Tree final)), chunks_loop_trees.
    cbn [chunks_loop app].
    destruct names as [|name names'] eqn:E; [by destruct Hne; apply Hnames |].
    fold (run_name final). by rewrite bool_decide_eq_true_2.
  - unfold get_continuous_chunks. rewrite chunks_loop_others.
    rewrite <- (app_nil_r (map Tree final)), chunks_loop_trees.
    by cbn [chunks_loop app].
Qed.

Lemma get_continuous_chunks_runs_witness :
  get_continuous_chunks
    [Other; Tree [lit "New"; lit "York"]; Tree [lit "City"]; Other;
     Tree [lit "Porto"]; Other; Other]
  = [lit "New York City"; lit "Porto"; lit ""]
  ∧ get_continuous_chunks [Other; Tree [lit "Porto"]] = [].
Proof.
  destruct (get_continuous_chunks_runs 1
              [([[lit "New"; lit "York"]; [lit "City"]], 0%nat);
               ([[lit "Porto"]], 1%nat)]
              [[lit "Porto"]]) as (H1 & _ & H3).
  - repeat constructor; discriminate.
  - vm_compute. apply NoDup_cons. split; [| apply NoDup_singleton].
    intros Hin. apply list_elem_of_singleton in Hin. discriminate.
  - split; [| exact H3]. apply H1; [discriminate |].
    vm_compute. intros Hin.
    apply elem_of_cons in Hin as [Hin | Hin]; [discriminate |].
    apply list_elem_of_singleton in Hin. discriminate.
Defined.

(** ** The concept table *)

Local Set Warnings "-clear-no-such-hyp".

Section Table.

Context {W : Type}.
Implicit Types (concepts : list (list ascii * W)) (t : table_state W).

Lemma write_concepts_batch concepts : ∀ t,
  select t = false →
  write_concepts concepts t
  = Answered
      (mk_table false (added t)
         (rows t ++ map (λ cw, Row cw.1 cw.1 cw.2)
                      (List.filter (λ cw, bool_decide (cw.1 ∉ added t)) concepts))
         (inputs t)).
Proof.
  induction concepts as [|[c w] concepts IH]; intros [sel add out ins] Hsel;
    simpl in Hsel; subst sel.
  - simpl. by rewrite app_nil_r.
  - cbn [write_concepts List.filter added select rows inputs fst snd].
    case_bool_decide as Hc.
    + rewrite bool_decide_eq_false_2 by tauto. by rewrite IH.
    + rewrite bool_decide_eq_true_2 by done. rewrite IH by done.
      cbn [added rows inputs map]. unfold write_rows. cbn [map].
      by rewrite <- app_assoc.
Qed.

Lemma ask_keep ans answers concept matches (weight : W) add out :
  keeps ans → concept ∉ add →
  ask (ans :: answers) concept matches weight add out
  = Answered (mk_table true ({[concept]} ∪ add)
                (write_rows concept matches weight out) answers).
Proof.
  intros [-> | ->] Hc; cbn [ask].
  - rewrite (bool_decide_eq_false_2 (lit "k" = lit "a")) by discriminate.
    rewrite (bool_decide_eq_false_2 (lit "k" = lit "d")) by discriminate.
    rewrite (bool_decide_eq_false_2 (lit "k" = lit "e")) by discriminate.
    rewrite (bool_decide_eq_false_2 (lit "k" = lit "w")) by discriminate.
    rewrite (bool_decide_eq_true_2 (lit "k" = lit "k")) by done.
    cbn [orb]. by rewrite bool_decide_eq_false_2.
  - rewrite (bool_decide_eq_false_2 ([] = lit "a")) by discriminate.
    rewrite (bool_decide_eq_false_2 ([] = lit "d")) by discriminate.
    rewrite (bool_decide_eq_false_2 ([] = lit "e")) by discriminate.
    rewrite (bool_decide_eq_false_2 ([] = lit "w")) by discriminate.
    rewrite (bool_decide_eq_false_2 ([] = lit "k")) by discriminate.
    rewrite (bool_decide_eq_true_2 ([] = [])) by done.
    cbn [orb]. by rewrite bool_decide_eq_false_2.
Qed.

Lemma write_concepts_keep concepts : ∀ t kept rest,
  select t = true →
  Forall keeps kept →
  inputs t = kept ++ rest →
  (length (keep_first (added t) concepts) = length kept →
   write_concepts concepts t
   = Answered
       (mk_table true
          (list_to_set (keep_first (added t) concepts).*1 ∪ added t)
          (rows t ++ map (λ cw, Row cw.1 cw.1 cw.2)
                       (keep_first (added t) concepts))
          rest))
  ∧ (rest = [] → (length kept < length (keep_first (added t) concepts))%nat →
     write_concepts concepts t = EOFError).
Proof.
  induction concepts as [|[c w] concepts IH]; intros [sel add out ins] kept rest Hsel Hk Hin;
    simpl in Hsel, Hin; subst sel ins;
    cbn [write_concepts keep_first added select rows inputs].
  - split.
    + intros Hlen. destruct kept; [| done]. simpl.
      rewrite app_nil_r. f_equal. f_equal. set_solver.
    + simpl. lia.
  - case_bool_decide as Hc.
    + by apply (IH (mk_table true add out (kept ++ rest)) kept rest).
    + destruct kept as [|ans kept].
      * split; [done |]. intros -> _. done.
      * inversion Hk as [|? ? Hans Hk']; subst.
        cbn [app]. rewrite ask_keep by done.
        destruct (IH (mk_table true ({[c]} ∪ add)
                        (write_rows c [c] w out) (kept ++ rest)) kept rest)
          as [IH1 IH2]; [done .. |].
        cbn [added rows] in IH1, IH2. split.
        -- intros [= Hlen]. rewrite IH1 by done. f_equal. f_equal.
           ++ cbn [fmap list_fmap fst list_to_set foldr]. set_solver.
           ++ unfold write_rows. cbn [map fst snd]. by rewrite <- app_assoc.
        -- intros Hrest Hlen. apply IH2; [done |]. simpl in Hlen. lia.
Qed.

Lemma keep_first_once concepts : ∀ seen,
  NoDup (keep_first seen concepts).*1
  ∧ (∀ c, c ∈ (keep_first seen concepts).*1 ↔ c ∈ concepts.*1 ∧ c ∉ seen).
Proof.
  induction concepts as [|[c w] concepts IH]; intros seen; cbn [keep_first].
  - split; [constructor | set_solver].
  - case_bool_decide as Hc.
    + destruct (IH seen) as [Hnd Hin]. split; [done |].
      intros c'. rewrite Hin. cbn [fmap list_fmap fst]. set_solver.
    + destruct (IH ({[c]} ∪ seen)) as [Hnd Hin]. split.
      * cbn [fmap list_fmap fst]. constructor; [| done].
        intros Hc'. apply Hin in Hc'. set_solver.
      * intros c'. cbn [fmap list_fmap fst]. rewrite elem_of_cons, Hin.
        rewrite elem_of_cons. destruct (decide (c' = c)); set_solver.
Qed.

End Table.

(** X16.  Without interactive selection the table gets one row for every
    concept the ranker returned, in order, with the concept as its own
    match: concepts that come twice are written twice, and no input is
    read. *)
Theorem table_without_selection
    {W : Type} (concepts : list (list ascii * W)) (answers : list (list ascii)) :
  write_table concepts false answers
  = Answered (mk_table false ∅
                (Header :: map (λ cw, Row cw.1 cw.1 cw.2) concepts) answers).
Proof.
  unfold write_table. rewrite write_concepts_batch by done.
  cbn [added rows inputs app].
  assert (∀ f : list ascii * W → bool,
            (∀ cw, f cw = true) → List.filter f concepts = concepts) as Hall.
  { intros f Hf. induction concepts as [|cw concepts IH]; [done |].
    cbn [List.filter]. by rewrite Hf, IH. }
  rewrite Hall; [done |].
  intros cw. apply bool_decide_eq_true_2, not_elem_of_empty.
Qed.

(** X17.  Answering [a] (keep all following) for a concept does not keep
    that concept: it is left out, and the concepts after it are written
    without further questions, except those whose name was added before. *)
Theorem keep_all_following_drops_current
    {W : Type} (concept : list ascii) (weight : W)
    (concepts : list (list ascii * W)) (t : table_state W)
    (answers : list (list ascii)) :
  select t = true → concept ∉ added t → inputs t = lit "a" :: answers →
  write_concepts ((concept, weight) :: concepts) t
  = Answered
      (mk_table false (added t)
         (rows t ++ map (λ cw, Row cw.1 cw.1 cw.2)
                      (List.filter (λ cw, bool_decide (cw.1 ∉ added t)) concepts))
         answers).
Proof.
  intros Hsel Hc Hin. cbn [write_concepts].
  rewrite bool_decide_eq_false_2, Hsel, Hin by done. cbn [ask].
  rewrite (bool_decide_eq_true_2 (lit "a" = lit "a")) by done.
  by rewrite write_concepts_batch.
Qed.

Lemma keep_all_following_drops_current_witness :
  write_table [(lit "graph", 3); (lit "node", 2); (lit "graph", 1)] true
    [lit "a"]
  = Answered (mk_table false ∅
                [Header; Row (lit "node") (lit "node") 2;
                 Row (lit "graph") (lit "graph") 1] []).
Proof.
  unfold write_table.
  rewrite (keep_all_following_drops_current (lit "graph") 3
             [(lit "node", 2); (lit "graph", 1)]
             (mk_table true ∅ [Header] [lit "a"]) []);
    [reflexivity | reflexivity | set_solver | reflexivity].
Defined.

(** X18.  When every question is answered with [k] or the empty line, the
    table gets one row for each concept name, that of its first occurrence,
    in order, and exactly one answer is read for each of them; with fewer
    answers than names the program fails at the end of the input. *)
Theorem keeping_every_concept
    {W : Type} (concepts : list (list ascii * W))
    (kept rest : list (list ascii)) :
  Forall keeps kept →
  let firsts := keep_first ∅ concepts in
  NoDup firsts.*1
  ∧ (∀ c, c ∈ firsts.*1 ↔ c ∈ concepts.*1)
  ∧ (length kept = length firsts →
     write_table concepts true (kept ++ rest)
     = Answered (mk_table true (list_to_set firsts.*1)
                   (Header :: map (λ cw, Row cw.1 cw.1 cw.2) firsts) rest))
  ∧ ((length kept < length firsts)%nat →
     write_table concepts true kept = EOFError).
Proof.
  intros Hk firsts.
  destruct (keep_first_once concepts ∅) as [Hnd Hin].
  split; [done |]. split.
  { intros c. unfold firsts. rewrite (Hin c).
    split; [by intros [? _] | intros ?; split; [done | apply not_elem_of_empty]]. }
  split.
  - intros Hlen. unfold write_table.
    destruct (write_concepts_keep concepts
                (mk_table true ∅ [Header] (kept ++ rest)) kept rest)
      as [H _]; [done .. |].
    cbn [added rows] in H. rewrite H by done. f_equal. f_equal.
    fold firsts. set_solver.
  - intros Hlen. unfold write_table.
    destruct (write_concepts_keep concepts
                (mk_table true ∅ [Header] kept) kept [])
      as [_ H]; [done | done | by rewrite app_nil_r |].
    by apply H.
Qed.

Lemma keeping_every_concept_witness :
  write_table [(lit "graph", 3); (lit "node", 2); (lit "graph", 1)] true
    [lit "k"; lit ""; lit "d"]
  = Answered (mk_table true {[ lit "graph"; lit "node" ]}
                [Header; Row (lit "graph") (lit "graph") 3;
                 Row (lit "node") (lit "node") 2] [lit "d"])
  ∧ write_table [(lit "graph", 3); (lit "node", 2)] true [lit "k"] = EOFError.
Proof.
  split.
  - destruct (keeping_every_concept
                [(lit "graph", 3); (lit "node", 2); (lit "graph", 1)]
                [lit "k"; lit ""] [lit "d"]) as (_ & _ & H & _).
    + apply Forall_cons_2; [by left |].
      apply Forall_cons_2; [by right | apply Forall_nil_2].
    + specialize (H eq_refl). cbn [app] in H. rewrite H.
      vm_compute. reflexivity.
  - destruct (keeping_every_concept
                [(lit "graph", 3); (lit "node", 2)] [lit "k"] []) as (_ & _ & _ & H).
    + apply Forall_cons_2; [by left | apply Forall_nil_2].
    + apply H. vm_compute. lia.
Defined.

(** ** Answers that edit a concept *)

Lemma split_nonempty sep s : split sep s ≠ [].
Proof.
  destruct s as [|c s]; [done |]. cbn [split].
  case_bool_decide; [done |]. by destruct (split sep s).
Qed.

Lemma join_cons sep part parts :
  parts ≠ [] → join sep (part :: parts) = part ++ sep ++ join sep parts.
Proof. by destruct parts. Qed.

Lemma join_split sep s : join [sep] (split sep s) = s.
Proof.
  induction s as [|c s IH]; [done |]. cbn [split].
  pose proof (split_nonempty sep s) as Hne.
  case_bool_decide as Hc.
  - subst c. rewrite join_cons by done. by rewrite IH.
  - destruct (split sep s) as [|piece pieces]; [done |].
    destruct pieces as [|piece' pieces].
    + cbn [join] in IH |- *. by rewrite IH.
    + rewrite join_cons in IH |- * by done. by rewrite <- IH.
Qed.

Lemma split_pieces sep s :
  Forall (λ piece, sep ∉ piece) (split sep s)
  ∧ length (split sep s) = S (count_occ ascii_dec s sep).
Proof.
  induction s as [|c s [IH1 IH2]].
  - split; [| done]. apply Forall_cons_2; [apply not_elem_of_nil | apply Forall_nil_2].
  - cbn [split count_occ]. case_bool_decide as Hc.
    + subst c. destruct (ascii_dec sep sep) as [_ | Hne]; [| done]. split.
      * apply Forall_cons_2; [apply not_elem_of_nil | done].
      * simpl. by rewrite IH2.
    + destruct (ascii_dec c sep) as [Heq | _]; [done |].
      pose proof (split_nonempty sep s) as Hne.
      destruct (split sep s) as [|piece pieces]; [done |].
      inversion IH1 as [|? ? Hp Hps]; subst. split; [| done].
      apply Forall_cons_2; [| done].
      rewrite not_elem_of_cons. split; [congruence | done].
Qed.

Lemma ask_edit {W : Type} edited answers concept matches (weight : W) add out :
  ask (lit "w" :: edited :: answers) concept matches weight add out
  = ask answers concept (split ","%char edited) weight add out.
Proof. reflexivity. Qed.

Lemma ask_rename {W : Type} new answers concept matches (weight : W) add out :
  ask (lit "e" :: new :: answers) concept matches weight add out
  = ask answers new matches weight add out.
Proof. reflexivity. Qed.

Lemma ask_keep_added {W : Type} ans answers concept matches (weight : W) add out :
  keeps ans → concept ∈ add →
  ask (ans :: answers) concept matches weight add out
  = Answered (mk_table true add out answers).
Proof.
  intros [-> | ->] Hc.
  - change (ask (lit "k" :: answers) concept matches weight add out)
      with (if bool_decide (concept ∈ add)
            then Answered (mk_table true add out answers)
            else Answered (mk_table true ({[concept]} ∪ add)
                             (write_rows concept matches weight out) answers)).
    by rewrite bool_decide_eq_true_2.
  - change (ask ([] :: answers) concept matches weight add out)
      with (if bool_decide (concept ∈ add)
            then Answered (mk_table true add out answers)
            else Answered (mk_table true ({[concept]} ∪ add)
                             (write_rows concept matches weight out) answers)).
    by rewrite bool_decide_eq_true_2.
Qed.

(** X19.  Editing the matches of a concept and keeping it writes one row
    for each piece of the line typed, cut at its commas: the pieces have no
    comma, joined by commas they give the line back, and there is one more
    of them than commas, so that an empty line gives one row with an empty
    match. *)
Theorem edited_matches_rows
    {W : Type} (edited ans : list ascii) (answers : list (list ascii))
    (concept : list ascii) (matches : list (list ascii)) (weight : W)
    (add : gset (list ascii)) (out : list (row W)) :
  keeps ans → concept ∉ add →
  ask (lit "w" :: edited :: ans :: answers) concept matches weight add out
  = Answered (mk_table true ({[concept]} ∪ add)
                (out ++ map (λ m, Row concept m weight) (split ","%char edited))
                answers)
  ∧ join (lit ",") (split ","%char edited) = edited
  ∧ Forall (λ piece, ","%char ∉ piece) (split ","%char edited)
  ∧ length (split ","%char edited) = S (count_occ ascii_dec edited ","%char).
Proof.
  intros Hans Hc. split; [| split; [apply join_split | apply split_pieces]].
  by rewrite ask_edit, ask_keep.
Qed.

Lemma edited_matches_rows_witness :
  ask [lit "w"; lit "graph,graphs"; lit "k"] (lit "graph") [lit "graph"] 3 ∅
    [Header]
  = Answered (mk_table true {[ lit "graph" ]}
                [Header; Row (lit "graph") (lit "graph") 3;
                 Row (lit "graph") (lit "graphs") 3] []).
Proof.
  destruct (edited_matches_rows (lit "graph,graphs") (lit "k") []
              (lit "graph") [lit "graph"] 3 ∅ [Header]) as [H _].
  - by left.
  - apply not_elem_of_empty.
  - rewrite H. vm_compute. reflexivity.
Defined.

(** ** Runs that return *)

Section Returns.

Variables (allowed : list (list ascii)) (methods : option (list method)).
Variable iter_long : list ascii → list match_t.

Lemma process_lines_returns lines : ∀ line_nr f,
  Forall (λ line, well_placed (len line) 0 (iter_long line)) lines →
  ∃ f', process_lines allowed methods iter_long line_nr lines f = Ok f'.
Proof.
  induction lines as [|line lines IH]; intros line_nr f Hall.
  - by exists f.
  - inversion Hall as [|? ? Hline Hall']; subst. cbn [process_lines].
    assert (∃ f1, process_line allowed methods iter_long line_nr line f = Ok f1)
      as [f1 ->].
    { unfold process_line. destruct (is_inside_env _); [by eexists |].
      destruct (annotate_loop_rebuilt methods line_nr line (iter_long line)
                  (mk_loop line 0 (stats f) (last_line f)) [] 0)
        as (s' & -> & _); [done | done | done | | by eexists].
      unfold rebuilt. simpl. repeat split. lia. }
    cbn [bind]. by apply IH.
Qed.

Lemma process_files_returns files : ∀ st,
  Forall (Forall (λ line, well_placed (len line) 0 (iter_long line))) files →
  ∃ outs st', process_files allowed methods iter_long files st = Ok (outs, st').
Proof.
  induction files as [|lines files IH]; intros st Hall.
  - by exists [], st.
  - inversion Hall as [|? ? Hlines Hall']; subst. cbn [process_files].
    unfold process_file.
    destruct (process_lines_returns lines 0
                (mk_file ∅ ∅ (bump "edited files" st) []) Hlines) as [f1 ->].
    cbn [bind]. destruct (IH (stats f1) Hall') as (outs & st' & ->).
    cbn [bind]. by eexists _, _.
Qed.

End Returns.

(** X20.  A run does not fail when, on every line of every file, the
    matches come in increasing order of end offset, each starting in the
    line and followed by a character: the loop over the files returns the
    rewritten files and the statistics. *)
Theorem run_returns
    (allowed : list (list ascii)) (methods : option (list method))
    (iter_long : list ascii → list match_t)
    (files : list (list (list ascii))) (st : stats_t) :
  Forall (Forall (λ line, well_placed (len line) 0 (iter_long line))) files →
  ∃ outs st',
    process_files allowed methods iter_long files st = Ok (outs, st')
    ∧ Forall2 (Forall2 sublist) files outs.
Proof.
  intros Hall.
  destruct (process_files_returns allowed methods iter_long files st Hall)
    as (outs & st' & Hrun).
  exists outs, st'. split; [done |].
  revert st outs st' Hrun. clear Hall.
  induction files as [|lines files IH]; intros st outs st'; cbn [process_files].
  - intros [= <- _]. constructor.
  - destruct (process_file allowed methods iter_long lines st)
      as [[out st1]|] eqn:Hfile; [| done].
    cbn [bind].
    destruct (process_files allowed methods iter_long files st1)
      as [[outs1 st2]|] eqn:Hrest; [| done].
    cbn [bind]. intros [= <- _]. constructor; [| by eapply IH].
    by apply process_file_sublist in Hfile.
Qed.

Lemma run_returns_witness :
  ∃ outs st',
    process_files [lit "sloppypar"] None
      (reference_matcher [(lit "graph", lit "graph")])
      [[ln "a graph b"; ln "graphs"]] stats0 = Ok (outs, st').
Proof.
  destruct (run_returns [lit "sloppypar"] None
              (reference_matcher [(lit "graph", lit "graph")])
              [[ln "a graph b"; ln "graphs"]] stats0) as (outs & st' & H & _).
  - repeat apply Forall_cons_2; try apply Forall_nil_2;
      vm_compute; repeat split; discriminate.
  - by exists outs, st'.
Defined.

(** ** One batch of rows for an index entry *)

Section Batches.

Context {W : Type}.

(** A question ends with the table as it was, or with one batch more for a
    name that was not in it. *)
Lemma ask_outcome (n : nat) : ∀ answers concept matches (weight : W) add out t',
  (length answers ≤ n)%nat →
  ask answers concept matches weight add out = Answered t' →
  (added t' = add ∧ rows t' = out)
  ∨ (∃ name matches',
       name ∉ add ∧ added t' = {[name]} ∪ add ∧ select t' = true
       ∧ rows t' = out ++ map (λ m, Row name m weight) matches').
Proof.
  induction n as [|n IH]; intros answers concept matches weight add out t' Hlen.
  - destruct answers; [done | simpl in Hlen; lia].
  - destruct answers as [|ans answers]; [done |]. simpl in Hlen.
    cbn [ask].
    case_bool_decide; [intros [= <-]; by left |].
    case_bool_decide; [intros [= <-]; by left |].
    case_bool_decide.
    { destruct answers as [|new answers]; [done |]. simpl in Hlen.
      apply IH. lia. }
    case_bool_decide.
    { destruct answers as [|edited answers]; [done |]. simpl in Hlen.
      apply IH. lia. }
    destruct (_ || _); [| apply IH; lia].
    case_bool_decide as Hc; intros [= <-]; [by left |].
    right. by exists concept, matches.
Qed.

Lemma write_concepts_unselected concepts (t t' : table_state W) :
  select t = false → write_concepts concepts t = Answered t' →
  select t' = false.
Proof.
  intros Hsel. rewrite write_concepts_batch by done. by intros [= <-].
Qed.

Lemma write_concepts_batches concepts : ∀ (t t' : table_state W) batches,
  write_concepts concepts t = Answered t' → select t' = true →
  rows t = Header :: rows_of batches →
  NoDup batches.*1.*1 → added t = list_to_set batches.*1.*1 →
  ∃ batches',
    rows t' = Header :: rows_of batches'
    ∧ NoDup batches'.*1.*1 ∧ added t' = list_to_set batches'.*1.*1.
Proof.
  induction concepts as [|[c w] concepts IH]; intros t t' batches;
    cbn [write_concepts].
  - intros [= <-] _ Hrows Hnd Hadd. by exists batches.
  - case_bool_decide as Hc; [apply IH |].
    destruct (select t) eqn:Hsel.
    + destruct (ask (inputs t) c [c] w (added t) (rows t)) as [t1|] eqn:Hask;
        [| done].
      intros Hrun Hsel' Hrows Hnd Hadd.
      destruct (ask_outcome _ _ _ _ _ _ _ _ (Nat.le_refl _) Hask)
        as [(Ha & Hr) | (name & ms & Hname & Ha & _ & Hr)].
      * apply (IH t1 t' batches); [done | done | | done |]; congruence.
      * apply (IH t1 t' (batches ++ [(name, ms, w)])); [done | done | | |].
        -- rewrite Hr, Hrows. unfold rows_of. rewrite flat_map_app. simpl.
           by rewrite app_nil_r.
        -- rewrite !fmap_app. simpl. apply NoDup_app. split; [done |]. split.
           ++ intros x Hx Hx'. apply list_elem_of_singleton in Hx'. subst x.
              apply Hname. rewrite Hadd. by apply elem_of_list_to_set.
           ++ apply NoDup_singleton.
        -- rewrite Ha, Hadd, !fmap_app, list_to_set_app_L. simpl.
           set_solver.
    + intros Hrun Hsel'. apply write_concepts_unselected in Hrun; [| done].
      congruence.
Qed.

End Batches.

(** X21.  In a session in which [a] is never answered, whatever else is
    typed, the table is a sequence of batches of rows, one batch for an
    index entry, and no index entry has two batches: a name that is in the
    table, kept or chosen by renaming, is never written again. *)
Theorem one_batch_per_index_entry
    {W : Type} (concepts : list (list ascii * W)) (answers : list (list ascii))
    (t' : table_state W) :
  write_table concepts true answers = Answered t' → select t' = true →
  ∃ batches,
    rows t' = Header :: rows_of batches
    ∧ NoDup batches.*1.*1
    ∧ added t' = list_to_set batches.*1.*1.
Proof.
  intros Hrun Hsel.
  apply (write_concepts_batches concepts
           (mk_table true ∅ [Header] answers) t' []); try done.
  constructor.
Qed.

Lemma one_batch_per_index_entry_witness :
  ∃ batches,
    [Header; Row (lit "graph theory") (lit "graph") 3;
     Row (lit "graph theory") (lit "graphs") 3]
    = Header :: rows_of batches
    ∧ NoDup batches.*1.*1.
Proof.
  destruct (one_batch_per_index_entry
              [(lit "graph", 3); (lit "graphs", 2)]
              [lit "w"; lit "graph,graphs"; lit "e"; lit "graph theory";
               lit "k"; lit "e"; lit "graph theory"; lit ""]
              (mk_table true {[ lit "graph theory" ]}
                 [Header; Row (lit "graph theory") (lit "graph") 3;
                  Row (lit "graph theory") (lit "graphs") 3] []))
    as (batches & Hrows & Hnd & _).
  - vm_compute. reflexivity.
  - reflexivity.
  - exists batches. split; [exact Hrows | exact Hnd].
Defined.
